(** * sud.c: a parallel brute-force Sudoku solver

    A shallow embedding of the functions of [sud.c] and the proofs of the
    properties its specification states about them.

    Conventions.  A C [int] or [long] is a [Z]; the places where the code
    could overflow one, and every access outside an array, are undefined
    behaviour in C and are an explicit [Undef] or [None] outcome here.
    A [double] is a [spec_float] of the Standard Library, with its
    IEEE 754 operations at precision 53.
    C's [/] and [%] truncate towards zero: they are [Z.quot] and [Z.rem].
    The array [int puzzle[9][9]] is the list of its 81 cells in memory
    (row-major) order. *)

From Stdlib Require Import ZArith Lia List Bool Ascii SpecFloat.
From stdpp Require Import base tactics option list numbers gmap relations.

Local Open Scope Z_scope.

(** ** Constants of the source *)

Definition BOARDSIZE : Z := 81.
Definition GRIDSIZE : Z := 9.
Definition LENGTH : Z := 3.
Definition INT_MAX : Z := 2147483647.

(** ** The board *)

(** [puzzle[row][col]] lives at offset [row * GRIDSIZE + col]. *)
Definition offset (row col : Z) : nat := Z.to_nat (row * GRIDSIZE + col).

(** Reading [puzzle[row][col]]. *)
Definition cell (puzzle : list Z) (row col : Z) : Z :=
  default 0 (puzzle !! offset row col).

(** The assignment [puzzle[row][col] = v]. *)
Definition store (puzzle : list Z) (row col v : Z) : list Z :=
  <[offset row col := v]> puzzle.

(** An index pair that designates a cell of the 9x9 array. *)
Definition in_grid (row col : Z) : Prop :=
  0 <= row < GRIDSIZE /\ 0 <= col < GRIDSIZE.

Definition in_gridb (row col : Z) : bool :=
  (0 <=? row) && (row <? GRIDSIZE) && (0 <=? col) && (col <? GRIDSIZE).

(** ** isValid *)

(** The body of the [for] loop of [isValid], from index [i], with [k]
    iterations left; each of the three tests returns 0 at once. *)
Fixpoint isValid_from (k : nat) (i : Z) (number : Z) (puzzle : list Z)
    (row column : Z) : bool :=
  match k with
  | O => true
  | S k' =>
      if cell puzzle i column =? number then false
      else if cell puzzle row i =? number then false
      else if number =?
                cell puzzle (row ÷ LENGTH * LENGTH + Z.rem i LENGTH)
                            (column ÷ LENGTH * LENGTH + i ÷ LENGTH)
      then false
      else isValid_from k' (i + 1) number puzzle row column
  end.

Definition isValid (number : Z) (puzzle : list Z) (row column : Z) : bool :=
  isValid_from (Z.to_nat GRIDSIZE) 0 number puzzle row column.

(** The digit [number] occurs in the row, the column or the 3x3 block of
    the cell [(row, column)]; the block is the one with the same floor
    quotients by 3. *)
Definition occurs_in_row (number : Z) (puzzle : list Z) (row : Z) : Prop :=
  exists j, 0 <= j < GRIDSIZE /\ cell puzzle row j = number.

Definition occurs_in_column (number : Z) (puzzle : list Z) (column : Z) : Prop :=
  exists i, 0 <= i < GRIDSIZE /\ cell puzzle i column = number.

Definition occurs_in_block (number : Z) (puzzle : list Z) (row column : Z) : Prop :=
  exists i j, (0 <= i < GRIDSIZE /\ 0 <= j < GRIDSIZE) /\
              (i / LENGTH = row / LENGTH /\ j / LENGTH = column / LENGTH) /\
              cell puzzle i j = number.

(** One iteration of the loop of [isValid], at index [t], finds [number]. *)
Definition hit (number : Z) (puzzle : list Z) (row column t : Z) : Prop :=
  cell puzzle t column = number \/
  cell puzzle row t = number \/
  cell puzzle (row ÷ LENGTH * LENGTH + Z.rem t LENGTH)
              (column ÷ LENGTH * LENGTH + t ÷ LENGTH) = number.

(** ** The worker's view of the process *)

(** What the search does to its board is recorded, newest entry first:
    - [Examined row col v]: the test [0 != puzzle[row][col]] read [v];
    - [Tested row col number held]: [isValid(number, puzzle, row, col)] was
      called while [puzzle[row][col]] held [held];
    - [Wrote row col v]: the assignment [puzzle[row][col] = v]. *)
Inductive event : Type :=
| Examined (row col v : Z)
| Tested (row col number held : Z)
| Wrote (row col v : Z).

(** One worker thread: its own board, the number of holds it has on the
    reader/writer lock [lock], the number of times it has read
    [g_finished] under that lock, and the record of what it did. *)
Record worker : Type := Worker {
  board : list Z;
  rdlocks : nat;
  probes : nat;
  trace : list event
}.

(** The outcome of running a piece of the program. *)
Inductive outcome (A : Type) : Type :=
| Ret (a : A) (w : worker)
| Undef
| OutOfFuel.
Arguments Ret {A} a w.
Arguments Undef {A}.
Arguments OutOfFuel {A}.

Definition record (e : event) (w : worker) : worker :=
  Worker (board w) (rdlocks w) (probes w) (e :: trace w).

(** [puzzle[row][col] = v] *)
Definition write (w : worker) (row col v : Z) : worker :=
  Worker (store (board w) row col v) (rdlocks w) (probes w)
         (Wrote row col v :: trace w).

(** [pthread_rwlock_rdlock(&lock)] and [pthread_rwlock_unlock(&lock)], as
    this thread sees them: one hold more, one hold less. *)
Definition rwlock_rdlock (w : worker) : worker :=
  Worker (board w) (S (rdlocks w)) (probes w) (trace w).

Definition rwlock_unlock (w : worker) : worker :=
  Worker (board w) (Nat.pred (rdlocks w)) (probes w) (trace w).

Definition probed (w : worker) : worker :=
  Worker (board w) (rdlocks w) (S (probes w)) (trace w).

(** [++startV == 10 ? 1 : startV]: the next candidate of the rotation. *)
Definition next_guess (startV : Z) : Z :=
  if startV + 1 =? 10 then 1 else startV + 1.

(** [col++], and at the end of a row the wrap to the next row, and after
    the last row back to row 0. *)
Definition advance (row col : Z) : Z * Z :=
  if GRIDSIZE =? col + 1
  then (if GRIDSIZE =? row + 1 then 0 else row + 1, 0)
  else (row, col + 1).

Section Search.

(** [g_finished] is written by other threads: [g_finished_at n] is the
    value this worker reads at its [n]-th probe (counted from 0). *)
Variable g_finished_at : nat -> bool.

(** The [for] loop of [sudokuHelper] on the cell [(row, col)], with [k]
    iterations left; [call w v] is the recursive call
    [sudokuHelper(puzzle, row, col, v, nTimes+1)].  After the loop:
    [puzzle[row][col] = 0; return 0]. *)
Fixpoint try_candidates (call : worker -> Z -> outcome bool) (row col : Z)
    (k : nat) (startV : Z) (w : worker) : outcome bool :=
  match k with
  | O => Ret false (write w row col 0)
  | S k' =>
      if startV =? INT_MAX then Undef
      else
        let startV := next_guess startV in
        let w := record (Tested row col startV (cell (board w) row col)) w in
        if isValid startV (board w) row col then
          match call (write w row col startV) startV with
          | Ret true w' => Ret true w'
          | Ret false w' => try_candidates call row col k' startV w'
          | Undef => Undef
          | OutOfFuel => OutOfFuel
          end
        else try_candidates call row col k' startV w
  end.

(** [sudokuHelper(puzzle, row, col, startV, nTimes)], with [fuel] bounding
    the depth of the recursion.  The early return on [g_finished] leaves
    the read lock held, as the source does.  [puzzle[row][col]] outside the
    array, and [nTimes+1] and [++startV] past [INT_MAX], are undefined. *)
Fixpoint sudokuHelper (fuel : nat) (w : worker) (row col startV nTimes : Z)
    : outcome bool :=
  match fuel with
  | O => OutOfFuel
  | S fuel' =>
      let w := rwlock_rdlock w in
      let finished := g_finished_at (probes w) in
      let w := probed w in
      if finished then Ret true w
      else
        let w := rwlock_unlock w in
        if BOARDSIZE =? nTimes then Ret true w
        else
          let '(row, col) := advance row col in
          if negb (in_gridb row col) then Undef
          else
            let v := cell (board w) row col in
            let w := record (Examined row col v) w in
            let call w startV :=
              if nTimes =? INT_MAX then Undef
              else sudokuHelper fuel' w row col startV (nTimes + 1) in
            if negb (0 =? v) then call w startV
            else try_candidates call row col (Z.to_nat GRIDSIZE) startV w
  end.

End Search.

(** The latch that no thread ever sets. *)
Definition never_finished : nat -> bool := fun _ => false.

(** A worker that starts on [puzzle], holding no lock. *)
Definition fresh_worker (puzzle : list Z) : worker := Worker puzzle 0 0 [].

(** The value of [g_finished] is 1 from the start. *)
Definition already_finished : nat -> bool := fun _ => true.

(** The recursive call of [sudokuHelper] on the next depth, from the cell
    [(row, col)]. *)
Definition recurse (g_finished_at : nat -> bool) (fuel : nat)
    (row col nTimes : Z) (w : worker) (startV : Z) : outcome bool :=
  if nTimes =? INT_MAX then Undef
  else sudokuHelper g_finished_at fuel w row col startV (nTimes + 1).

(** [d] steps of the rotation of the guess. *)
Fixpoint rotate (d : nat) (startV : Z) : Z :=
  match d with
  | O => startV
  | S d' => next_guess (rotate d' startV)
  end.

(** Every cell of the board is filled. *)
Definition all_filled (puzzle : list Z) : Prop :=
  forall row col, in_grid row col -> cell puzzle row col <> 0.

(** ** What the specification says of the search *)

(** The cells that are filled in [before] hold the same value in [after]. *)
Definition keeps_givens (before after : list Z) : Prop :=
  forall row col, cell before row col <> 0 ->
                  cell after row col = cell before row col.

(** In a record (newest entry first), every assignment to a cell comes
    after an examination of that cell that read 0. *)
Definition written_after_zero (t : list event) : Prop :=
  forall later earlier row col v,
    t = later ++ Wrote row col v :: earlier ->
    In (Examined row col 0) earlier.

Fixpoint writes_ok (t : list event) : Prop :=
  match t with
  | [] => True
  | Wrote row col _ :: earlier =>
      In (Examined row col 0) earlier /\ writes_ok earlier
  | _ :: earlier => writes_ok earlier
  end.

(** At every legality test the cell under test holds 0. *)
Definition tests_on_zero (t : list event) : Prop :=
  forall row col number held, In (Tested row col number held) t -> held = 0.

(** The cell that an entry of the record is about. *)
Definition cell_of (e : event) : Z * Z :=
  match e with
  | Examined row col _ | Tested row col _ _ | Wrote row col _ => (row, col)
  end.

Definition at_cell (row col r c : Z) : bool := (r =? row) && (c =? col).

(** The last access to the content of [puzzle[row][col]] in a record
    (newest entry first): the newest examination of the cell or assignment
    to it. *)
Fixpoint latest (row col : Z) (t : list event) : option event :=
  match t with
  | [] => None
  | Examined r c v :: earlier =>
      if at_cell row col r c then Some (Examined r c v)
      else latest row col earlier
  | Wrote r c v :: earlier =>
      if at_cell row col r c then Some (Wrote r c v)
      else latest row col earlier
  | Tested _ _ _ _ :: earlier => latest row col earlier
  end.

(** The number of legality tests on the cell since its newest
    examination. *)
Fixpoint tests_since (row col : Z) (t : list event) : option nat :=
  match t with
  | [] => None
  | Examined r c _ :: earlier =>
      if at_cell row col r c then Some O else tests_since row col earlier
  | Tested r c _ _ :: earlier =>
      if at_cell row col r c then S <$> tests_since row col earlier
      else tests_since row col earlier
  | Wrote _ _ _ :: earlier => tests_since row col earlier
  end.

(** At every legality test the cell under test holds what the last access
    left there: 0 when that access is the examination that opened the
    loop, and otherwise the candidate written last, which is not 0 and is
    not the candidate under test.  No reset comes between the assignment
    of a candidate and the tests of the next ones. *)
Definition tests_on_last_candidate (t : list event) : Prop :=
  forall later earlier row col number held,
    t = later ++ Tested row col number held :: earlier ->
    (latest row col earlier = Some (Examined row col 0) /\ held = 0) \/
    (exists v, latest row col earlier = Some (Wrote row col v) /\
               v <> 0 /\ v <> number /\ held = v).

(** Every reset of a cell to 0 comes when nine candidates have been
    tested on the cell since it was examined. *)
Definition resets_after_ninth_test (t : list event) : Prop :=
  forall later earlier row col,
    t = later ++ Wrote row col 0 :: earlier ->
    tests_since row col earlier = Some 9%nat.

Fixpoint loop_ok (t : list event) : Prop :=
  match t with
  | [] => True
  | Tested row col number held :: earlier =>
      ((latest row col earlier = Some (Examined row col 0) /\ held = 0) \/
       (exists v, latest row col earlier = Some (Wrote row col v) /\
                  v <> 0 /\ v <> number /\ held = v)) /\
      loop_ok earlier
  | Wrote row col v :: earlier =>
      (v = 0 -> tests_since row col earlier = Some 9%nat) /\ loop_ok earlier
  | Examined _ _ _ :: earlier => loop_ok earlier
  end.

(** [(row', col')] is in the row, the column or the 3x3 block of
    [(row, col)]. *)
Definition peer (row col row' col' : Z) : Prop :=
  row' = row \/ col' = col \/
  (row' / LENGTH = row / LENGTH /\ col' / LENGTH = col / LENGTH).

(** Every cell that was empty in [before] and is filled in [after] holds a
    digit 1..9 that no other cell of its row, column or block holds. *)
Definition fills (before after : list Z) : Prop :=
  forall row col,
    in_grid row col -> cell before row col = 0 -> cell after row col <> 0 ->
    1 <= cell after row col <= 9 /\
    forall row' col',
      in_grid row' col' -> peer row col row' col' ->
      (row', col') <> (row, col) ->
      cell after row' col' <> cell after row col.

(** [solved] completes [puzzle]: no cell is empty, the givens are kept and
    the filled cells obey the rules. *)
Definition completion (puzzle solved : list Z) : Prop :=
  all_filled solved /\ keeps_givens puzzle solved /\ fills puzzle solved.

Definition unsolvable (puzzle : list Z) : Prop :=
  forall solved, ~ completion puzzle solved.

(** The cell reached from [(row, col)] after [j] steps of the scan. *)
Fixpoint walk (j : nat) (row col : Z) : Z * Z :=
  match j with
  | O => (row, col)
  | S j' => walk j' (advance row col).1 (advance row col).2
  end.

(** The [m] cells that follow [(row, col)] in the scan are filled. *)
Definition filled_after (m : Z) (row col : Z) (puzzle : list Z) : Prop :=
  forall j, 1 <= Z.of_nat j <= m ->
            cell puzzle (walk j row col).1 (walk j row col).2 <> 0.

(** ** Boards used as examples *)

(** A solved grid. *)
Definition solved_grid : list Z :=
  [5; 3; 4; 6; 7; 8; 9; 1; 2;
   6; 7; 2; 1; 9; 5; 3; 4; 8;
   1; 9; 8; 3; 4; 2; 5; 6; 7;
   8; 5; 9; 7; 6; 1; 4; 2; 3;
   4; 2; 6; 8; 5; 3; 7; 9; 1;
   7; 1; 3; 9; 2; 4; 8; 5; 6;
   9; 6; 1; 5; 3; 7; 2; 8; 4;
   2; 8; 7; 4; 1; 9; 6; 3; 5;
   3; 4; 5; 2; 8; 6; 1; 7; 9].

(** A board that cannot be completed: row 0 lacks 1 and 2, and column 1
    holds both, so no digit fits the cell (0, 1). *)
Definition stuck_board : list Z :=
  [0; 0; 3; 4; 5; 6; 7; 8; 9;
   0; 0; 0; 0; 0; 0; 0; 0; 0;
   0; 0; 0; 0; 0; 0; 0; 0; 0;
   0; 1; 0; 0; 0; 0; 0; 0; 0;
   0; 2; 0; 0; 0; 0; 0; 0; 0;
   0; 0; 0; 0; 0; 0; 0; 0; 0;
   0; 0; 0; 0; 0; 0; 0; 0; 0;
   0; 0; 0; 0; 0; 0; 0; 0; 0;
   0; 0; 0; 0; 0; 0; 0; 0; 0].

(** What the search on [stuck_board] from the cursor (8, 8) and the guess
    0 does, oldest entry first. *)
Definition stuck_trace : list event :=
  [Examined 0 0 0; Tested 0 0 1 0; Wrote 0 0 1;
   Examined 0 1 0; Tested 0 1 2 0; Tested 0 1 3 0; Tested 0 1 4 0;
   Tested 0 1 5 0; Tested 0 1 6 0; Tested 0 1 7 0; Tested 0 1 8 0;
   Tested 0 1 9 0; Tested 0 1 1 0; Wrote 0 1 0;
   Tested 0 0 2 1; Wrote 0 0 2;
   Examined 0 1 0; Tested 0 1 3 0; Tested 0 1 4 0; Tested 0 1 5 0;
   Tested 0 1 6 0; Tested 0 1 7 0; Tested 0 1 8 0; Tested 0 1 9 0;
   Tested 0 1 1 0; Tested 0 1 2 0; Wrote 0 1 0;
   Tested 0 0 3 2; Tested 0 0 4 2; Tested 0 0 5 2; Tested 0 0 6 2;
   Tested 0 0 7 2; Tested 0 0 8 2; Tested 0 0 9 2; Wrote 0 0 0].

(** ** main: the thread parameters *)

(** [struct boardz], the data passed to a thread. *)
Module Task.
Record boardz : Type := Boardz {
  completed : bool;
  board : list Z;
  start : Z;
  row : Z;
  col : Z
}.
End Task.

Section Main.

(** [rand_at n] is what the [n]-th call of [rand()] (counted from 0)
    returns after [srand(time(NULL))]; [guess_start thread_num i] is the
    [int] that [(float)GRIDSIZE/thread_num * i] converts to (the
    single-precision arithmetic is not modelled). *)
Variable rand_at : nat -> Z.
Variable guess_start : Z -> Z -> Z.

(** The loop of [main] that allocates and fills [p[i]], from index [i]
    with [k] iterations left, [drawn] calls of [rand()] having been made:
    [memcpy] of the puzzle, [completed = 0], [start], then
    [row = rand() % 9] and [col = rand() % 9], in this order. *)
Fixpoint make_tasks (k : nat) (i thread_num : Z) (puzzle : list Z)
    (drawn : nat) : list Task.boardz :=
  match k with
  | O => []
  | S k' =>
      Task.Boardz false puzzle (guess_start thread_num i)
                  (Z.rem (rand_at drawn) 9) (Z.rem (rand_at (S drawn)) 9)
      :: make_tasks k' (i + 1) thread_num puzzle (S (S drawn))
  end.

Definition main_tasks (thread_num : Z) (puzzle : list Z) : list Task.boardz :=
  make_tasks (Z.to_nat thread_num) 0 thread_num puzzle 0.

End Main.

(** The state of the sample generator of the C standard (7.22.2.2) after
    [n] calls, from the seed [seed], and the value its [n]-th call returns:
    [next = next * 1103515245 + 12345; return (next/65536) % 32768], with
    a 64-bit [unsigned long]. *)
Fixpoint sample_next (seed : Z) (n : nat) : Z :=
  match n with
  | O => seed
  | S n' => (sample_next seed n' * 1103515245 + 12345) mod 2 ^ 64
  end.

Definition sample_rand (seed : Z) (n : nat) : Z :=
  (sample_next seed (S n) / 65536) mod 32768.

(** All the tasks carry the same starting cursor. *)
Definition same_cursor (tasks : list Task.boardz) : Prop :=
  forall t u, In t tasks -> In u tasks ->
              Task.row t = Task.row u /\ Task.col t = Task.col u.

(** ** buffSudoku *)

(** The characters of the output. *)
Definition NUL : ascii := Ascii.zero.
Definition SPACE : ascii := " "%char.
Definition digit_char (d : Z) : ascii := ascii_of_nat (48 + Z.to_nat d).

(** The decimal digits of a number [n >= 0], most significant first. *)
Fixpoint digits_from (fuel : nat) (n : Z) (acc : list ascii) : list ascii :=
  match fuel with
  | O => acc
  | S fuel' =>
      let acc' := digit_char (n mod 10) :: acc in
      if n <? 10 then acc' else digits_from fuel' (n / 10) acc'
  end.

Definition decimal (n : Z) : list ascii :=
  digits_from (S (Z.to_nat (Z.log2 n))) n [].

(** The conversion ["%d"] of an [int]. *)
Definition fmt_d (v : Z) : list ascii :=
  if v <? 0 then "-"%char :: decimal (- v) else decimal v.

(** [m * 2^e] in millionths, rounded to the nearest integer, ties to the
    even one. *)
Definition millionths (m : positive) (e : Z) : Z :=
  if 0 <=? e then Z.pos m * 2 ^ e * 1000000
  else
    let num := Z.pos m * 1000000 in
    let den := 2 ^ (- e) in
    let q := num / den in
    let r := num mod den in
    if 2 * r <? den then q
    else if den <? 2 * r then q + 1
    else if Z.even q then q else q + 1.

Definition sign_text (s : bool) : list ascii :=
  if s then ["-"%char] else [].

(** The conversion ["%f"] of a [double]: the integer part in full, a
    point and six decimals. *)
Definition fmt_f (timeo : spec_float) : list ascii :=
  match timeo with
  | S754_zero s =>
      sign_text s ++ decimal 0 ++ "."%char :: tail (decimal 1000000)
  | S754_infinity s => sign_text s ++ ["i"; "n"; "f"]%char
  | S754_nan => ["n"; "a"; "n"]%char
  | S754_finite s m e =>
      let n := millionths m e in
      sign_text s ++ decimal (n / 1000000)
      ++ "."%char :: tail (decimal (1000000 + n mod 1000000))
  end.

(** Overwriting [buf] from position [pos] with [bytes]. *)
Definition poke (buf : list ascii) (pos : nat) (bytes : list ascii)
    : list ascii :=
  take pos buf ++ bytes ++ drop (pos + length bytes) buf.

(** [snprintf(buff2 + cx, size, ...)] when the conversions produce [text]:
    at most [size - 1] characters of [text] and a terminating NUL are
    written from position [cx]; the value returned is the length of
    [text].  A negative [256 - cx] converts to a huge [size_t], and the
    write past the end of the buffer is undefined: [None]. *)
Definition snprintf (buf : list ascii) (cx size : Z) (text : list ascii)
    : option (list ascii * Z) :=
  if size <? 0 then None
  else if size =? 0 then Some (buf, Z.of_nat (length text))
  else
    let n := Nat.min (length text) (Z.to_nat (size - 1)) in
    Some (poke buf (Z.to_nat cx) (take n text ++ [NUL]),
          Z.of_nat (length text)).

(** The inner loop of [buffSudoku] on row [i], from column [j], with [k]
    iterations left. *)
Fixpoint print_row (k : nat) (i j : Z) (puzzle : list Z)
    (buf : list ascii) (cx : Z) : option (list ascii * Z) :=
  match k with
  | O => Some (buf, cx)
  | S k' =>
      match snprintf buf cx (256 - cx) (fmt_d (cell puzzle i j) ++ [SPACE]) with
      | None => None
      | Some (buf', dx) => print_row k' i (j + 1) puzzle buf' (cx + dx)
      end
  end.

(** The outer loop, from row [i], with [k] iterations left. *)
Fixpoint print_rows (k : nat) (i : Z) (puzzle : list Z)
    (buf : list ascii) (cx : Z) : option (list ascii * Z) :=
  match k with
  | O => Some (buf, cx)
  | S k' =>
      match print_row (Z.to_nat GRIDSIZE) i 0 puzzle buf cx with
      | None => None
      | Some (buf', cx') => print_rows k' (i + 1) puzzle buf' cx'
      end
  end.

(** [buffSudoku(puzzle, timeo)]; [buff2] is the content of the 256 bytes
    that [malloc] returns. *)
Definition buffSudoku (buff2 : list ascii) (puzzle : list Z)
    (timeo : spec_float) : option (list ascii) :=
  match print_rows (Z.to_nat GRIDSIZE) 0 puzzle buff2 0 with
  | None => None
  | Some (buf, cx) =>
      match snprintf buf cx (256 - cx) (fmt_f timeo ++ [SPACE]) with
      | None => None
      | Some (buf', _) => Some buf'
      end
  end.

(** The C string that starts a buffer: the bytes before the first NUL,
    whose number is what [strlen] returns. *)
Fixpoint c_string (buf : list ascii) : list ascii :=
  match buf with
  | [] => []
  | c :: rest => if Ascii.eqb c NUL then [] else c :: c_string rest
  end.

(** *** The output that the specification describes *)

(** The 81 integers in row-major order, each followed by a space, then
    the time followed by a space. *)
Definition serialized (puzzle : list Z) (timeo : spec_float) : list ascii :=
  concat (map (fun v => fmt_d v ++ [SPACE]) puzzle) ++ fmt_f timeo ++ [SPACE].

(** The fields of a text, each ended by a space. *)
Fixpoint fields (text : list ascii) (cur : list ascii) : list (list ascii) :=
  match text with
  | [] => []
  | c :: rest =>
      if Ascii.eqb c SPACE then rev cur :: fields rest []
      else fields rest (c :: cur)
  end.

(** Reading a decimal number. *)
Fixpoint read_digits (text : list ascii) (acc : Z) : option Z :=
  match text with
  | [] => Some acc
  | c :: rest =>
      let d := Z.of_nat (nat_of_ascii c) - 48 in
      if (0 <=? d) && (d <=? 9) then read_digits rest (10 * acc + d) else None
  end.

Definition read_int (text : list ascii) : option Z :=
  match text with
  | [] => None
  | c :: rest =>
      if Ascii.eqb c "-"%char
      then match rest with
           | [] => None
           | _ => option_map Z.opp (read_digits rest 0)
           end
      else read_digits text 0
  end.

(** Parsing the space-separated output back into a grid: the first 81
    fields, read as integers. *)
Definition parse_grid (text : list ascii) : option (list Z) :=
  mapM read_int (take 81 (fields text [])).

(** [2^300] seconds, as a [double]. *)
Definition huge_time : spec_float := S754_finite false (2 ^ 52) 248.

Definition blank_buffer : list ascii := replicate 256 "#"%char.

(** The cells that the loops of [buffSudoku] read, in the order of the
    reads. *)
Fixpoint row_cells (k : nat) (i j : Z) (puzzle : list Z) : list Z :=
  match k with
  | O => []
  | S k' => cell puzzle i j :: row_cells k' i (j + 1) puzzle
  end.

Fixpoint grid_cells (k : nat) (i : Z) (puzzle : list Z) : list Z :=
  match k with
  | O => []
  | S k' => row_cells (Z.to_nat GRIDSIZE) i 0 puzzle
            ++ grid_cells k' (i + 1) puzzle
  end.

(** The text of a list of cells: each number followed by a space. *)
Definition cells_text (cells : list Z) : list ascii :=
  concat (map (fun v => fmt_d v ++ [SPACE]) cells).

(** A cell value that is a digit. *)
Definition is_digit (v : Z) : Prop := 0 <= v <= 9.

(** The text of the time leaves room in the 256 bytes for the 162 bytes
    of a board of digits, the final space and the NUL. *)
Definition time_fits (timeo : spec_float) : Prop :=
  (length (fmt_f timeo) <= 92)%nat.

(** A run under the latch history [g], compared with the run [quiet] of
    the same call from the same worker [w] when no thread ever sets the
    latch: the quiet run keeps the lock balanced; while [g] reads 0 the two
    runs are the same; at the first probe where [g] reads 1 the run under
    [g] returns 1 at once, with one more hold on the read lock. *)
Definition follows (g : nat -> bool) (w : worker)
    (quiet under_g : outcome bool) : Prop :=
  forall r w', quiet = Ret r w' ->
    (probes w <= probes w')%nat /\
    rdlocks w' = rdlocks w /\
    ((forall k, (probes w <= k < probes w')%nat -> g k = false) ->
     under_g = Ret r w') /\
    (forall k, (probes w <= k < probes w')%nat -> g k = true ->
       (forall j, (probes w <= j < k)%nat -> g j = false) ->
       exists w'', under_g = Ret true w'' /\
                   probes w'' = S k /\ rdlocks w'' = S (rdlocks w)).

(** ** solveSudoku: the elapsed time *)

(** [struct timespec], with [time_t] and [long] of 64 bits. *)
Record timespec : Type := Timespec {
  tv_sec : Z;
  tv_nsec : Z
}.

Definition LONG_MAX : Z := 9223372036854775807.
Definition LONG_MIN : Z := - LONG_MAX - 1.

(** The difference of two [long]; past the range of [long] it is
    undefined: [None]. *)
Definition long_sub (a b : Z) : option Z :=
  let d := a - b in
  if (LONG_MIN <=? d) && (d <=? LONG_MAX) then Some d else None.

(** The conversion of a [long] to [double], to the nearest. *)
Definition double_of_long (z : Z) : spec_float :=
  binary_normalize 53 1024 z 0 false.

(** The value that [solveSudoku] passes to [buffSudoku]:
    [g_elapsed = (g_finish.tv_sec - g_start.tv_sec);]
    [g_elapsed += (double)(g_finish.tv_nsec - g_start.tv_nsec) / 1000000000;]
    in IEEE 754 double precision, rounding to nearest even. *)
Definition g_elapsed (g_start g_finish : timespec) : option spec_float :=
  match long_sub (tv_sec g_finish) (tv_sec g_start),
        long_sub (tv_nsec g_finish) (tv_nsec g_start) with
  | Some sec, Some nsec =>
      Some (SFadd 53 1024 (double_of_long sec)
              (SFdiv 53 1024 (double_of_long nsec)
                             (double_of_long 1000000000)))
  | _, _ => None
  end.

(** A [double] that is a zero or a finite number below [2^K] in
    magnitude. *)
Definition below (K : Z) (x : spec_float) : Prop :=
  match x with
  | S754_zero _ => True
  | S754_finite _ m e => Z.pos (digits2_pos m) + e <= K
  | _ => False
  end.

(** ** The race: solveSudoku and main as interleaved threads *)

(** Every access to [g_finished] is made under [lock] or under [mutex],
    so the runs of the process are the interleavings of the steps below:
    one step per lock operation, per read or write of [g_finished], and
    for the report.  A worker that has read 1 in [sudokuHelper] comes to
    [pthread_rwlock_wrlock] with its read lock still held, and stays
    there. *)

(** The threads of the process. *)
Inductive thread : Type :=
| MainThread
| WorkerThread (i : nat).

(** Where a worker is in [solveSudoku]; [more] is the number of probes of
    [g_finished] that its search still makes after the current one if all
    of them read 0. *)
Inductive place : Type :=
| AtRdlock (more : nat)   (* sudokuHelper, line 115: pthread_rwlock_rdlock *)
| AtTest (more : nat)     (* line 117: 1 == g_finished, read lock held *)
| AtUnlock (more : nat)   (* line 120: pthread_rwlock_unlock *)
| AtWrlock                (* solveSudoku, line 176: pthread_rwlock_wrlock *)
| AtCheck                 (* line 179: g_finished == 0, write lock held *)
| AtMutexLock             (* line 180: pthread_mutex_lock *)
| AtSet                   (* lines 181-182: completed = 1; g_finished = 1 *)
| AtMutexUnlock           (* line 183: pthread_mutex_unlock *)
| AtReport                (* lines 187-197: clock_gettime, buffSudoku, send *)
| AtWrUnlock              (* line 199: pthread_rwlock_unlock *)
| AtSignal                (* line 202: pthread_cond_signal *)
| Returned.               (* line 205 *)

(** Where [main] is after it has started the threads. *)
Inductive main_place : Type :=
| MainAtLock      (* line 308: pthread_mutex_lock *)
| MainAtTest      (* line 311: 0 == g_finished, mutex held *)
| MainWaiting     (* line 311: inside pthread_cond_wait, mutex released *)
| MainWoken       (* line 311: leaving pthread_cond_wait, taking the mutex *)
| MainAtUnlock    (* line 314: pthread_mutex_unlock, then return *)
| MainExited.     (* line 318: the process is over *)

(** The process: the globals [g_finished], [lock] (its readers and its
    writer) and [mutex] (its owner), the place of every thread, and two
    records: the workers that changed [g_finished] from 0 to 1 and the
    workers that ran the Result Reporter, newest first. *)
Record system : Type := System {
  g_finished : bool;
  readers : gset nat;
  writer : option nat;
  mutex : option thread;
  flips : list nat;
  reports : list nat;
  main_at : main_place;
  workers : list place
}.

Definition move (i : nat) (p : place) (s : system) : system :=
  System (g_finished s) (readers s) (writer s) (mutex s) (flips s)
         (reports s) (main_at s) (<[i := p]> (workers s)).

Definition main_moves (p : main_place) (s : system) : system :=
  System (g_finished s) (readers s) (writer s) (mutex s) (flips s)
         (reports s) p (workers s).

(** [pthread_rwlock_rdlock] by worker [i]: granted when no thread writes. *)
Definition rdlock (i : nat) (s : system) : option system :=
  match writer s with
  | None => Some (System (g_finished s) ({[i]} ∪ readers s) None (mutex s)
                         (flips s) (reports s) (main_at s) (workers s))
  | Some _ => None
  end.

(** [pthread_rwlock_wrlock] by worker [i]: granted when no thread holds
    the lock. *)
Definition wrlock (i : nat) (s : system) : option system :=
  match writer s with
  | None =>
      if decide (readers s = ∅)
      then Some (System (g_finished s) (readers s) (Some i) (mutex s)
                        (flips s) (reports s) (main_at s) (workers s))
      else None
  | Some _ => None
  end.

(** [pthread_rwlock_unlock] by worker [i]: releases its hold. *)
Definition rwunlock (i : nat) (s : system) : system :=
  if decide (writer s = Some i)
  then System (g_finished s) (readers s) None (mutex s)
              (flips s) (reports s) (main_at s) (workers s)
  else System (g_finished s) (readers s ∖ {[i]}) (writer s) (mutex s)
              (flips s) (reports s) (main_at s) (workers s).

(** [pthread_mutex_lock] and [pthread_mutex_unlock]. *)
Definition mutex_lock (t : thread) (s : system) : option system :=
  match mutex s with
  | None => Some (System (g_finished s) (readers s) (writer s) (Some t)
                         (flips s) (reports s) (main_at s) (workers s))
  | Some _ => None
  end.

Definition mutex_unlock (s : system) : system :=
  System (g_finished s) (readers s) (writer s) None
         (flips s) (reports s) (main_at s) (workers s).

(** [g_finished = 1] by worker [i]. *)
Definition set_finished (i : nat) (s : system) : system :=
  System true (readers s) (writer s) (mutex s)
         (if g_finished s then flips s else i :: flips s)
         (reports s) (main_at s) (workers s).

(** [buffSudoku] and [send] by worker [i]. *)
Definition report (i : nat) (s : system) : system :=
  System (g_finished s) (readers s) (writer s) (mutex s) (flips s)
         (i :: reports s) (main_at s) (workers s).

(** [pthread_cond_signal(&is_fin)]: wakes [main] if it waits. *)
Definition cond_signal (s : system) : system :=
  match main_at s with
  | MainWaiting => main_moves MainWoken s
  | _ => s
  end.

(** One step of worker [i]; [None] when it is blocked, has returned, or
    the process is over. *)
Definition solveSudoku_step (i : nat) (s : system) : option system :=
  match main_at s with
  | MainExited => None
  | _ =>
      match workers s !! i with
      | None => None
      | Some (AtRdlock more) => move i (AtTest more) <$> rdlock i s
      | Some (AtTest more) =>
          Some (move i (if g_finished s then AtWrlock else AtUnlock more) s)
      | Some (AtUnlock more) =>
          Some (move i (match more with
                        | O => AtWrlock
                        | S more' => AtRdlock more'
                        end) (rwunlock i s))
      | Some AtWrlock => move i AtCheck <$> wrlock i s
      | Some AtCheck =>
          Some (move i (if g_finished s then Returned else AtMutexLock) s)
      | Some AtMutexLock => move i AtSet <$> mutex_lock (WorkerThread i) s
      | Some AtSet => Some (move i AtMutexUnlock (set_finished i s))
      | Some AtMutexUnlock => Some (move i AtReport (mutex_unlock s))
      | Some AtReport => Some (move i AtWrUnlock (report i s))
      | Some AtWrUnlock => Some (move i AtSignal (rwunlock i s))
      | Some AtSignal => Some (move i Returned (cond_signal s))
      | Some Returned => None
      end
  end.

(** One step of [main]; [None] when it is blocked or has returned. *)
Definition main_step (s : system) : option system :=
  match main_at s with
  | MainAtLock | MainWoken => main_moves MainAtTest <$> mutex_lock MainThread s
  | MainAtTest =>
      if g_finished s then Some (main_moves MainAtUnlock s)
      else Some (main_moves MainWaiting (mutex_unlock s))
  | MainWaiting => None
  | MainAtUnlock => Some (main_moves MainExited (mutex_unlock s))
  | MainExited => None
  end.

(** A wake-up of [pthread_cond_wait] without a signal, which POSIX allows. *)
Definition spurious_wakeup (s : system) : option system :=
  match main_at s with
  | MainWaiting => Some (main_moves MainWoken s)
  | _ => None
  end.

(** The interleavings. *)
Inductive step : system -> system -> Prop :=
| step_worker i s s' : solveSudoku_step i s = Some s' -> step s s'
| step_main s s' : main_step s = Some s' -> step s s'
| step_spurious s s' : spurious_wakeup s = Some s' -> step s s'.

(** The process when [main] has started the threads: worker [i] is about
    to make the first of [searches !!! i + 1] probes. *)
Definition started (searches : list nat) : system :=
  System false ∅ None None [] [] MainAtLock (map AtRdlock searches).

(** A schedule: which thread takes each step. *)
Fixpoint run (schedule : list thread) (s : system) : option system :=
  match schedule with
  | [] => Some s
  | MainThread :: rest =>
      match main_step s with Some s' => run rest s' | None => None end
  | WorkerThread i :: rest =>
      match solveSudoku_step i s with Some s' => run rest s' | None => None end
  end.

(** What the place of worker [i] says of the globals. *)
Definition place_ok (s : system) (i : nat) (p : place) : Prop :=
  match p with
  | AtRdlock _ => i ∉ readers s
  | AtTest _ | AtUnlock _ => i ∈ readers s
  | AtWrlock => i ∈ readers s -> g_finished s = true
  | AtCheck => writer s = Some i
  | AtMutexLock => writer s = Some i /\ g_finished s = false
  | AtSet =>
      writer s = Some i /\ g_finished s = false /\
      mutex s = Some (WorkerThread i)
  | AtMutexUnlock =>
      writer s = Some i /\ g_finished s = true /\
      mutex s = Some (WorkerThread i) /\ flips s = [i] /\ reports s = []
  | AtReport =>
      writer s = Some i /\ g_finished s = true /\
      flips s = [i] /\ reports s = []
  | AtWrUnlock =>
      writer s = Some i /\ g_finished s = true /\
      flips s = [i] /\ reports s = [i]
  | AtSignal | Returned => g_finished s = true
  end.

(** The places where a worker holds the write lock, the read lock, the
    mutex. *)
Definition holds_write (p : place) : Prop :=
  match p with
  | AtCheck | AtMutexLock | AtSet | AtMutexUnlock | AtReport | AtWrUnlock
  | Returned => True
  | _ => False
  end.

Definition holds_read (p : place) : Prop :=
  match p with
  | AtTest _ | AtUnlock _ | AtWrlock => True
  | _ => False
  end.

Definition holds_mutex (p : place) : Prop :=
  match p with
  | AtSet | AtMutexUnlock => True
  | _ => False
  end.

Definition main_holds_mutex (p : main_place) : Prop :=
  match p with
  | MainAtTest | MainAtUnlock => True
  | _ => False
  end.

(** What holds of the process in every state it can reach. *)
Record invariant (s : system) : Prop := Invariant {
  inv_places : forall i p, workers s !! i = Some p -> place_ok s i p;
  inv_unset : g_finished s = false -> flips s = [] /\ reports s = [];
  inv_set : g_finished s = true ->
            exists w, flips s = [w] /\ (reports s = [] \/ reports s = [w]);
  inv_writer : forall i, writer s = Some i ->
               exists p, workers s !! i = Some p /\ holds_write p;
  inv_readers : forall i, i ∈ readers s ->
                exists p, workers s !! i = Some p /\ holds_read p;
  inv_mutex : forall i, mutex s = Some (WorkerThread i) ->
              exists p, workers s !! i = Some p /\ holds_mutex p;
  inv_mutex_main : mutex s = Some MainThread <-> main_holds_mutex (main_at s);
  inv_main : main_at s = MainAtUnlock \/ main_at s = MainExited ->
             g_finished s = true
}.










(** ** Definitions for the further properties *)

(** [solved_grid] with the cells (0, 2) and (4, 4) emptied. *)
Definition two_blanks : list Z := store (store solved_grid 0 2 0) 4 4 0.

(** The read lock along a search under any latch history: released at
    every return, except the return on a probe that read 1. *)
Definition lock_account (g : nat -> bool) (w : worker) (r : bool)
    (w' : worker) : Prop :=
  (probes w <= probes w')%nat /\
  ((rdlocks w' = rdlocks w /\
    forall k, (probes w <= k < probes w')%nat -> g k = false) \/
   (r = true /\ rdlocks w' = S (rdlocks w) /\
    (probes w < probes w')%nat /\ g (Nat.pred (probes w')) = true)).

(** The latch that reads 1 from the probe [n] on. *)
Definition finished_from (n : nat) : nat -> bool := fun k => (n <=? k)%nat.

(** The buffer after calls of [snprintf] that produced the text [T] in
    all: 256 bytes that start with the first 255 characters of [T] and a
    NUL. *)
Definition written (T buf : list ascii) : Prop :=
  length buf = 256%nat /\
  (T = [] \/ exists rest, buf = take 255 T ++ NUL :: rest).

(** A board whose cells all print with three digits. *)
Definition wide_board : list Z := replicate 81 100.

(** Two workers whose searches make one probe each.  In
    [loser_at_check], worker 0 has set the latch, reported and returned,
    and worker 1 has then taken the write lock; in
    [early_returner_at_test], worker 0 has released the write lock and
    worker 1 is in its probe, about to read the latch. *)
Definition loser_schedule : list thread :=
  replicate 3 (WorkerThread 0) ++ replicate 3 (WorkerThread 1)
  ++ replicate 8 (WorkerThread 0) ++ [WorkerThread 1].

Definition loser_at_check : system :=
  System true ∅ (Some 1%nat) None [0%nat] [0%nat] MainAtLock
         [Returned; AtCheck].

Definition early_returner_schedule : list thread :=
  replicate 10 (WorkerThread 0) ++ [WorkerThread 1].

Definition early_returner_at_test : system :=
  System true {[1%nat]} None None [0%nat] [0%nat] MainAtLock
         [AtSignal; AtTest 0].

(** The process when [main] has returned before the worker that set the
    latch has made its report. *)
Definition exited_before_report (ws : list place) : system :=
  System true ∅ (Some 0%nat) None [0%nat] [] MainExited (AtReport :: ws).

(** The places of the worker that has set the latch and has not yet
    signalled [is_fin]; at the signal its report has been made. *)
Definition pending (s : system) (w : nat) (p : place) : Prop :=
  match p with
  | AtMutexUnlock | AtReport | AtWrUnlock => True
  | AtSignal => reports s = [w]
  | _ => False
  end.

(** When [main] waits and the latch is set, the signal is still to
    come. *)
Definition wakeup_pending (s : system) : Prop :=
  main_at s = MainWaiting -> g_finished s = true ->
  exists w p, flips s = [w] /\ workers s !! w = Some p /\ pending s w p.

(** [main] waits and worker 0 has just set the latch. *)
Definition waiting_schedule : list thread :=
  [MainThread; MainThread] ++ replicate 7 (WorkerThread 0).

Definition main_waits_latch_set : system :=
  System true ∅ (Some 0%nat) (Some (WorkerThread 0)) [0%nat] [] MainWaiting
         [AtMutexUnlock; AtRdlock 0].

(** The end of the process after worker 0 has reported and woken
    [main]. *)
Definition exited_after_report : system :=
  System true ∅ None None [0%nat] [0%nat] MainExited [Returned; AtRdlock 0].

(** ** main: the arguments *)

Definition INT_MIN : Z := - INT_MAX - 1.

(** [isspace] in the C locale. *)
Definition isspace (c : ascii) : bool :=
  let n := nat_of_ascii c in
  (n =? 32)%nat || ((9 <=? n)%nat && (n <=? 13)%nat).

Fixpoint skip_space (s : list ascii) : list ascii :=
  match s with
  | [] => []
  | c :: rest => if isspace c then skip_space rest else s
  end.

(** The value of the longest prefix of decimal digits, after [acc]. *)
Fixpoint strtol_digits (s : list ascii) (acc : Z) : Z :=
  match s with
  | [] => acc
  | c :: rest =>
      let d := Z.of_nat (nat_of_ascii c) - 48 in
      if (0 <=? d) && (d <=? 9) then strtol_digits rest (10 * acc + d)
      else acc
  end.

(** [atoi(s)]: white space, an optional sign, decimal digits; what
    follows is ignored, and a text without digits gives 0.  A value that
    an [int] cannot hold is undefined: [None]. *)
Definition atoi (s : list ascii) : option Z :=
  let v :=
    match skip_space s with
    | [] => 0
    | c :: rest =>
        if Ascii.eqb c "-"%char then - strtol_digits rest 0
        else if Ascii.eqb c "+"%char then strtol_digits rest 0
        else strtol_digits (c :: rest) 0
    end in
  if (INT_MIN <=? v) && (v <=? INT_MAX) then Some v else None.

(** [atoi(argv[c3])], where [argv] lists [argv[0]] to [argv[argc-1]]:
    [argv[argc]] is a null pointer and the array ends there, so the call
    is undefined from [argc] on. *)
Definition argument (argv : list (list ascii)) (c3 : nat) : option Z :=
  argv !! c3 ≫= atoi.

(** The loops of [main] that fill [puzzle] from [argv]: the inner loop on
    row [c] from column [c2] with [k] iterations left, and the outer loop
    from row [c]; [c3] is the index of the next argument. *)
Fixpoint read_row (k : nat) (c c2 : Z) (argv : list (list ascii)) (c3 : nat)
    (puzzle : list Z) : option (list Z * nat) :=
  match k with
  | O => Some (puzzle, c3)
  | S k' =>
      match argument argv c3 with
      | None => None
      | Some v => read_row k' c (c2 + 1) argv (S c3) (store puzzle c c2 v)
      end
  end.

Fixpoint read_rows (k : nat) (c : Z) (argv : list (list ascii)) (c3 : nat)
    (puzzle : list Z) : option (list Z * nat) :=
  match k with
  | O => Some (puzzle, c3)
  | S k' =>
      match read_row (Z.to_nat GRIDSIZE) c 0 argv c3 puzzle with
      | None => None
      | Some (puzzle', c3') => read_rows k' (c + 1) argv c3' puzzle'
      end
  end.

(** The puzzle and the number of threads that [main] reads. *)
Definition main_arguments (argv : list (list ascii)) : option (list Z * Z) :=
  match read_rows (Z.to_nat GRIDSIZE) 0 argv 1
                  (replicate (Z.to_nat BOARDSIZE) 0) with
  | None => None
  | Some (puzzle, c3) =>
      match argument argv c3 with
      | None => None
      | Some thread_num => Some (puzzle, thread_num)
      end
  end.

(** An [int]. *)
Definition is_int (v : Z) : Prop := INT_MIN <= v <= INT_MAX.

(** ** Facts about isValid *)

Lemma in_gridb_spec row col : in_gridb row col = true <-> in_grid row col.
Proof.
  unfold in_gridb, in_grid, GRIDSIZE.
  rewrite !andb_true_iff, !Z.leb_le, !Z.ltb_lt. lia.
Qed.

Lemma isValid_from_false k i number puzzle row column :
  isValid_from k i number puzzle row column = false <->
  exists t, i <= t < i + Z.of_nat k /\ hit number puzzle row column t.
Proof.
  revert i. induction k as [|k IH]; intros i.
  - simpl. split; [discriminate|]. intros (t & Ht & _). lia.
  - cbn [isValid_from]. unfold hit in *.
    destruct (Z.eqb_spec (cell puzzle i column) number) as [E1|E1].
    { split; [|reflexivity]. intros _. exists i. split; [lia|tauto]. }
    destruct (Z.eqb_spec (cell puzzle row i) number) as [E2|E2].
    { split; [|reflexivity]. intros _. exists i. split; [lia|tauto]. }
    destruct (Z.eqb_spec number
                (cell puzzle (row ÷ LENGTH * LENGTH + Z.rem i LENGTH)
                             (column ÷ LENGTH * LENGTH + i ÷ LENGTH))) as [E3|E3].
    { split; [|reflexivity]. intros _. exists i. split; [lia|]. right. right.
      symmetry. exact E3. }
    rewrite IH. split.
    + intros (t & Ht & H). exists t. split; [lia|exact H].
    + intros (t & Ht & H). exists t. split; [|exact H].
      destruct (Z.eq_dec t i) as [->|Hne]; [|lia].
      exfalso. destruct H as [H|[H|H]]; congruence.
Qed.

(** The nine indices [0..8], case by case. *)
Lemma digit_cases (x : Z) :
  0 <= x < 9 ->
  x = 0 \/ x = 1 \/ x = 2 \/ x = 3 \/ x = 4 \/ x = 5 \/ x = 6 \/ x = 7 \/ x = 8.
Proof. lia. Qed.

Ltac each_digit H :=
  apply digit_cases in H;
  destruct H as [->|[->|[->|[->|[->|[->|[->|[->| ->]]]]]]]].

(** The block walk of [isValid]: index [t] of the loop designates the cell
    [(row/3*3 + t%3, column/3*3 + t/3)], and the nine of them are the
    cells with the floor quotients of [(row, column)]. *)
Lemma block_walk_in row column t :
  0 <= row < 9 -> 0 <= column < 9 -> 0 <= t < 9 ->
  let i := row ÷ LENGTH * LENGTH + Z.rem t LENGTH in
  let j := column ÷ LENGTH * LENGTH + t ÷ LENGTH in
  (0 <= i < 9 /\ 0 <= j < 9) /\
  i / LENGTH = row / LENGTH /\ j / LENGTH = column / LENGTH.
Proof.
  intros Hr Hc Ht. each_digit Hr; each_digit Hc; each_digit Ht;
    vm_compute; intuition congruence.
Qed.

Lemma block_walk_onto row column i j :
  0 <= row < 9 -> 0 <= column < 9 -> 0 <= i < 9 -> 0 <= j < 9 ->
  i / LENGTH = row / LENGTH -> j / LENGTH = column / LENGTH ->
  exists t, 0 <= t < 9 /\
            i = row ÷ LENGTH * LENGTH + Z.rem t LENGTH /\
            j = column ÷ LENGTH * LENGTH + t ÷ LENGTH.
Proof.
  intros Hr Hc Hi Hj Hqi Hqj.
  exists (i - row ÷ LENGTH * LENGTH + 3 * (j - column ÷ LENGTH * LENGTH)).
  each_digit Hr; each_digit Hc; each_digit Hi; each_digit Hj;
    vm_compute in Hqi, Hqj; try discriminate; vm_compute; intuition congruence.
Qed.

Lemma isValid_false_iff number puzzle row column :
  in_grid row column ->
  isValid number puzzle row column = false <->
  occurs_in_row number puzzle row \/
  occurs_in_column number puzzle column \/
  occurs_in_block number puzzle row column.
Proof.
  intros [Hr Hc]. unfold isValid. rewrite isValid_from_false.
  unfold GRIDSIZE in *. change (Z.of_nat (Z.to_nat 9)) with 9.
  unfold occurs_in_row, occurs_in_column, occurs_in_block, hit, GRIDSIZE.
  split.
  - intros (t & Ht & [H|[H|H]]).
    + right. left. exists t. split; [lia|exact H].
    + left. exists t. split; [lia|exact H].
    + right. right.
      destruct (block_walk_in row column t Hr Hc ltac:(lia)) as (Hin & Hq).
      eexists _, _. split; [exact Hin|]. split; [exact Hq|exact H].
  - intros [(j & Hj & H)|[(i & Hi & H)|(i & j & [Hi Hj] & [Hqi Hqj] & H)]].
    + exists j. split; [lia|]. right. left. exact H.
    + exists i. split; [lia|]. left. exact H.
    + destruct (block_walk_onto row column i j Hr Hc Hi Hj Hqi Hqj)
        as (t & Ht & Ei & Ej).
      exists t. split; [lia|]. right. right. rewrite <- Ei, <- Ej. exact H.
Qed.

(** ** Facts about the board *)

Lemma offset_lt row col : in_grid row col -> (offset row col < 81)%nat.
Proof. unfold in_grid, offset, GRIDSIZE. lia. Qed.

Lemma offset_inj row col row' col' :
  in_grid row col -> in_grid row' col' ->
  offset row col = offset row' col' -> row = row' /\ col = col'.
Proof. unfold in_grid, offset, GRIDSIZE. intros. split; lia. Qed.

Lemma cell_store_same puzzle row col v :
  (offset row col < length puzzle)%nat ->
  cell (store puzzle row col v) row col = v.
Proof.
  intros H. unfold cell, store. rewrite list_lookup_insert_eq by exact H.
  reflexivity.
Qed.

Lemma cell_store_other puzzle row col v row' col' :
  offset row col <> offset row' col' ->
  cell (store puzzle row col v) row' col' = cell puzzle row' col'.
Proof.
  intros H. unfold cell, store. rewrite list_lookup_insert_ne by exact H.
  reflexivity.
Qed.

(** Storing over a cell what one stored before leaves the later value. *)
Lemma store_store puzzle row col u v :
  store (store puzzle row col u) row col v = store puzzle row col v.
Proof. unfold store. apply list_insert_insert_eq. Qed.

(** Storing 0 into a cell that reads 0 changes nothing. *)
Lemma store_zero_id puzzle row col :
  cell puzzle row col = 0 -> store puzzle row col 0 = puzzle.
Proof.
  unfold cell, store. intros H.
  destruct (puzzle !! offset row col) as [x|] eqn:E; simpl in H.
  - subst x. apply list_insert_id. exact E.
  - apply list_insert_ge. apply lookup_ge_None. exact E.
Qed.

Lemma store_length puzzle row col v :
  length (store puzzle row col v) = length puzzle.
Proof. unfold store. apply length_insert. Qed.

Lemma advance_in_grid row col :
  in_grid row col -> in_grid (advance row col).1 (advance row col).2.
Proof.
  unfold in_grid, advance, GRIDSIZE. intros [Hr Hc].
  destruct (Z.eqb_spec 9 (col + 1)) as [Ec|Ec].
  - destruct (Z.eqb_spec 9 (row + 1)); simpl; lia.
  - simpl. lia.
Qed.

(** ** The equations of the search *)

Lemma sudokuHelper_eq g fuel w row col startV nTimes :
  sudokuHelper g (S fuel) w row col startV nTimes =
  let w1 := probed (rwlock_rdlock w) in
  if g (probes w) then Ret true w1
  else
    let w2 := rwlock_unlock w1 in
    if BOARDSIZE =? nTimes then Ret true w2
    else
      let rc := advance row col in
      if negb (in_gridb rc.1 rc.2) then Undef
      else
        let v := cell (board w) rc.1 rc.2 in
        let w3 := record (Examined rc.1 rc.2 v) w2 in
        if negb (0 =? v) then recurse g fuel rc.1 rc.2 nTimes w3 startV
        else try_candidates (recurse g fuel rc.1 rc.2 nTimes) rc.1 rc.2
                            (Z.to_nat GRIDSIZE) startV w3.
Proof. cbn [sudokuHelper]. destruct (advance row col); reflexivity. Qed.

Lemma next_guess_range startV :
  0 <= startV <= 9 -> 1 <= next_guess startV <= 9.
Proof. unfold next_guess. destruct (Z.eqb_spec (startV + 1) 10); lia. Qed.

(** ** Failure restores the board *)

(** The loop, when every recursive call that fails restores its board:
    a failing loop leaves the board it started from, with 0 in its cell. *)
Lemma try_candidates_restores call row col k startV w w' :
  (forall w1 v w2, call w1 v = Ret false w2 ->
                   board w2 = board w1 /\ rdlocks w2 = rdlocks w1) ->
  try_candidates call row col k startV w = Ret false w' ->
  board w' = store (board w) row col 0 /\ rdlocks w' = rdlocks w.
Proof.
  intros Hcall. revert startV w. induction k as [|k IH]; intros startV w H.
  - simpl in H. injection H as <-. split; reflexivity.
  - cbn [try_candidates] in H.
    destruct (startV =? INT_MAX); [discriminate|].
    destruct (isValid _ _ _ _).
    + destruct (call _ _) as [[|] w2| |] eqn:Ec; try discriminate.
      apply Hcall in Ec. destruct Ec as [Eb El].
      apply IH in H. destruct H as [Hb Hl]. split.
      * rewrite Hb, Eb. simpl. apply store_store.
      * rewrite Hl, El. reflexivity.
    + apply IH in H. exact H.
Qed.

Lemma sudokuHelper_restores g fuel w row col startV nTimes w' :
  sudokuHelper g fuel w row col startV nTimes = Ret false w' ->
  board w' = board w /\ rdlocks w' = rdlocks w.
Proof.
  revert w row col startV nTimes w'.
  induction fuel as [|fuel IH]; intros w row col startV nTimes w' H;
    [discriminate|].
  assert (Hrec : forall r c w1 v w2,
             recurse g fuel r c nTimes w1 v = Ret false w2 ->
             board w2 = board w1 /\ rdlocks w2 = rdlocks w1).
  { intros r c w1 v w2. unfold recurse.
    destruct (nTimes =? INT_MAX); [discriminate|]. apply IH. }
  rewrite sudokuHelper_eq in H. cbv zeta in H.
  destruct (g (probes w)); [discriminate|].
  destruct (BOARDSIZE =? nTimes); [discriminate|].
  destruct (negb (in_gridb _ _)); [discriminate|].
  destruct (Z.eqb_spec 0 (cell (board w) (advance row col).1 (advance row col).2))
    as [E0|E0]; cbn [negb] in H.
  - apply try_candidates_restores in H; [|apply Hrec].
    cbn [board rdlocks record rwlock_unlock probed rwlock_rdlock] in H.
    destruct H as [Hb Hl]. split; [|exact Hl].
    rewrite Hb. apply store_zero_id. symmetry. exact E0.
  - apply Hrec in H. exact H.
Qed.

(** ** The givens are kept *)

Lemma keeps_givens_refl b : keeps_givens b b.
Proof. intros row col _. reflexivity. Qed.

Lemma writes_ok_app new old :
  writes_ok new -> writes_ok old -> writes_ok (new ++ old).
Proof.
  intros Hn Ho. induction new as [|e new IH]; [exact Ho|].
  destruct e; simpl in *; try (apply IH; exact Hn).
  destruct Hn as [Hin Hn]. split; [|apply IH; exact Hn].
  apply in_or_app. left. exact Hin.
Qed.

Lemma writes_ok_spec t : writes_ok t -> written_after_zero t.
Proof.
  intros H later. revert t H.
  induction later as [|e later IH]; intros t H earlier row col v E; subst t.
  - destruct H as [H _]. exact H.
  - eapply IH; [|reflexivity].
    destruct e; [exact H|exact H|destruct H as [_ H]; exact H].
Qed.

Lemma try_candidates_keeps call row col k startV w r w' b0 new0 base :
  (forall w1 v r1 w2, call w1 v = Ret r1 w2 ->
     keeps_givens (board w1) (board w2) /\
     exists new, trace w2 = new ++ trace w1 /\ writes_ok new) ->
  cell b0 row col = 0 ->
  keeps_givens b0 (board w) ->
  trace w = new0 ++ base -> In (Examined row col 0) new0 -> writes_ok new0 ->
  try_candidates call row col k startV w = Ret r w' ->
  keeps_givens b0 (board w') /\
  exists new, trace w' = new ++ base /\ writes_ok new.
Proof.
  intros Hcall H0. revert startV w new0.
  induction k as [|k IH]; intros startV w new0 Hk Ht Hin Hok H.
  - simpl in H. injection H as <- <-. split.
    + intros r0 c0 Hrc. simpl. rewrite <- (Hk r0 c0 Hrc).
      apply cell_store_other. intros E. apply Hrc.
      unfold cell in *. rewrite <- E. exact H0.
    + exists (Wrote row col 0 :: new0). simpl. rewrite Ht.
      split; [reflexivity|]. split; assumption.
  - cbn [try_candidates] in H.
    destruct (startV =? INT_MAX); [discriminate|].
    set (cand := next_guess startV) in *.
    destruct (isValid _ _ _ _).
    + destruct (call _ _) as [r1 w2| |] eqn:Ec; try discriminate.
      apply Hcall in Ec. destruct Ec as [Hg (new & En & Hnew)].
      cbn [board trace write record] in Hg, En.
      assert (Hk2 : keeps_givens b0 (board w2)).
      { intros r0 c0 Hrc. rewrite <- (Hk r0 c0 Hrc).
        assert (Ho : offset row col <> offset r0 c0).
        { intros E. apply Hrc. unfold cell in *. rewrite <- E. exact H0. }
        rewrite <- (cell_store_other (board w) row col cand r0 c0 Ho).
        apply Hg. rewrite (cell_store_other _ _ _ _ _ _ Ho), (Hk r0 c0 Hrc).
        exact Hrc. }
      assert (Ht2 : trace w2 =
                (new ++ Wrote row col cand
                     :: Tested row col cand (cell (board w) row col) :: new0)
                ++ base).
      { rewrite En, Ht, <- app_assoc. reflexivity. }
      assert (Hin2 : In (Examined row col 0)
                (new ++ Wrote row col cand
                     :: Tested row col cand (cell (board w) row col) :: new0)).
      { apply in_or_app. right. right. right. exact Hin. }
      assert (Hok2 : writes_ok
                (new ++ Wrote row col cand
                     :: Tested row col cand (cell (board w) row col) :: new0)).
      { apply writes_ok_app; [exact Hnew|]. simpl. split; [|exact Hok].
        right. exact Hin. }
      destruct r1.
      * injection H as <- <-. split; [exact Hk2|]. eexists. split; eassumption.
      * eapply IH; eassumption.
    + apply (IH cand (record (Tested row col cand (cell (board w) row col)) w)
                (Tested row col cand (cell (board w) row col) :: new0));
        [exact Hk| |right; exact Hin|exact Hok|exact H].
      simpl. rewrite Ht. reflexivity.
Qed.

Lemma sudokuHelper_keeps g fuel w row col startV nTimes r w' :
  sudokuHelper g fuel w row col startV nTimes = Ret r w' ->
  keeps_givens (board w) (board w') /\
  exists new, trace w' = new ++ trace w /\ writes_ok new.
Proof.
  revert w row col startV nTimes r w'.
  induction fuel as [|fuel IH]; intros w row col startV nTimes r w' H;
    [discriminate|].
  assert (Hrec : forall rr cc w1 v r1 w2,
             recurse g fuel rr cc nTimes w1 v = Ret r1 w2 ->
             keeps_givens (board w1) (board w2) /\
             exists new, trace w2 = new ++ trace w1 /\ writes_ok new).
  { intros rr cc w1 v r1 w2. unfold recurse.
    destruct (nTimes =? INT_MAX); [discriminate|]. apply IH. }
  rewrite sudokuHelper_eq in H. cbv zeta in H.
  destruct (g (probes w)).
  { injection H as <- <-. split; [apply keeps_givens_refl|].
    exists []. split; [reflexivity|exact I]. }
  destruct (BOARDSIZE =? nTimes).
  { injection H as <- <-. split; [apply keeps_givens_refl|].
    exists []. split; [reflexivity|exact I]. }
  destruct (negb (in_gridb _ _)); [discriminate|].
  set (rr := (advance row col).1) in *. set (cc := (advance row col).2) in *.
  destruct (Z.eqb_spec 0 (cell (board w) rr cc)) as [E0|E0]; cbn [negb] in H.
  - eapply (try_candidates_keeps _ _ _ _ _ _ _ _ (board w)
              [Examined rr cc (cell (board w) rr cc)] (trace w)) in H.
    + exact H.
    + apply Hrec.
    + symmetry. exact E0.
    + apply keeps_givens_refl.
    + reflexivity.
    + rewrite <- E0. left. reflexivity.
    + exact I.
  - apply Hrec in H. destruct H as [Hk (new & En & Hnew)]. split; [exact Hk|].
    exists (new ++ [Examined rr cc (cell (board w) rr cc)]). split.
    + rewrite En. simpl. rewrite <- app_assoc. reflexivity.
    + apply writes_ok_app; [exact Hnew|exact I].
Qed.

(** ** A filled board, termination, and the early return *)

Lemma sudokuHelper_all_filled fuel w row col startV nTimes :
  all_filled (board w) -> in_grid row col ->
  0 <= nTimes <= BOARDSIZE -> BOARDSIZE - nTimes < Z.of_nat fuel ->
  exists w', sudokuHelper never_finished fuel w row col startV nTimes
             = Ret true w' /\
             board w' = board w /\ rdlocks w' = rdlocks w /\
             forall r c v, In (Wrote r c v) (trace w') ->
                           In (Wrote r c v) (trace w).
Proof.
  unfold BOARDSIZE. revert w row col nTimes.
  induction fuel as [|fuel IH]; intros w row col nTimes Hf Hg Hn Hfuel; [lia|].
  rewrite sudokuHelper_eq. cbv zeta. unfold never_finished at 1.
  destruct (Z.eqb_spec BOARDSIZE nTimes) as [E|E].
  { eexists. split; [reflexivity|]. split; [reflexivity|].
    split; [reflexivity|]. intros r c v H. exact H. }
  unfold BOARDSIZE in E.
  pose proof (advance_in_grid row col Hg) as Hg'.
  rewrite (proj2 (in_gridb_spec _ _) Hg'). cbn [negb].
  destruct (Z.eqb_spec 0 (cell (board w) (advance row col).1 (advance row col).2))
    as [E0|E0].
  { exfalso. apply (Hf _ _ Hg'). symmetry. exact E0. }
  cbn [negb]. unfold recurse.
  destruct (Z.eqb_spec nTimes INT_MAX) as [Em|Em]; [unfold INT_MAX in Em; lia|].
  destruct (IH (record (Examined (advance row col).1 (advance row col).2
                          (cell (board w) (advance row col).1 (advance row col).2))
                  (rwlock_unlock (probed (rwlock_rdlock w))))
              (advance row col).1 (advance row col).2 (nTimes + 1))
    as (w' & Hrun & Hb & Hl & Hw); [exact Hf|exact Hg'|lia|lia|].
  exists w'. split; [exact Hrun|]. split; [exact Hb|]. split; [exact Hl|].
  intros r c v H. destruct (Hw r c v H) as [H'|H']; [discriminate|exact H'].
Qed.

Lemma try_candidates_returns call row col k startV w :
  (forall w1 v, 0 <= v <= 9 -> exists r w2, call w1 v = Ret r w2) ->
  0 <= startV <= 9 ->
  exists r w', try_candidates call row col k startV w = Ret r w'.
Proof.
  intros Hcall. revert startV w. induction k as [|k IH]; intros startV w Hs.
  - simpl. eexists _, _. reflexivity.
  - cbn [try_candidates].
    destruct (Z.eqb_spec startV INT_MAX) as [E|E]; [unfold INT_MAX in E; lia|].
    pose proof (next_guess_range startV Hs) as Hc.
    destruct (isValid _ _ _ _).
    + destruct (Hcall (write (record (Tested row col (next_guess startV)
                                        (cell (board w) row col)) w)
                         row col (next_guess startV)) (next_guess startV))
        as (r & w2 & Ec); [lia|].
      rewrite Ec. destruct r.
      * eexists _, _. reflexivity.
      * apply IH. lia.
    + apply IH. lia.
Qed.

Lemma sudokuHelper_returns g fuel w row col startV nTimes :
  in_grid row col -> 0 <= startV <= 9 ->
  0 <= nTimes <= BOARDSIZE -> BOARDSIZE - nTimes < Z.of_nat fuel ->
  exists r w', sudokuHelper g fuel w row col startV nTimes = Ret r w'.
Proof.
  unfold BOARDSIZE. revert w row col startV nTimes.
  induction fuel as [|fuel IH]; intros w row col startV nTimes Hg Hs Hn Hfuel;
    [lia|].
  rewrite sudokuHelper_eq. cbv zeta.
  destruct (g (probes w)); [eexists _, _; reflexivity|].
  destruct (Z.eqb_spec BOARDSIZE nTimes) as [E|E]; [eexists _, _; reflexivity|].
  unfold BOARDSIZE in E.
  pose proof (advance_in_grid row col Hg) as Hg'.
  rewrite (proj2 (in_gridb_spec _ _) Hg'). cbn [negb].
  assert (Hrec : forall w1 v, 0 <= v <= 9 ->
            exists r w2, recurse g fuel (advance row col).1 (advance row col).2
                           nTimes w1 v = Ret r w2).
  { intros w1 v Hv. unfold recurse.
    destruct (Z.eqb_spec nTimes INT_MAX) as [Em|Em]; [unfold INT_MAX in Em; lia|].
    apply IH; [exact Hg'|exact Hv|lia|lia]. }
  destruct (negb _).
  - apply Hrec. exact Hs.
  - apply try_candidates_returns; [exact Hrec|exact Hs].
Qed.

(** ** The cell under a legality test *)

Lemma rotate_S d x : rotate (S d) x = next_guess (rotate d x).
Proof. reflexivity. Qed.

Lemma next_guess_cases x :
  (next_guess x = x + 1 /\ x <> 9) \/ (next_guess x = 1 /\ x = 9).
Proof. unfold next_guess. destruct (Z.eqb_spec (x + 1) 10); lia. Qed.

(** Names the innermost rotation step of the goal and records its two
    possible values. *)
Ltac name_next_guess :=
  match goal with
  | |- context [next_guess ?y] =>
      lazymatch y with
      | context [next_guess _] => fail
      | _ => let z := fresh "y" in
             pose proof (next_guess_cases y);
             set (z := next_guess y) in *; clearbody z
      end
  end.

(** Within eight steps the rotation does not come back to where it began. *)
Lemma rotate_neq d x : (1 <= d <= 8)%nat -> rotate d x <> x.
Proof.
  intros Hd.
  assert (Hc : d = 1%nat \/ d = 2%nat \/ d = 3%nat \/ d = 4%nat \/
               d = 5%nat \/ d = 6%nat \/ d = 7%nat \/ d = 8%nat) by lia.
  destruct Hc as [->|[->|[->|[->|[->|[->|[->| ->]]]]]]];
    cbn [rotate]; repeat name_next_guess; lia.
Qed.

Lemma cell_store_same_or_zero puzzle row col v :
  cell (store puzzle row col v) row col = v \/
  cell (store puzzle row col v) row col = 0.
Proof.
  destruct (decide (offset row col < length puzzle)%nat) as [Hlt|Hge].
  - left. apply cell_store_same. exact Hlt.
  - right. unfold cell, store. rewrite list_insert_ge by lia.
    rewrite (proj2 (lookup_ge_None puzzle (offset row col))) by lia.
    reflexivity.
Qed.

(** ** A search that succeeds completes the board *)

Lemma peer_sym row col row' col' : peer row col row' col' -> peer row' col' row col.
Proof. unfold peer. intros [H|[H|[H1 H2]]]; auto. Qed.

Lemma isValid_true_peer number puzzle row col row' col' :
  in_grid row col -> in_grid row' col' ->
  isValid number puzzle row col = true ->
  peer row col row' col' -> cell puzzle row' col' <> number.
Proof.
  intros Hg Hg' Hv Hp E.
  assert (Hf : isValid number puzzle row col = false);
    [|rewrite Hf in Hv; discriminate].
  apply isValid_false_iff; [exact Hg|].
  destruct Hg' as [Hr' Hc'].
  destruct Hp as [->|[->|[H1 H2]]].
  - left. exists col'. split; [exact Hc'|exact E].
  - right. left. exists row'. split; [exact Hr'|exact E].
  - right. right. exists row', col'. split; [split; assumption|].
    split; [split; assumption|exact E].
Qed.

Lemma in_grid_offset_neq row col row' col' :
  in_grid row col -> in_grid row' col' ->
  (row', col') <> (row, col) -> offset row col <> offset row' col'.
Proof.
  intros Hg Hg' Hne E. apply Hne.
  destruct (offset_inj _ _ _ _ Hg Hg' E) as [-> ->]. reflexivity.
Qed.

Lemma try_candidates_sound call row col m k startV w w' b0 :
  in_grid row col -> length b0 = 81%nat -> cell b0 row col = 0 ->
  0 <= startV <= 9 ->
  (forall w1 v r w2,
     1 <= v <= 9 -> length (board w1) = 81%nat -> call w1 v = Ret r w2 ->
     (r = false -> board w2 = board w1) /\
     (r = true -> length (board w2) = 81%nat /\
                  keeps_givens (board w1) (board w2) /\
                  fills (board w1) (board w2) /\
                  filled_after m row col (board w2))) ->
  (exists h, board w = store b0 row col h) ->
  try_candidates call row col k startV w = Ret true w' ->
  length (board w') = 81%nat /\
  keeps_givens b0 (board w') /\ fills b0 (board w') /\
  cell (board w') row col <> 0 /\ filled_after m row col (board w').
Proof.
  intros Hg Hlen H0 Hs Hcall. revert startV w Hs.
  induction k as [|k IH]; intros startV w Hs [h Hw] H; [discriminate|].
  cbn [try_candidates] in H.
  destruct (startV =? INT_MAX); [discriminate|].
  pose proof (next_guess_range startV Hs) as Hc.
  set (cand := next_guess startV) in *.
  cbn [board record] in H.
  destruct (isValid cand (board w) row col) eqn:Hv.
  2:{ eapply IH in H; [exact H|lia|]. exists h. exact Hw. }
  destruct (call _ _) as [r w2| |] eqn:Ec; try discriminate.
  assert (Hb1 : board (write (record (Tested row col cand (cell (board w) row col)) w)
                         row col cand) = store b0 row col cand).
  { cbn [board write record]. rewrite Hw. apply store_store. }
  apply Hcall in Ec; [|lia|rewrite Hb1, store_length; exact Hlen].
  rewrite Hb1 in Ec. destruct Ec as [Hfail Hsucc].
  destruct r.
  2:{ eapply IH in H; [exact H|lia|]. exists cand. apply Hfail. reflexivity. }
  injection H as <-.
  destruct (Hsucc eq_refl) as (Hl2 & Hk2 & Hf2 & Hv2). clear Hsucc Hfail.
  assert (Hx1 : cell (store b0 row col cand) row col = cand).
  { apply cell_store_same. pose proof (offset_lt row col Hg). lia. }
  assert (Hx2 : cell (board w2) row col = cand).
  { rewrite (Hk2 row col); [exact Hx1|rewrite Hx1; lia]. }
  split; [exact Hl2|]. split; [|split; [|split; [rewrite Hx2; lia|exact Hv2]]].
  - (* the givens of b0 *)
    intros r c Hrc.
    assert (Ho : offset row col <> offset r c).
    { intros E. apply Hrc. unfold cell in *. rewrite <- E. exact H0. }
    rewrite <- (cell_store_other b0 row col cand r c Ho).
    apply Hk2. rewrite (cell_store_other _ _ _ _ _ _ Ho). exact Hrc.
  - (* the cells filled since b0 *)
    intros r c Hrc Hz Hnz.
    destruct (decide ((r, c) = (row, col))) as [E|Hne].
    + injection E as -> ->. rewrite Hx2. split; [lia|].
      intros r' c' Hg' Hp Hne'.
      pose proof (in_grid_offset_neq _ _ _ _ Hg Hg' Hne') as Ho.
      destruct (decide (cell (store b0 row col cand) r' c' = 0)) as [Ez|Enz].
      * destruct (decide (cell (board w2) r' c' = 0)) as [Ez2|Enz2]; [lia|].
        destruct (Hf2 r' c' Hg' Ez Enz2) as [_ Hpeers].
        intros E. apply (Hpeers row col Hg (peer_sym _ _ _ _ Hp)).
        -- intros E'. apply Hne'. injection E' as -> ->. reflexivity.
        -- rewrite Hx2. symmetry. exact E.
      * rewrite (Hk2 r' c' Enz), (cell_store_other _ _ _ _ _ _ Ho).
        rewrite <- (cell_store_other b0 row col h r' c' Ho), <- Hw.
        eapply isValid_true_peer; [exact Hg|exact Hg'|exact Hv|exact Hp].
    + apply Hf2; [exact Hrc| |exact Hnz].
      rewrite cell_store_other; [exact Hz|].
      apply in_grid_offset_neq; [exact Hg|exact Hrc|exact Hne].
Qed.

Lemma sudokuHelper_sound fuel w row col startV nTimes w' :
  in_grid row col -> length (board w) = 81%nat ->
  0 <= startV <= 9 -> 0 <= nTimes <= BOARDSIZE ->
  sudokuHelper never_finished fuel w row col startV nTimes = Ret true w' ->
  length (board w') = 81%nat /\
  keeps_givens (board w) (board w') /\ fills (board w) (board w') /\
  filled_after (BOARDSIZE - nTimes) row col (board w').
Proof.
  revert w row col startV nTimes w'.
  induction fuel as [|fuel IH]; intros w row col startV nTimes w' Hg Hlen Hs Hn H;
    [discriminate|].
  rewrite sudokuHelper_eq in H. cbv zeta in H. unfold never_finished at 1 in H.
  destruct (Z.eqb_spec BOARDSIZE nTimes) as [E|E].
  { injection H as <-. cbn [board rwlock_unlock probed rwlock_rdlock].
    split; [exact Hlen|]. split; [apply keeps_givens_refl|]. split.
    - intros r c _ Hz Hnz. contradiction.
    - intros j Hj. lia. }
  pose proof (advance_in_grid row col Hg) as Hg'.
  rewrite (proj2 (in_gridb_spec _ _) Hg') in H. cbn [negb] in H.
  set (rr := (advance row col).1) in *. set (cc := (advance row col).2) in *.
  assert (Hwalk : forall b, cell b rr cc <> 0 ->
            filled_after (BOARDSIZE - (nTimes + 1)) rr cc b ->
            filled_after (BOARDSIZE - nTimes) row col b).
  { intros b Hx Hrest [|j] Hj; [lia|]. cbn [walk]. fold rr cc.
    destruct j as [|j]; [exact Hx|]. apply Hrest. lia. }
  assert (Hrec : forall w1 v r w2,
             0 <= v <= 9 -> length (board w1) = 81%nat ->
             recurse never_finished fuel rr cc nTimes w1 v = Ret r w2 ->
             (r = false -> board w2 = board w1) /\
             (r = true -> length (board w2) = 81%nat /\
                keeps_givens (board w1) (board w2) /\
                fills (board w1) (board w2) /\
                filled_after (BOARDSIZE - (nTimes + 1)) rr cc (board w2))).
  { intros w1 v r w2 Hv Hl1 Hr. unfold recurse in Hr.
    destruct (nTimes =? INT_MAX); [discriminate|]. split.
    - intros ->. apply sudokuHelper_restores in Hr. apply Hr.
    - intros ->. eapply IH; [exact Hg'|exact Hl1|exact Hv| |exact Hr].
      unfold BOARDSIZE in *. lia. }
  destruct (Z.eqb_spec 0 (cell (board w) rr cc)) as [E0|E0]; cbn [negb] in H.
  - eapply (try_candidates_sound _ rr cc (BOARDSIZE - (nTimes + 1)) _ _ _ _ (board w))
      in H.
    + destruct H as (Hl & Hk & Hf & Hx & Hv).
      split; [exact Hl|]. split; [exact Hk|]. split; [exact Hf|].
      apply Hwalk; assumption.
    + exact Hg'.
    + exact Hlen.
    + symmetry. exact E0.
    + exact Hs.
    + intros w1 v r w2 Hv Hl1 Hr. apply (Hrec w1 v r w2); [lia|exact Hl1|exact Hr].
    + exists 0. cbn [board record rwlock_unlock probed rwlock_rdlock].
      symmetry. apply store_zero_id. symmetry. exact E0.
  - apply Hrec in H; [|exact Hs|exact Hlen].
    destruct H as [_ H]. destruct (H eq_refl) as (Hl & Hk & Hf & Hv).
    cbn [board record rwlock_unlock probed rwlock_rdlock] in Hk, Hf.
    split; [exact Hl|]. split; [exact Hk|]. split; [exact Hf|].
    apply Hwalk; [|exact Hv].
    rewrite (Hk rr cc); intros E'; apply E0; symmetry; exact E'.
Qed.

Lemma advance_position row col :
  in_grid row col ->
  9 * (advance row col).1 + (advance row col).2 = (9 * row + col + 1) mod 81.
Proof.
  unfold in_grid, advance, GRIDSIZE. intros [Hr Hc].
  destruct (Z.eqb_spec 9 (col + 1)) as [Ec|Ec];
    [destruct (Z.eqb_spec 9 (row + 1)) as [Er|Er]|]; cbn [fst snd].
  - replace (9 * row + col + 1) with 81 by lia. reflexivity.
  - rewrite Z.mod_small; lia.
  - rewrite Z.mod_small; lia.
Qed.

Lemma walk_position j row col :
  in_grid row col ->
  in_grid (walk j row col).1 (walk j row col).2 /\
  9 * (walk j row col).1 + (walk j row col).2
  = (9 * row + col + Z.of_nat j) mod 81.
Proof.
  revert row col. induction j as [|j IH]; intros row col Hg.
  - cbn [walk fst snd]. split; [exact Hg|].
    unfold in_grid, GRIDSIZE in Hg. rewrite Z.mod_small; lia.
  - cbn [walk]. destruct (IH _ _ (advance_in_grid row col Hg)) as [Hg' Hp].
    split; [exact Hg'|]. rewrite Hp, advance_position by exact Hg.
    rewrite Zplus_mod_idemp_l. f_equal. lia.
Qed.

(** The scan reaches every cell within 81 steps. *)
Lemma walk_reaches row col row' col' :
  in_grid row col -> in_grid row' col' ->
  exists j, 1 <= Z.of_nat j <= 81 /\ walk j row col = (row', col').
Proof.
  intros Hg Hg'.
  set (d := (9 * row' + col' - (9 * row + col) - 1) mod 81).
  assert (Hd : 0 <= d < 81) by (apply Z.mod_pos_bound; lia).
  exists (Z.to_nat (d + 1)). split; [lia|].
  destruct (walk_position (Z.to_nat (d + 1)) row col Hg) as [Hgw Hp].
  assert (Hq : 9 * (walk (Z.to_nat (d + 1)) row col).1
               + (walk (Z.to_nat (d + 1)) row col).2 = 9 * row' + col').
  { rewrite Hp. rewrite Z2Nat.id by lia. unfold d.
    replace (9 * row + col + ((9 * row' + col' - (9 * row + col) - 1) mod 81 + 1))
      with ((9 * row' + col' - (9 * row + col) - 1) mod 81 + (9 * row + col + 1))
      by lia.
    rewrite Zplus_mod_idemp_l.
    replace (9 * row' + col' - (9 * row + col) - 1 + (9 * row + col + 1))
      with (9 * row' + col') by lia.
    unfold in_grid, GRIDSIZE in Hg'. rewrite Z.mod_small; lia. }
  destruct (walk (Z.to_nat (d + 1)) row col) as [a b]. cbn [fst snd] in *.
  unfold in_grid, GRIDSIZE in *. f_equal; lia.
Qed.

Lemma filled_after_all row col puzzle :
  in_grid row col -> filled_after BOARDSIZE row col puzzle -> all_filled puzzle.
Proof.
  intros Hg Hf row' col' Hg'.
  destruct (walk_reaches row col row' col' Hg Hg') as (j & Hj & Ew).
  specialize (Hf j Hj). rewrite Ew in Hf. exact Hf.
Qed.

(** A search that succeeds from depth 0 has completed the board. *)
Lemma sudokuHelper_completes fuel w row col startV w' :
  in_grid row col -> length (board w) = 81%nat -> 0 <= startV <= 9 ->
  sudokuHelper never_finished fuel w row col startV 0 = Ret true w' ->
  completion (board w) (board w').
Proof.
  intros Hg Hlen Hs H.
  apply sudokuHelper_sound in H; [|exact Hg|exact Hlen|exact Hs|unfold BOARDSIZE; lia].
  destruct H as (_ & Hk & Hf & Hv). rewrite Z.sub_0_r in Hv.
  split; [|split; assumption]. eapply filled_after_all; eassumption.
Qed.

(** ** A stale candidate is harmless *)

(** A candidate left in the cell does not change the verdict on another
    candidate: the test reads as on the cell reset to 0. *)
Lemma cell_after_reset puzzle row col i j number :
  in_grid row col -> in_grid i j ->
  cell puzzle row col <> number -> number <> 0 ->
  cell (store puzzle row col 0) i j = number <-> cell puzzle i j = number.
Proof.
  intros Hg Hg' Hheld Hn.
  destruct (decide ((i, j) = (row, col))) as [E|Hne].
  - injection E as -> ->.
    destruct (cell_store_same_or_zero puzzle row col 0) as [E|E];
      rewrite E; split; intros H; congruence.
  - rewrite cell_store_other; [reflexivity|].
    apply in_grid_offset_neq; assumption.
Qed.

Lemma isValid_ignores_stale number puzzle row col :
  in_grid row col -> cell puzzle row col <> number -> number <> 0 ->
  isValid number (store puzzle row col 0) row col
  = isValid number puzzle row col.
Proof.
  intros Hg Hheld Hn.
  assert (Hiff : isValid number (store puzzle row col 0) row col = false <->
                 isValid number puzzle row col = false).
  { rewrite !isValid_false_iff by exact Hg.
    unfold occurs_in_row, occurs_in_column, occurs_in_block.
    destruct Hg as [Hr Hc].
    assert (Hcell : forall i j, 0 <= i < GRIDSIZE -> 0 <= j < GRIDSIZE ->
              (cell (store puzzle row col 0) i j = number <->
               cell puzzle i j = number)).
    { intros i j Hi Hj. apply cell_after_reset; try assumption; split; assumption. }
    split.
    - intros [(j & Hj & H)|[(i & Hi & H)|(i & j & [Hi Hj] & Hq & H)]].
      + left. exists j. split; [exact Hj|]. apply Hcell; assumption.
      + right. left. exists i. split; [exact Hi|]. apply Hcell; assumption.
      + right. right. exists i, j. split; [split; assumption|].
        split; [exact Hq|]. apply Hcell; assumption.
    - intros [(j & Hj & H)|[(i & Hi & H)|(i & j & [Hi Hj] & Hq & H)]].
      + left. exists j. split; [exact Hj|]. apply Hcell; assumption.
      + right. left. exists i. split; [exact Hi|]. apply Hcell; assumption.
      + right. right. exists i, j. split; [split; assumption|].
        split; [exact Hq|]. apply Hcell; assumption. }
  destruct (isValid number (store puzzle row col 0) row col),
           (isValid number puzzle row col); try reflexivity.
  - apply Hiff. reflexivity.
  - symmetry. apply Hiff. reflexivity.
Qed.

(** ** The thread parameters *)

Lemma make_tasks_lookup rand_at guess_start k i thread_num puzzle drawn j :
  (j < k)%nat ->
  make_tasks rand_at guess_start k i thread_num puzzle drawn !! j
  = Some (Task.Boardz false puzzle (guess_start thread_num (i + Z.of_nat j))
            (Z.rem (rand_at (drawn + 2 * j)%nat) 9)
            (Z.rem (rand_at (drawn + 2 * j + 1)%nat) 9)).
Proof.
  revert i drawn j. induction k as [|k IH]; intros i drawn j Hj; [lia|].
  destruct j as [|j]; cbn [make_tasks lookup list_lookup].
  - rewrite Z.add_0_r, Nat.add_0_r. simpl. rewrite Nat.add_1_r. reflexivity.
  - rewrite IH by lia.
    replace (i + 1 + Z.of_nat j) with (i + Z.of_nat (S j)) by lia.
    replace (S (S drawn) + 2 * j)%nat with (drawn + 2 * S j)%nat by lia.
    reflexivity.
Qed.

(** ** The text that buffSudoku writes *)

Lemma digit_cases10 (x : Z) :
  0 <= x <= 9 ->
  x = 0 \/ x = 1 \/ x = 2 \/ x = 3 \/ x = 4 \/ x = 5 \/ x = 6 \/ x = 7 \/
  x = 8 \/ x = 9.
Proof. lia. Qed.

Ltac each_digit10 H :=
  apply digit_cases10 in H;
  destruct H as [->|[->|[->|[->|[->|[->|[->|[->|[->| ->]]]]]]]]].

Lemma digit_char_not_NUL d : 0 <= d <= 9 -> digit_char d <> NUL.
Proof. intros H. each_digit10 H; discriminate. Qed.

Lemma digit_char_not_SPACE d :
  0 <= d <= 9 -> Ascii.eqb (digit_char d) SPACE = false.
Proof. intros H. each_digit10 H; reflexivity. Qed.

Lemma fmt_d_digit v : is_digit v -> fmt_d v = [digit_char v].
Proof. intros H. each_digit10 H; reflexivity. Qed.

Lemma read_int_digit v : is_digit v -> read_int [digit_char v] = Some v.
Proof. intros H. each_digit10 H; reflexivity. Qed.

Lemma digits_from_not_NUL fuel n acc :
  Forall (fun c => c <> NUL) acc ->
  Forall (fun c => c <> NUL) (digits_from fuel n acc).
Proof.
  revert n acc. induction fuel as [|fuel IH]; intros n acc Hacc; [exact Hacc|].
  cbn [digits_from].
  assert (Hacc' : Forall (fun c => c <> NUL) (digit_char (n mod 10) :: acc)).
  { constructor; [|exact Hacc]. apply digit_char_not_NUL.
    pose proof (Z.mod_pos_bound n 10). lia. }
  destruct (n <? 10); [exact Hacc'|]. apply IH. exact Hacc'.
Qed.

Lemma decimal_not_NUL n : Forall (fun c => c <> NUL) (decimal n).
Proof. apply digits_from_not_NUL. constructor. Qed.

Lemma Forall_tail_not_NUL (l : list ascii) :
  Forall (fun c => c <> NUL) l -> Forall (fun c => c <> NUL) (tail l).
Proof. intros H. destruct H; [constructor|assumption]. Qed.

Lemma sign_text_not_NUL s : Forall (fun c => c <> NUL) (sign_text s).
Proof. destruct s; repeat constructor. discriminate. Qed.

Lemma fmt_f_not_NUL timeo : Forall (fun c => c <> NUL) (fmt_f timeo).
Proof.
  destruct timeo as [s|s| |s m e]; cbn [fmt_f].
  - apply Forall_app. split; [apply sign_text_not_NUL|].
    apply Forall_app. split; [apply decimal_not_NUL|].
    constructor; [discriminate|]. apply Forall_tail_not_NUL, decimal_not_NUL.
  - apply Forall_app. split; [apply sign_text_not_NUL|].
    repeat constructor; discriminate.
  - repeat constructor; discriminate.
  - apply Forall_app. split; [apply sign_text_not_NUL|].
    apply Forall_app. split; [apply decimal_not_NUL|].
    constructor; [discriminate|]. apply Forall_tail_not_NUL, decimal_not_NUL.
Qed.

Lemma c_string_terminated text rest :
  Forall (fun c => c <> NUL) text -> c_string (text ++ NUL :: rest) = text.
Proof.
  induction 1 as [|c text Hc _ IH]; [reflexivity|].
  cbn [app c_string]. destruct (Ascii.eqb_spec c NUL) as [E|_]; [contradiction|].
  rewrite IH. reflexivity.
Qed.

(** A call of [snprintf] whose text fits: the text and a NUL follow what
    the buffer held before [cx]. *)
Lemma snprintf_fits pre rest text :
  length (pre ++ rest) = 256%nat ->
  (length text + 1 <= length rest)%nat ->
  snprintf (pre ++ rest) (Z.of_nat (length pre))
           (256 - Z.of_nat (length pre)) text
  = Some ((pre ++ text) ++ NUL :: drop (length text + 1) rest,
          Z.of_nat (length text)).
Proof.
  intros Hlen Hfit. rewrite length_app in Hlen. unfold snprintf.
  destruct (Z.ltb_spec (256 - Z.of_nat (length pre)) 0) as [H|_]; [lia|].
  destruct (Z.eqb_spec (256 - Z.of_nat (length pre)) 0) as [H|_]; [lia|].
  rewrite Nat.min_l by lia. rewrite firstn_all. f_equal. f_equal.
  unfold poke. rewrite Nat2Z.id, take_app_length.
  rewrite drop_app_ge by lia. rewrite length_app. cbn [length].
  rewrite <- !app_assoc. cbn [app]. do 4 f_equal. lia.
Qed.

Lemma cells_text_app a b : cells_text (a ++ b) = cells_text a ++ cells_text b.
Proof. unfold cells_text. rewrite map_app, concat_app. reflexivity. Qed.

Lemma cells_text_cons v cells :
  is_digit v -> cells_text (v :: cells) = digit_char v :: SPACE :: cells_text cells.
Proof. intros H. unfold cells_text. cbn [map concat]. rewrite fmt_d_digit by exact H. reflexivity. Qed.

Lemma cells_text_length cells :
  Forall is_digit cells -> length (cells_text cells) = (2 * length cells)%nat.
Proof.
  induction 1 as [|v cells Hv _ IH]; [reflexivity|].
  rewrite cells_text_cons by exact Hv. cbn [length]. rewrite IH. lia.
Qed.

Lemma cells_text_not_NUL cells :
  Forall is_digit cells -> Forall (fun c => c <> NUL) (cells_text cells).
Proof.
  induction 1 as [|v cells Hv _ IH]; [constructor|].
  rewrite cells_text_cons by exact Hv.
  constructor; [apply digit_char_not_NUL; exact Hv|].
  constructor; [discriminate|exact IH].
Qed.

Lemma print_row_fits k i j puzzle pre rest :
  Forall is_digit (row_cells k i j puzzle) ->
  length (pre ++ rest) = 256%nat -> (2 * k + 1 <= length rest)%nat ->
  exists rest',
    print_row k i j puzzle (pre ++ rest) (Z.of_nat (length pre))
    = Some ((pre ++ cells_text (row_cells k i j puzzle)) ++ rest',
            Z.of_nat (length pre) + 2 * Z.of_nat k) /\
    length rest' = (length rest - 2 * k)%nat.
Proof.
  revert j pre rest. induction k as [|k IH]; intros j pre rest Hd Hlen Hfit.
  - exists rest. cbn [print_row row_cells]. unfold cells_text. cbn [map concat].
    rewrite app_nil_r. split; [f_equal; f_equal; lia|lia].
  - cbn [row_cells] in *. inversion_clear Hd as [|? ? Hv Hd'].
    rename Hd' into Hd.
    cbn [print_row]. rewrite fmt_d_digit by exact Hv.
    rewrite snprintf_fits by (cbn [app length]; lia). cbn [app length Nat.add].
    set (pre' := pre ++ [digit_char (cell puzzle i j); SPACE]).
    set (rest' := NUL :: drop 3 rest).
    replace (Z.of_nat (length pre) + Z.of_nat 2) with (Z.of_nat (length pre'))
      by (unfold pre'; rewrite length_app; cbn [length]; lia).
    assert (Hr' : length rest' = (length rest - 2)%nat).
    { unfold rest'. cbn [length]. rewrite length_drop. lia. }
    destruct (IH (j + 1) pre' rest' Hd) as (rest'' & Hrun & Hl).
    + unfold pre'. rewrite !length_app in *. cbn [length]. lia.
    + lia.
    + exists rest''. rewrite Hrun. split; [|lia]. f_equal. f_equal.
      * rewrite cells_text_cons by exact Hv. unfold pre'.
        rewrite <- !app_assoc. reflexivity.
      * unfold pre'. rewrite length_app. cbn [length]. lia.
Qed.

Lemma print_rows_fits k i puzzle pre rest :
  Forall is_digit (grid_cells k i puzzle) ->
  length (pre ++ rest) = 256%nat -> (18 * k + 1 <= length rest)%nat ->
  exists rest',
    print_rows k i puzzle (pre ++ rest) (Z.of_nat (length pre))
    = Some ((pre ++ cells_text (grid_cells k i puzzle)) ++ rest',
            Z.of_nat (length pre) + 18 * Z.of_nat k) /\
    length rest' = (length rest - 18 * k)%nat.
Proof.
  revert i pre rest. induction k as [|k IH]; intros i pre rest Hd Hlen Hfit.
  - exists rest. cbn [print_rows grid_cells]. unfold cells_text. cbn [map concat].
    rewrite app_nil_r. split; [f_equal; f_equal; lia|lia].
  - cbn [grid_cells] in *. apply Forall_app in Hd. destruct Hd as [Hrow Hd].
    cbn [print_rows].
    destruct (print_row_fits (Z.to_nat GRIDSIZE) i 0 puzzle pre rest Hrow Hlen)
      as (rest1 & Hrun1 & Hl1); [change (Z.to_nat GRIDSIZE) with 9%nat; lia|].
    rewrite Hrun1. change (Z.to_nat GRIDSIZE) with 9%nat in *.
    set (pre' := pre ++ cells_text (row_cells 9 i 0 puzzle)) in *.
    assert (Hp' : length pre' = (length pre + 18)%nat).
    { unfold pre'. rewrite length_app, cells_text_length by exact Hrow.
      assert (Hrc : forall k i j, length (row_cells k i j puzzle) = k).
      { clear. induction k; intros; cbn [row_cells length]; [|rewrite IHk]; reflexivity. }
      rewrite Hrc. lia. }
    replace (Z.of_nat (length pre) + 2 * Z.of_nat 9) with (Z.of_nat (length pre'))
      by lia.
    destruct (IH (i + 1) pre' rest1 Hd) as (rest2 & Hrun2 & Hl2).
    + rewrite length_app in *. lia.
    + lia.
    + exists rest2. rewrite Hrun2. split; [|lia]. f_equal. f_equal.
      * rewrite cells_text_app. unfold pre'. rewrite <- !app_assoc. reflexivity.
      * lia.
Qed.

Lemma grid_cells_all puzzle :
  length puzzle = 81%nat -> grid_cells (Z.to_nat GRIDSIZE) 0 puzzle = puzzle.
Proof.
  intros H.
  do 81 (destruct puzzle as [|? puzzle]; [discriminate|]).
  destruct puzzle; [|discriminate]. reflexivity.
Qed.

(** *** Reading the text back *)

Lemma fields_cells_text cells rest :
  Forall is_digit cells ->
  fields (cells_text cells ++ rest) []
  = map (fun v => [digit_char v]) cells ++ fields rest [].
Proof.
  induction 1 as [|v cells Hv _ IH]; [reflexivity|].
  rewrite cells_text_cons by exact Hv. cbn [app fields map].
  rewrite digit_char_not_SPACE by exact Hv. cbn [Ascii.eqb fields].
  change (Ascii.eqb SPACE SPACE) with true. cbn [rev app].
  rewrite IH. reflexivity.
Qed.

Lemma read_int_digits cells :
  Forall is_digit cells ->
  mapM read_int (map (fun v => [digit_char v]) cells) = Some cells.
Proof.
  intros H. apply mapM_Some. induction H as [|v cells Hv _ IH]; constructor.
  - apply read_int_digit. exact Hv.
  - exact IH.
Qed.

Lemma parse_grid_cells_text cells rest :
  Forall is_digit cells -> length cells = 81%nat ->
  parse_grid (cells_text cells ++ rest) = Some cells.
Proof.
  intros Hd Hlen. unfold parse_grid. rewrite fields_cells_text by exact Hd.
  rewrite take_app_le by (rewrite length_map; lia).
  rewrite take_ge by (rewrite length_map; lia).
  apply read_int_digits. exact Hd.
Qed.

(** The output of [buffSudoku] when the time takes at most 92 characters. *)
Lemma buffSudoku_fits buff2 puzzle timeo :
  length buff2 = 256%nat -> length puzzle = 81%nat ->
  Forall is_digit puzzle -> (length (fmt_f timeo) <= 92)%nat ->
  exists rest,
    buffSudoku buff2 puzzle timeo
    = Some (serialized puzzle timeo ++ NUL :: rest) /\
    length (serialized puzzle timeo ++ NUL :: rest) = 256%nat.
Proof.
  intros Hb Hp Hd Ht. unfold buffSudoku.
  destruct (print_rows_fits (Z.to_nat GRIDSIZE) 0 puzzle [] buff2)
    as (rest1 & Hrun & Hl).
  - rewrite grid_cells_all by exact Hp. exact Hd.
  - exact Hb.
  - change (Z.to_nat GRIDSIZE) with 9%nat. lia.
  - cbn [app length] in Hrun. change (Z.of_nat 0) with 0 in Hrun.
    rewrite Hrun. rewrite grid_cells_all by exact Hp.
    change (Z.to_nat GRIDSIZE) with 9%nat in *.
    assert (Hc : length (cells_text puzzle) = 162%nat)
      by (rewrite cells_text_length by exact Hd; lia).
    replace (0 + 18 * Z.of_nat 9) with (Z.of_nat (length (cells_text puzzle)))
      by lia.
    rewrite snprintf_fits.
    + eexists. unfold serialized, cells_text. rewrite <- !app_assoc.
      split; [reflexivity|].
      fold (cells_text puzzle).
      rewrite !length_app. cbn [length]. rewrite length_drop. lia.
    + rewrite length_app. lia.
    + rewrite length_app. cbn [length]. lia.
Qed.

Lemma digits_from_length fuel n acc k :
  0 <= n < 10 ^ Z.of_nat (S k) ->
  (length (digits_from fuel n acc) <= length acc + S k)%nat.
Proof.
  revert n acc k. induction fuel as [|fuel IH]; intros n acc k Hn.
  - cbn [digits_from]. lia.
  - cbn [digits_from]. destruct (Z.ltb_spec n 10) as [Hlt|Hge].
    + cbn [length]. lia.
    + destruct k as [|k]; [change (10 ^ Z.of_nat 1) with 10 in Hn; lia|].
      etransitivity; [apply (IH (n / 10) _ k)|cbn [length]; lia].
      split; [apply Z.div_pos; lia|].
      apply Z.div_lt_upper_bound; [lia|].
      rewrite <- Z.pow_succ_r by lia. rewrite <- Nat2Z.inj_succ. lia.
Qed.

Lemma decimal_length n k :
  0 <= n < 10 ^ Z.of_nat (S k) -> (length (decimal n) <= S k)%nat.
Proof. intros H. apply (digits_from_length _ n [] k H). Qed.

(** ** The probes of a search *)

Lemma try_candidates_follows g call_q call_g row col k startV w :
  (forall w1 v, follows g w1 (call_q w1 v) (call_g w1 v)) ->
  follows g w (try_candidates call_q row col k startV w)
              (try_candidates call_g row col k startV w).
Proof.
  intros Hcall. revert startV w.
  induction k as [|k IH]; intros startV w r w' Hq.
  - cbn [try_candidates] in *. injection Hq as <- <-. cbn.
    split; [lia|]. split; [reflexivity|]. split; [reflexivity|].
    intros k0 Hk0. lia.
  - cbn [try_candidates] in *.
    destruct (startV =? INT_MAX); [discriminate|].
    set (cand := next_guess startV) in *.
    set (wt := record (Tested row col cand (cell (board w) row col)) w) in *.
    destruct (isValid cand (board wt) row col).
    + destruct (call_q (write wt row col cand) cand) as [r1 w2| |] eqn:Ec;
        try discriminate.
      destruct (Hcall _ _ _ _ Ec) as (Hle & Hl & Ha & Hb).
      cbn [probes rdlocks write record wt] in Hle, Hl, Ha, Hb.
      destruct r1.
      * injection Hq as <- <-.
        split; [exact Hle|]. split; [exact Hl|]. split.
        -- intros Hz. rewrite (Ha Hz). reflexivity.
        -- intros k0 Hk0 Ht Hz.
           destruct (Hb k0 Hk0 Ht Hz) as (w'' & -> & Hp & Hr).
           exists w''. auto.
      * destruct (IH cand w2 r w' Hq) as (Hle2 & Hl2 & Ha2 & Hb2).
        split; [lia|]. split; [congruence|]. split.
        -- intros Hz. rewrite Ha by (intros; apply Hz; lia).
           apply Ha2. intros; apply Hz; lia.
        -- intros k0 Hk0 Ht Hz.
           destruct (decide (k0 < probes w2)%nat) as [Hlt|Hge].
           ++ destruct (Hb k0 ltac:(lia) Ht Hz) as (w'' & -> & Hp & Hr).
              exists w''. auto.
           ++ rewrite Ha by (intros; apply Hz; lia).
              destruct (Hb2 k0 ltac:(lia) Ht ltac:(intros; apply Hz; lia))
                as (w'' & -> & Hp & Hr).
              exists w''. split; [reflexivity|]. split; [exact Hp|congruence].
    + destruct (IH cand wt r w' Hq) as (Hle2 & Hl2 & Ha2 & Hb2).
      cbn [probes rdlocks record wt] in Hle2, Hl2, Ha2, Hb2.
      split; [exact Hle2|]. split; [exact Hl2|]. split; assumption.
Qed.

Lemma sudokuHelper_follows g fuel w row col startV nTimes :
  follows g w (sudokuHelper never_finished fuel w row col startV nTimes)
              (sudokuHelper g fuel w row col startV nTimes).
Proof.
  revert w row col startV nTimes.
  induction fuel as [|fuel IH]; intros w row col startV nTimes r w' Hq;
    [discriminate|].
  rewrite sudokuHelper_eq in Hq |- *. cbv zeta in Hq |- *.
  unfold never_finished at 1 in Hq.
  assert (Hrec : forall rr cc w1 v,
            follows g w1 (recurse never_finished fuel rr cc nTimes w1 v)
                         (recurse g fuel rr cc nTimes w1 v)).
  { intros rr cc w1 v. unfold recurse.
    destruct (nTimes =? INT_MAX); [intros ? ? H; discriminate|]. apply IH. }
  set (w2 := rwlock_unlock (probed (rwlock_rdlock w))) in *.
  assert (Hfirst : forall under_g,
            follows g
              (record (Examined (advance row col).1 (advance row col).2
                         (cell (board w) (advance row col).1 (advance row col).2))
                      w2)
              (Ret r w') under_g ->
            (probes w <= probes w')%nat /\
            rdlocks w' = rdlocks w /\
            ((forall k, (probes w <= k < probes w')%nat -> g k = false) ->
             (if g (probes w) then Ret true (probed (rwlock_rdlock w))
              else under_g) = Ret r w') /\
            (forall k, (probes w <= k < probes w')%nat -> g k = true ->
               (forall j, (probes w <= j < k)%nat -> g j = false) ->
               exists w'',
                 (if g (probes w) then Ret true (probed (rwlock_rdlock w))
                  else under_g) = Ret true w'' /\
                 probes w'' = S k /\ rdlocks w'' = S (rdlocks w))).
  { intros under_g Hf. destruct (Hf r w' eq_refl) as (Hle & Hl & Ha & Hb).
    cbn [probes rdlocks record w2 rwlock_unlock probed rwlock_rdlock Nat.pred]
      in Hle, Hl, Ha, Hb.
    split; [lia|]. split; [exact Hl|]. split.
    - intros Hz. rewrite (Hz (probes w)) by lia. apply Ha.
      intros; apply Hz; lia.
    - intros k0 Hk0 Ht Hz.
      destruct (decide (k0 = probes w)) as [->|Hne].
      + rewrite Ht. eexists. split; [reflexivity|]. cbn. auto.
      + rewrite (Hz (probes w)) by lia.
        apply Hb; [lia|exact Ht|intros; apply Hz; lia]. }
  destruct (Z.eqb_spec BOARDSIZE nTimes) as [E|E].
  { injection Hq as <- <-. cbn. split; [lia|]. split; [reflexivity|]. split.
    - intros Hz. rewrite (Hz (probes w)) by lia. reflexivity.
    - intros k0 Hk0 Ht Hz. assert (k0 = probes w) as -> by lia.
      rewrite Ht. eexists. split; [reflexivity|]. cbn. auto. }
  destruct (negb (in_gridb _ _)); [discriminate|].
  destruct (negb (0 =? _)).
  - apply Hfirst. rewrite <- Hq. apply Hrec.
  - apply Hfirst. rewrite <- Hq. apply try_candidates_follows. apply Hrec.
Qed.

(** ** The race *)

Lemma invariant_started searches : invariant (started searches).
Proof.
  split; cbn.
  - intros i p H. rewrite list_lookup_fmap in H.
    destruct (searches !! i); [|discriminate]. injection H as <-.
    cbn. set_solver.
  - auto.
  - discriminate.
  - discriminate.
  - set_solver.
  - discriminate.
  - split; [discriminate|contradiction].
  - intros [H|H]; discriminate.
Qed.

(** The places after worker [i] has moved to [p]. *)
Lemma lookup_move i p s j q :
  workers (move i p s) !! j = Some q ->
  (j = i /\ q = p) \/ (j <> i /\ workers s !! j = Some q).
Proof.
  cbn. intros H. destruct (decide (j = i)) as [->|Hne].
  - left. split; [reflexivity|].
    destruct (decide (i < length (workers s))%nat) as [Hlt|Hge].
    + rewrite list_lookup_insert_eq in H by exact Hlt. congruence.
    + rewrite list_insert_ge in H by lia.
      apply lookup_lt_Some in H. lia.
  - right. split; [exact Hne|].
    rewrite list_lookup_insert_ne in H by congruence. exact H.
Qed.

Lemma lookup_move_same i p s q :
  workers s !! i = Some q -> workers (move i p s) !! i = Some p.
Proof.
  intros H. cbn. apply list_lookup_insert_eq. eapply lookup_lt_Some. exact H.
Qed.

Lemma lookup_move_other i p s j :
  j <> i -> workers (move i p s) !! j = workers s !! j.
Proof. intros H. cbn. apply list_lookup_insert_ne. congruence. Qed.

Lemma solveSudoku_step_alive i s s' :
  solveSudoku_step i s = Some s' -> main_at s <> MainExited.
Proof. unfold solveSudoku_step. destruct (main_at s); congruence. Qed.

(** The step of worker [i], place by place. *)
Lemma solveSudoku_step_cases i s s' :
  solveSudoku_step i s = Some s' ->
  exists p, workers s !! i = Some p /\
  match p with
  | AtRdlock more => move i (AtTest more) <$> rdlock i s = Some s'
  | AtTest more =>
      s' = move i (if g_finished s then AtWrlock else AtUnlock more) s
  | AtUnlock more =>
      s' = move i (match more with
                   | O => AtWrlock
                   | S more' => AtRdlock more'
                   end) (rwunlock i s)
  | AtWrlock => move i AtCheck <$> wrlock i s = Some s'
  | AtCheck => s' = move i (if g_finished s then Returned else AtMutexLock) s
  | AtMutexLock => move i AtSet <$> mutex_lock (WorkerThread i) s = Some s'
  | AtSet => s' = move i AtMutexUnlock (set_finished i s)
  | AtMutexUnlock => s' = move i AtReport (mutex_unlock s)
  | AtReport => s' = move i AtWrUnlock (report i s)
  | AtWrUnlock => s' = move i AtSignal (rwunlock i s)
  | AtSignal => s' = move i Returned (cond_signal s)
  | Returned => False
  end.
Proof.
  unfold solveSudoku_step. intros H.
  destruct (workers s !! i) as [p|]; [|destruct (main_at s); discriminate].
  exists p. split; [reflexivity|].
  destruct (main_at s); try discriminate; destruct p; congruence.
Qed.

(** What a step must leave alone for worker [j] to stay in order at its
    place. *)
Lemma place_ok_frame s s' j q :
  place_ok s j q ->
  (j ∈ readers s' <-> j ∈ readers s) ->
  (g_finished s = true -> g_finished s' = true) ->
  (writer s = Some j ->
   writer s' = Some j /\ g_finished s' = g_finished s /\
   flips s' = flips s /\ reports s' = reports s) ->
  (mutex s = Some (WorkerThread j) -> mutex s' = Some (WorkerThread j)) ->
  place_ok s' j q.
Proof.
  intros Hq Hr Hf Hw Hm. destruct q; cbn in *.
  - rewrite Hr. exact Hq.
  - rewrite Hr. exact Hq.
  - rewrite Hr. exact Hq.
  - rewrite Hr. intros H. apply Hf, Hq, H.
  - apply Hw, Hq.
  - destruct Hq as [H1 H2]. destruct (Hw H1) as (-> & -> & _). auto.
  - destruct Hq as (H1 & H2 & H3). destruct (Hw H1) as (-> & -> & _). auto.
  - destruct Hq as (H1 & H2 & H3 & H4 & H5).
    destruct (Hw H1) as (-> & -> & -> & ->). auto.
  - destruct Hq as (H1 & H2 & H3 & H4).
    destruct (Hw H1) as (-> & -> & -> & ->). auto.
  - destruct Hq as (H1 & H2 & H3 & H4).
    destruct (Hw H1) as (-> & -> & -> & ->). auto.
  - apply Hf, Hq.
  - apply Hf, Hq.
Qed.

(** A worker found at a place of some kind is still found there after
    worker [i] has moved, if the new place of [i] is of that kind. *)
Lemma found_after_move (P : place -> Prop) i p p0 s s0 j :
  workers s0 = workers s -> workers s !! i = Some p0 ->
  (j = i -> P p) ->
  (j <> i -> exists q, workers s !! j = Some q /\ P q) ->
  exists q, workers (move i p s0) !! j = Some q /\ P q.
Proof.
  intros Hw Hi Hsame Hother. destruct (decide (j = i)) as [->|Hne].
  - exists p. split; [|auto]. apply (lookup_move_same i p s0 p0). congruence.
  - rewrite lookup_move_other by exact Hne. rewrite Hw. auto.
Qed.

(** The invariant for the other workers, after a step of worker [i] that
    changed [s] into [s0] before the move. *)
Ltac for_other_places s Hp :=
  let j := fresh "j" in let q := fresh "q" in
  let Hj := fresh "Hj" in let Hne := fresh "Hne" in
  intros j q Hj; apply lookup_move in Hj as [[-> ->]|[Hne Hj]];
  [cbn|apply (place_ok_frame s); cbn; [exact (Hp _ _ Hj)| | | |]].

Ltac still_found P s Hi :=
  eapply (found_after_move P _ _ _ s); [reflexivity|exact Hi|cbn|].

Lemma invariant_solveSudoku_step i s s' :
  invariant s -> solveSudoku_step i s = Some s' -> invariant s'.
Proof.
  intros Hinv Hstep.
  pose proof (solveSudoku_step_alive _ _ _ Hstep) as Halive.
  destruct (solveSudoku_step_cases _ _ _ Hstep) as (p & Hi & Hs'). clear Hstep.
  pose proof (inv_places _ Hinv _ _ Hi) as Hhere.
  destruct Hinv as [Hp Hu Hs Hw Hr Hm Hmm Hma].
  assert (Hnw : ~ holds_write p -> writer s <> Some i).
  { intros Hn E. destruct (Hw i E) as (q & Hq & Hh). congruence. }
  assert (Hnm : ~ holds_mutex p -> mutex s <> Some (WorkerThread i)).
  { intros Hn E. destruct (Hm i E) as (q & Hq & Hh). congruence. }
  assert (Hnr : ~ holds_read p -> i ∉ readers s).
  { intros Hn E. destruct (Hr i E) as (q & Hq & Hh). congruence. }
  destruct p; cbn in Hhere, Hnw, Hnm, Hnr.
  - (* pthread_rwlock_rdlock in sudokuHelper *)
    unfold rdlock in Hs'. destruct (writer s) eqn:Ew; [discriminate|].
    injection Hs' as <-. split; cbn.
    + for_other_places s Hp.
      * rewrite elem_of_union, elem_of_singleton. tauto.
      * rewrite elem_of_union, elem_of_singleton. tauto.
      * auto.
      * congruence.
      * auto.
    + exact Hu.
    + exact Hs.
    + discriminate.
    + intros j Hj. still_found holds_read s Hi; [auto|].
      intros Hne. apply Hr. rewrite elem_of_union, elem_of_singleton in Hj. tauto.
    + intros j Hj. still_found holds_mutex s Hi; [|auto].
      intros ->. tauto.
    + exact Hmm.
    + exact Hma.
  - (* the test of g_finished in sudokuHelper *)
    subst s'. split; cbn.
    + for_other_places s Hp; [|tauto|auto|auto|auto].
      destruct (g_finished s) eqn:E; cbn; auto.
    + exact Hu.
    + exact Hs.
    + intros j Hj. still_found holds_write s Hi; [|auto].
      intros ->. tauto.
    + intros j Hj. still_found holds_read s Hi; [|auto].
      intros _. destruct (g_finished s); exact I.
    + intros j Hj. still_found holds_mutex s Hi; [|auto].
      intros ->. tauto.
    + exact Hmm.
    + exact Hma.
  - (* pthread_rwlock_unlock in sudokuHelper *)
    subst s'. unfold rwunlock.
    destruct (decide (writer s = Some i)) as [E|_]; [tauto|]. split; cbn.
    + for_other_places s Hp.
      * destruct more; cbn; rewrite elem_of_difference, elem_of_singleton; tauto.
      * rewrite elem_of_difference, elem_of_singleton. tauto.
      * auto.
      * auto.
      * auto.
    + exact Hu.
    + exact Hs.
    + intros j Hj. still_found holds_write s Hi; [|auto].
      intros ->. tauto.
    + intros j Hj. rewrite elem_of_difference, elem_of_singleton in Hj.
      still_found holds_read s Hi; [tauto|]. intros _. apply Hr. tauto.
    + intros j Hj. still_found holds_mutex s Hi; [|auto].
      intros ->. tauto.
    + exact Hmm.
    + exact Hma.
  - (* pthread_rwlock_wrlock *)
    unfold wrlock in Hs'. destruct (writer s) eqn:Ew; [discriminate|].
    destruct (decide (readers s = ∅)) as [Er|_]; [|discriminate].
    injection Hs' as <-. split; cbn.
    + for_other_places s Hp; [reflexivity|tauto|auto|congruence|auto].
    + exact Hu.
    + exact Hs.
    + intros j Hj. injection Hj as <-. still_found holds_write s Hi; [auto|].
      intros Hne. congruence.
    + intros j Hj. rewrite Er in Hj. apply not_elem_of_empty in Hj. contradiction.
    + intros j Hj. still_found holds_mutex s Hi; [|auto].
      intros ->. tauto.
    + exact Hmm.
    + exact Hma.
  - (* the test of g_finished under the write lock *)
    subst s'. split; cbn.
    + for_other_places s Hp; [|tauto|auto|auto|auto].
      destruct (g_finished s) eqn:E; cbn; auto.
    + exact Hu.
    + exact Hs.
    + intros j Hj. still_found holds_write s Hi; [|auto].
      intros _. destruct (g_finished s); exact I.
    + intros j Hj. still_found holds_read s Hi; [|auto].
      intros ->. tauto.
    + intros j Hj. still_found holds_mutex s Hi; [|auto].
      intros ->. tauto.
    + exact Hmm.
    + exact Hma.
  - (* pthread_mutex_lock *)
    destruct Hhere as [Hwi Hfi].
    unfold mutex_lock in Hs'. destruct (mutex s) eqn:Em; [discriminate|].
    injection Hs' as <-. split; cbn.
    + for_other_places s Hp; [auto|tauto|auto|auto|congruence].
    + exact Hu.
    + exact Hs.
    + intros j Hj. still_found holds_write s Hi; [auto|auto].
    + intros j Hj. still_found holds_read s Hi; [|auto].
      intros ->. tauto.
    + intros j Hj. injection Hj as <-. still_found holds_mutex s Hi; [auto|].
      intros Hne. congruence.
    + rewrite <- Hmm. split; discriminate.
    + exact Hma.
  - (* completed = 1; g_finished = 1 *)
    destruct Hhere as (Hwi & Hfi & Hmi). destruct (Hu Hfi) as [Hfl Hrep].
    subst s'. split; cbn.
    + for_other_places s Hp.
      * rewrite Hfi, Hfl. auto.
      * tauto.
      * auto.
      * intros E. rewrite Hwi in E. congruence.
      * auto.
    + discriminate.
    + intros _. rewrite Hfi, Hfl, Hrep. eauto.
    + intros j Hj. still_found holds_write s Hi; [auto|auto].
    + intros j Hj. still_found holds_read s Hi; [|auto].
      intros ->. tauto.
    + intros j Hj. still_found holds_mutex s Hi; [auto|auto].
    + exact Hmm.
    + auto.
  - (* pthread_mutex_unlock *)
    destruct Hhere as (Hwi & Hfi & Hmi & Hfl & Hrep).
    subst s'. split; cbn.
    + for_other_places s Hp; [auto|tauto|auto|auto|].
      intros E. rewrite Hmi in E. congruence.
    + exact Hu.
    + exact Hs.
    + intros j Hj. still_found holds_write s Hi; [auto|auto].
    + intros j Hj. still_found holds_read s Hi; [|auto].
      intros ->. tauto.
    + discriminate.
    + rewrite <- Hmm, Hmi. split; discriminate.
    + exact Hma.
  - (* buffSudoku and send *)
    destruct Hhere as (Hwi & Hfi & Hfl & Hrep).
    subst s'. split; cbn.
    + for_other_places s Hp; [rewrite Hrep; auto|tauto|auto| |auto].
      intros E. rewrite Hwi in E. congruence.
    + congruence.
    + intros _. rewrite Hfl, Hrep. eauto.
    + intros j Hj. still_found holds_write s Hi; [auto|auto].
    + intros j Hj. still_found holds_read s Hi; [|auto].
      intros ->. tauto.
    + intros j Hj. still_found holds_mutex s Hi; [|auto].
      intros ->. tauto.
    + exact Hmm.
    + exact Hma.
  - (* pthread_rwlock_unlock in solveSudoku *)
    destruct Hhere as (Hwi & Hfi & Hfl & Hrep).
    subst s'. unfold rwunlock.
    destruct (decide (writer s = Some i)) as [_|E]; [|contradiction]. split; cbn.
    + for_other_places s Hp; [auto|tauto|auto| |auto].
      intros E. rewrite Hwi in E. congruence.
    + exact Hu.
    + exact Hs.
    + discriminate.
    + intros j Hj. still_found holds_read s Hi; [|auto].
      intros ->. tauto.
    + intros j Hj. still_found holds_mutex s Hi; [|auto].
      intros ->. tauto.
    + exact Hmm.
    + exact Hma.
  - (* pthread_cond_signal *)
    subst s'. unfold cond_signal.
    destruct (main_at s) eqn:Ema; (split; cbn;
      [for_other_places s Hp; [auto|tauto|auto|auto|auto]
      |exact Hu
      |exact Hs
      |intros j Hj; still_found holds_write s Hi; [auto|auto]
      |intros j Hj; still_found holds_read s Hi; [intros ->; tauto|auto]
      |intros j Hj; still_found holds_mutex s Hi; [intros ->; tauto|auto]
      |rewrite ?Ema; cbn in Hmm |- *; tauto
      |intros _; exact Hhere]).
  - contradiction.
Qed.

Lemma place_ok_main s s' j q :
  place_ok s j q ->
  g_finished s' = g_finished s -> readers s' = readers s ->
  writer s' = writer s -> flips s' = flips s -> reports s' = reports s ->
  (mutex s = Some (WorkerThread j) -> mutex s' = Some (WorkerThread j)) ->
  place_ok s' j q.
Proof.
  intros Hq Eg Er Ew Ef Erp Hm. apply (place_ok_frame s); [exact Hq| | | |exact Hm].
  - rewrite Er. tauto.
  - rewrite Eg. auto.
  - rewrite Ew, Eg, Ef, Erp. auto.
Qed.

Lemma invariant_main_step s s' :
  invariant s -> main_step s = Some s' -> invariant s'.
Proof.
  intros [Hp Hu Hs Hw Hr Hm Hmm Hma] Hstep. unfold main_step in Hstep.
  assert (Hlock : main_at s = MainAtLock \/ main_at s = MainWoken ->
            forall s1, mutex_lock MainThread s = Some s1 ->
            invariant (main_moves MainAtTest s1)).
  { intros Hat s1 H1. unfold mutex_lock in H1.
    destruct (mutex s) eqn:Em; [discriminate|]. injection H1 as <-.
    split; cbn.
    - intros j q Hj. apply (place_ok_main s); cbn; auto. congruence.
    - exact Hu.
    - exact Hs.
    - exact Hw.
    - exact Hr.
    - intros j Hj. discriminate.
    - tauto.
    - intros [H|H]; discriminate. }
  destruct (main_at s) eqn:Ema; cbn in Hmm.
  - destruct (mutex_lock MainThread s) as [s1|] eqn:E1; [|discriminate].
    injection Hstep as <-. apply Hlock; auto.
  - assert (Em : mutex s = Some MainThread) by (apply Hmm; exact I).
    destruct (g_finished s) eqn:Eg; injection Hstep as <-; split; cbn.
    + intros j q Hj. apply (place_ok_main s); cbn; auto.
    + rewrite Eg. discriminate.
    + intros _. apply Hs. reflexivity.
    + exact Hw.
    + exact Hr.
    + exact Hm.
    + tauto.
    + auto.
    + intros j q Hj. apply (place_ok_main s); cbn; auto. congruence.
    + intros _. apply Hu. reflexivity.
    + rewrite Eg. discriminate.
    + exact Hw.
    + exact Hr.
    + intros j Hj. discriminate.
    + split; [discriminate|contradiction].
    + intros [H|H]; discriminate.
  - discriminate.
  - destruct (mutex_lock MainThread s) as [s1|] eqn:E1; [|discriminate].
    injection Hstep as <-. apply Hlock; auto.
  - assert (Em : mutex s = Some MainThread) by (apply Hmm; exact I).
    injection Hstep as <-. split; cbn.
    + intros j q Hj. apply (place_ok_main s); cbn; auto. congruence.
    + exact Hu.
    + exact Hs.
    + exact Hw.
    + exact Hr.
    + intros j Hj. discriminate.
    + split; [discriminate|contradiction].
    + intros _. apply Hma. auto.
  - discriminate.
Qed.

Lemma invariant_spurious_wakeup s s' :
  invariant s -> spurious_wakeup s = Some s' -> invariant s'.
Proof.
  intros [Hp Hu Hs Hw Hr Hm Hmm Hma] Hstep. unfold spurious_wakeup in Hstep.
  destruct (main_at s) eqn:Ema; try discriminate. injection Hstep as <-.
  cbn in Hmm. split; cbn.
  - intros j q Hj. apply (place_ok_main s); cbn; auto.
  - exact Hu.
  - exact Hs.
  - exact Hw.
  - exact Hr.
  - exact Hm.
  - exact Hmm.
  - intros [H|H]; discriminate.
Qed.

Lemma invariant_step s s' : invariant s -> step s s' -> invariant s'.
Proof.
  intros Hinv Hstep. inversion Hstep; subst.
  - eapply invariant_solveSudoku_step; eassumption.
  - eapply invariant_main_step; eassumption.
  - eapply invariant_spurious_wakeup; eassumption.
Qed.

Lemma invariant_reachable searches s :
  rtc step (started searches) s -> invariant s.
Proof.
  revert s. apply rtc_ind_r.
  - apply invariant_started.
  - intros y z _ Hstep IH. eapply invariant_step; eassumption.
Qed.

Lemma solveSudoku_step_at i s p :
  main_at s <> MainExited -> workers s !! i = Some p ->
  solveSudoku_step i s =
  match p with
  | AtRdlock more => move i (AtTest more) <$> rdlock i s
  | AtTest more =>
      Some (move i (if g_finished s then AtWrlock else AtUnlock more) s)
  | AtUnlock more =>
      Some (move i (match more with
                    | O => AtWrlock
                    | S more' => AtRdlock more'
                    end) (rwunlock i s))
  | AtWrlock => move i AtCheck <$> wrlock i s
  | AtCheck =>
      Some (move i (if g_finished s then Returned else AtMutexLock) s)
  | AtMutexLock => move i AtSet <$> mutex_lock (WorkerThread i) s
  | AtSet => Some (move i AtMutexUnlock (set_finished i s))
  | AtMutexUnlock => Some (move i AtReport (mutex_unlock s))
  | AtReport => Some (move i AtWrUnlock (report i s))
  | AtWrUnlock => Some (move i AtSignal (rwunlock i s))
  | AtSignal => Some (move i Returned (cond_signal s))
  | Returned => None
  end.
Proof.
  intros Ha Hi. unfold solveSudoku_step. rewrite Hi.
  destruct (main_at s); [reflexivity..|contradiction].
Qed.

Lemma step_workers_length s s' :
  step s s' -> length (workers s') = length (workers s).
Proof.
  intros H. inversion H as [i s1 s2 Hs|s1 s2 Hs|s1 s2 Hs]; subst.
  - destruct (solveSudoku_step_cases _ _ _ Hs) as (p & Hp & Hc).
    destruct p; try contradiction; try (subst s'; cbn; rewrite length_insert).
    + unfold rdlock in Hc. destruct (writer s); [discriminate|].
      injection Hc as <-. cbn. apply length_insert.
    + reflexivity.
    + unfold rwunlock. destruct (decide _); reflexivity.
    + unfold wrlock in Hc. destruct (writer s); [discriminate|].
      destruct (decide _); [|discriminate].
      injection Hc as <-. cbn. apply length_insert.
    + reflexivity.
    + unfold mutex_lock in Hc. destruct (mutex s); [discriminate|].
      injection Hc as <-. cbn. apply length_insert.
    + reflexivity.
    + reflexivity.
    + reflexivity.
    + unfold rwunlock. destruct (decide _); reflexivity.
    + unfold cond_signal. destruct (main_at s); reflexivity.
  - unfold main_step, mutex_lock in Hs.
    destruct (main_at s); try discriminate;
      try (destruct (mutex s); [discriminate|]; injection Hs as <-; reflexivity);
      try (destruct (g_finished s)); injection Hs as <-; reflexivity.
  - unfold spurious_wakeup in Hs.
    destruct (main_at s); try discriminate. injection Hs as <-. reflexivity.
Qed.

Lemma reachable_workers_length searches s :
  rtc step (started searches) s -> length (workers s) = length searches.
Proof.
  revert s. apply rtc_ind_r.
  - cbn. apply length_map.
  - intros y z _ Hstep IH. rewrite (step_workers_length _ _ Hstep). exact IH.
Qed.

(** A schedule that runs is an interleaving. *)
Lemma run_reaches schedule s s' :
  run schedule s = Some s' -> rtc step s s'.
Proof.
  revert s. induction schedule as [|t rest IH]; intros s H.
  - injection H as <-. apply rtc_refl.
  - cbn in H. destruct t as [|i].
    + destruct (main_step s) as [s1|] eqn:E; [|discriminate].
      eapply rtc_l; [apply step_main; exact E|apply IH; exact H].
    + destruct (solveSudoku_step i s) as [s1|] eqn:E; [|discriminate].
      eapply rtc_l; [apply (step_worker i); exact E|apply IH; exact H].
Qed.

(** The search of a task is a sequence of probes: left alone it makes
    [search_probes t + 1] of them and keeps the lock balanced; under a latch
    history that reads 0 at all of them it does the same; at the first
    probe that reads 1 it returns 1 holding the read lock. *)
Lemma search_is_a_sequence_of_probes g t fuel :
  in_grid (Task.row t) (Task.col t) -> 0 <= Task.start t <= 9 ->
  (82 <= fuel)%nat ->
  exists r w',
    sudokuHelper never_finished fuel (fresh_worker (Task.board t))
                 (Task.row t) (Task.col t) (Task.start t) 0 = Ret r w' /\
    follows g (fresh_worker (Task.board t)) (Ret r w')
            (sudokuHelper g fuel (fresh_worker (Task.board t))
                          (Task.row t) (Task.col t) (Task.start t) 0).
Proof.
  intros Hg Hs Hfuel.
  destruct (sudokuHelper_returns never_finished fuel
              (fresh_worker (Task.board t)) (Task.row t) (Task.col t)
              (Task.start t) 0) as (r & w' & Hrun);
    [exact Hg|exact Hs|unfold BOARDSIZE; lia|unfold BOARDSIZE; lia|].
  exists r, w'. split; [exact Hrun|]. rewrite <- Hrun.
  apply sudokuHelper_follows.
Qed.

(** ** The example boards *)

Lemma in_grid_intro row col : 0 <= row < 9 -> 0 <= col < 9 -> in_grid row col.
Proof. intros Hr Hc. split; assumption. Qed.

Lemma solved_grid_filled : all_filled solved_grid.
Proof.
  intros row col [Hr Hc]. unfold GRIDSIZE in *.
  each_digit Hr; each_digit Hc; vm_compute; discriminate.
Qed.

Lemma stuck_board_run :
  sudokuHelper never_finished 3 (fresh_worker stuck_board) 8 8 0 0
  = Ret false (Worker stuck_board 0 3 (rev stuck_trace)).
Proof. vm_compute. reflexivity. Qed.

Lemma stuck_board_unsolvable : unsolvable stuck_board.
Proof.
  intros solved (Hall & Hkeep & Hfills).
  assert (Hg : in_grid 0 1) by (apply in_grid_intro; lia).
  destruct (Hfills 0 1 Hg eq_refl (Hall 0 1 Hg)) as [Hd Hp].
  assert (Hclash : forall row col,
            0 <= row < 9 -> 0 <= col < 9 ->
            peer 0 1 row col -> (row, col) <> (0, 1) ->
            cell stuck_board row col <> 0 ->
            cell stuck_board row col <> cell solved 0 1).
  { intros row col Hr Hc Hpeer Hne Hnz. rewrite <- (Hkeep row col Hnz).
    apply Hp; [apply in_grid_intro; assumption|exact Hpeer|exact Hne]. }
  assert (H1 := Hclash 3 1 ltac:(lia) ltac:(lia) ltac:(right; left; reflexivity)
                  ltac:(discriminate) ltac:(discriminate)).
  assert (H2 := Hclash 4 1 ltac:(lia) ltac:(lia) ltac:(right; left; reflexivity)
                  ltac:(discriminate) ltac:(discriminate)).
  assert (H3 := Hclash 0 2 ltac:(lia) ltac:(lia) ltac:(left; reflexivity)
                  ltac:(discriminate) ltac:(discriminate)).
  assert (H4 := Hclash 0 3 ltac:(lia) ltac:(lia) ltac:(left; reflexivity)
                  ltac:(discriminate) ltac:(discriminate)).
  assert (H5 := Hclash 0 4 ltac:(lia) ltac:(lia) ltac:(left; reflexivity)
                  ltac:(discriminate) ltac:(discriminate)).
  assert (H6 := Hclash 0 5 ltac:(lia) ltac:(lia) ltac:(left; reflexivity)
                  ltac:(discriminate) ltac:(discriminate)).
  assert (H7 := Hclash 0 6 ltac:(lia) ltac:(lia) ltac:(left; reflexivity)
                  ltac:(discriminate) ltac:(discriminate)).
  assert (H8 := Hclash 0 7 ltac:(lia) ltac:(lia) ltac:(left; reflexivity)
                  ltac:(discriminate) ltac:(discriminate)).
  assert (H9 := Hclash 0 8 ltac:(lia) ltac:(lia) ltac:(left; reflexivity)
                  ltac:(discriminate) ltac:(discriminate)).
  change (cell stuck_board 3 1) with 1 in H1.
  change (cell stuck_board 4 1) with 2 in H2.
  change (cell stuck_board 0 2) with 3 in H3.
  change (cell stuck_board 0 3) with 4 in H4.
  change (cell stuck_board 0 4) with 5 in H5.
  change (cell stuck_board 0 5) with 6 in H6.
  change (cell stuck_board 0 6) with 7 in H7.
  change (cell stuck_board 0 7) with 8 in H8.
  change (cell stuck_board 0 8) with 9 in H9.
  lia.
Qed.

(** ** A board that can be completed is completed *)

Lemma rotate_shift d x : rotate (S d) x = rotate d (next_guess x).
Proof. induction d as [|d IH]; [reflexivity|]. cbn [rotate] in *. rewrite IH. reflexivity. Qed.

(** From a guess in 0..9 the nine steps of the rotation reach every digit. *)
Lemma rotate_reaches startV d :
  0 <= startV <= 9 -> 1 <= d <= 9 ->
  exists j, (1 <= j <= 9)%nat /\ rotate j startV = d.
Proof.
  intros Hs Hd.
  assert (Hs' : startV = 0 \/ 1 <= startV <= 9) by lia.
  assert (Hc : forall j, (1 <= j <= 9)%nat -> rotate j startV = d ->
               exists j, (1 <= j <= 9)%nat /\ rotate j startV = d) by eauto.
  destruct Hs' as [->|Hs'].
  - exists (Z.to_nat d). split; [lia|].
    assert (Hd' : d = 1 \/ d = 2 \/ d = 3 \/ d = 4 \/ d = 5 \/ d = 6 \/ d = 7 \/
                  d = 8 \/ d = 9) by lia.
    destruct Hd' as [->|[->|[->|[->|[->|[->|[->|[->| ->]]]]]]]]; reflexivity.
  - assert (Hs'' : startV = 1 \/ startV = 2 \/ startV = 3 \/ startV = 4 \/
                   startV = 5 \/ startV = 6 \/ startV = 7 \/ startV = 8 \/
                   startV = 9) by lia.
    assert (Hd' : d = 1 \/ d = 2 \/ d = 3 \/ d = 4 \/ d = 5 \/ d = 6 \/ d = 7 \/
                  d = 8 \/ d = 9) by lia.
    exists (Z.to_nat ((d - startV - 1) mod 9 + 1)).
    destruct Hs'' as [->|[->|[->|[->|[->|[->|[->|[->| ->]]]]]]]];
      destruct Hd' as [->|[->|[->|[->|[->|[->|[->|[->| ->]]]]]]]];
      (split; [vm_compute; lia|reflexivity]).
Qed.

(** A digit that the completion puts in an empty cell passes the test,
    whatever other candidate the cell still holds. *)
Lemma completion_digit_is_valid b0 sol row col h :
  in_grid row col -> length b0 = 81%nat -> cell b0 row col = 0 ->
  completion b0 sol -> h <> cell sol row col ->
  isValid (cell sol row col) (store b0 row col h) row col = true.
Proof.
  intros Hg Hlen H0 (Hall & Hkeep & Hfills) Hh.
  destruct (Hfills row col Hg H0 (Hall row col Hg)) as [Hd Hclash].
  destruct (isValid _ _ _ _) eqn:Hv; [reflexivity|exfalso].
  assert (Hat : forall i j, in_grid i j -> peer row col i j ->
            cell (store b0 row col h) i j <> cell sol row col).
  { intros i j Hij Hp.
    destruct (decide ((i, j) = (row, col))) as [E|Hne].
    - injection E as -> ->. rewrite cell_store_same; [exact Hh|].
      pose proof (offset_lt row col Hg). lia.
    - rewrite cell_store_other
        by (apply in_grid_offset_neq; assumption).
      destruct (decide (cell b0 i j = 0)) as [Ez|Enz]; [lia|].
      rewrite <- (Hkeep i j Enz). apply Hclash; assumption. }
  apply isValid_false_iff in Hv; [|exact Hg].
  destruct Hg as [Hr Hc].
  destruct Hv as [(j & Hj & H)|[(i & Hi & H)|(i & j & [Hi Hj] & [Hq1 Hq2] & H)]].
  - apply (Hat row j); [split; assumption|left; reflexivity|exact H].
  - apply (Hat i col); [split; assumption|right; left; reflexivity|exact H].
  - apply (Hat i j); [split; assumption| |exact H].
    right. right. split; assumption.
Qed.

Lemma completion_after_store b0 sol row col :
  in_grid row col -> length b0 = 81%nat -> cell b0 row col = 0 ->
  completion b0 sol ->
  completion (store b0 row col (cell sol row col)) sol.
Proof.
  intros Hg Hlen H0 (Hall & Hkeep & Hfills).
  assert (Hx : cell (store b0 row col (cell sol row col)) row col
               = cell sol row col).
  { apply cell_store_same. pose proof (offset_lt row col Hg). lia. }
  split; [exact Hall|]. split.
  - intros i j Hnz.
    destruct (decide (offset row col = offset i j)) as [E|Hne].
    + unfold cell in *. rewrite <- E in *. symmetry. exact Hx.
    + rewrite cell_store_other in Hnz |- * by exact Hne. apply Hkeep. exact Hnz.
  - intros i j Hij Hz Hnz. apply Hfills; [exact Hij| |exact Hnz].
    destruct (decide (offset row col = offset i j)) as [E|Hne].
    + exfalso. unfold cell in *. rewrite <- E in *. rewrite Hx in Hz.
      apply (Hall row col Hg). unfold cell. exact Hz.
    + rewrite cell_store_other in Hz by exact Hne. exact Hz.
Qed.

Lemma try_candidates_complete call row col k startV w b0 sol h :
  in_grid row col -> length b0 = 81%nat -> cell b0 row col = 0 ->
  completion b0 sol ->
  (forall w1 v, 0 <= v <= 9 -> exists r w2, call w1 v = Ret r w2) ->
  (forall w1 v w2, call w1 v = Ret false w2 -> board w2 = board w1) ->
  (forall w1 v, 0 <= v <= 9 -> length (board w1) = 81%nat ->
                completion (board w1) sol ->
                exists w2, call w1 v = Ret true w2) ->
  0 <= startV <= 9 ->
  board w = store b0 row col h -> h <> cell sol row col ->
  (exists j, (1 <= j <= k)%nat /\ rotate j startV = cell sol row col) ->
  exists w', try_candidates call row col k startV w = Ret true w'.
Proof.
  intros Hg Hlen H0 Hsol Hret Hfail Hsucc.
  revert startV w h. induction k as [|k IH];
    intros startV w h Hs Hw Hh (j & Hj & Hrot); [lia|].
  cbn [try_candidates].
  destruct (Z.eqb_spec startV INT_MAX) as [E|_]; [unfold INT_MAX in E; lia|].
  pose proof (next_guess_range startV Hs) as Hc.
  set (cand := next_guess startV) in *.
  cbn [board record].
  assert (Hb1 : board (write (record (Tested row col cand (cell (board w) row col)) w)
                         row col cand) = store b0 row col cand).
  { cbn [board write record]. rewrite Hw. apply store_store. }
  destruct (decide (cand = cell sol row col)) as [Ec|Ec].
  - rewrite Hw, Ec. rewrite completion_digit_is_valid by assumption.
    rewrite <- Ec.
    destruct (Hsucc (write (record (Tested row col cand (cell (store b0 row col h) row col)) w)
                       row col cand) cand) as (w2 & Hrun).
    + lia.
    + cbn [board write record]. rewrite !store_length. rewrite Hw, store_length. exact Hlen.
    + cbn [board write record]. rewrite Hw, store_store, Ec.
      apply completion_after_store; assumption.
    + rewrite <- Hw in Hrun at 1. rewrite <- Hw. rewrite Hrun. eauto.
  - assert (Hnext : exists j', (1 <= j' <= k)%nat /\
                               rotate j' cand = cell sol row col).
    { destruct j as [|j]; [lia|]. rewrite rotate_shift in Hrot. fold cand in Hrot.
      destruct j as [|j]; [cbn in Hrot; contradiction|].
      exists (S j). split; [lia|exact Hrot]. }
    destruct (isValid cand (board w) row col).
    + destruct (Hret (write (record (Tested row col cand (cell (board w) row col)) w)
                        row col cand) cand) as (r & w2 & Hrun); [lia|].
      rewrite Hrun. destruct r; [eauto|].
      apply (IH cand w2 cand); [lia| |exact Ec|exact Hnext].
      rewrite (Hfail _ _ _ Hrun). exact Hb1.
    + apply (IH cand _ h); [lia|exact Hw|exact Hh|exact Hnext].
Qed.

Lemma sudokuHelper_complete fuel w row col startV nTimes sol :
  in_grid row col -> length (board w) = 81%nat ->
  0 <= startV <= 9 -> 0 <= nTimes <= BOARDSIZE ->
  BOARDSIZE - nTimes < Z.of_nat fuel ->
  completion (board w) sol ->
  exists w', sudokuHelper never_finished fuel w row col startV nTimes
             = Ret true w'.
Proof.
  unfold BOARDSIZE. revert w row col startV nTimes.
  induction fuel as [|fuel IH];
    intros w row col startV nTimes Hg Hlen Hs Hn Hfuel Hsol; [lia|].
  rewrite sudokuHelper_eq. cbv zeta. unfold never_finished at 1.
  destruct (Z.eqb_spec BOARDSIZE nTimes) as [E|E]; [eauto|]. unfold BOARDSIZE in E.
  pose proof (advance_in_grid row col Hg) as Hg'.
  rewrite (proj2 (in_gridb_spec _ _) Hg'). cbn [negb].
  set (rr := (advance row col).1) in *. set (cc := (advance row col).2) in *.
  assert (Hm : (nTimes =? INT_MAX) = false)
    by (apply Z.eqb_neq; unfold INT_MAX; lia).
  assert (Hret : forall w1 v, 0 <= v <= 9 ->
            exists r w2, recurse never_finished fuel rr cc nTimes w1 v = Ret r w2).
  { intros w1 v Hv. unfold recurse. rewrite Hm.
    apply sudokuHelper_returns; [exact Hg'|exact Hv|unfold BOARDSIZE; lia|unfold BOARDSIZE; lia]. }
  assert (Hfail : forall w1 v w2,
            recurse never_finished fuel rr cc nTimes w1 v = Ret false w2 ->
            board w2 = board w1).
  { intros w1 v w2 H. unfold recurse in H. rewrite Hm in H.
    apply sudokuHelper_restores in H. apply H. }
  assert (Hsucc : forall w1 v, 0 <= v <= 9 -> length (board w1) = 81%nat ->
            completion (board w1) sol ->
            exists w2, recurse never_finished fuel rr cc nTimes w1 v = Ret true w2).
  { intros w1 v Hv Hl1 Hc1. unfold recurse. rewrite Hm.
    apply (IH w1 rr cc v (nTimes + 1)); [exact Hg'|exact Hl1|exact Hv|lia|lia|exact Hc1]. }
  destruct (Z.eqb_spec 0 (cell (board w) rr cc)) as [E0|E0]; cbn [negb].
  - destruct Hsol as (Hall & Hkeep & Hfills).
    destruct (Hfills rr cc Hg' (eq_sym E0) (Hall rr cc Hg')) as [Hd _].
    apply (try_candidates_complete _ rr cc _ startV _ (board w) sol 0);
      try assumption.
    + symmetry. exact E0.
    + split; [exact Hall|]. split; assumption.
    + cbn [board record rwlock_unlock probed rwlock_rdlock].
      symmetry. apply store_zero_id. symmetry. exact E0.
    + lia.
    + change (Z.to_nat GRIDSIZE) with 9%nat. apply rotate_reaches; assumption.
  - apply Hsucc; [exact Hs|exact Hlen|exact Hsol].
Qed.

(** ** Lengths, digits and locks along a search *)

Lemma try_candidates_length call row col k startV w r w' :
  (forall w1 v r1 w2, call w1 v = Ret r1 w2 ->
                      length (board w2) = length (board w1)) ->
  try_candidates call row col k startV w = Ret r w' ->
  length (board w') = length (board w).
Proof.
  intros Hcall. revert startV w. induction k as [|k IH]; intros startV w H.
  - cbn in H. injection H as <- <-. cbn. apply store_length.
  - cbn [try_candidates] in H.
    destruct (startV =? INT_MAX); [discriminate|].
    destruct (isValid _ _ _ _).
    + destruct (call _ _) as [r1 w2| |] eqn:Ec; try discriminate.
      apply Hcall in Ec. cbn [board write record] in Ec.
      rewrite store_length in Ec. destruct r1.
      * injection H as <- <-. exact Ec.
      * apply IH in H. congruence.
    + apply IH in H. exact H.
Qed.

Lemma sudokuHelper_length g fuel w row col startV nTimes r w' :
  sudokuHelper g fuel w row col startV nTimes = Ret r w' ->
  length (board w') = length (board w).
Proof.
  revert w row col startV nTimes r w'.
  induction fuel as [|fuel IH]; intros w row col startV nTimes r w' H;
    [discriminate|].
  assert (Hrec : forall rr cc w1 v r1 w2,
             recurse g fuel rr cc nTimes w1 v = Ret r1 w2 ->
             length (board w2) = length (board w1)).
  { intros rr cc w1 v r1 w2. unfold recurse.
    destruct (nTimes =? INT_MAX); [discriminate|]. apply IH. }
  rewrite sudokuHelper_eq in H. cbv zeta in H.
  destruct (g (probes w)); [injection H as <- <-; reflexivity|].
  destruct (BOARDSIZE =? nTimes); [injection H as <- <-; reflexivity|].
  destruct (negb (in_gridb _ _)); [discriminate|].
  destruct (negb (0 =? _)).
  - apply Hrec in H. exact H.
  - apply try_candidates_length in H; [exact H|apply Hrec].
Qed.

Lemma store_digit puzzle row col v :
  is_digit v -> Forall is_digit puzzle -> Forall is_digit (store puzzle row col v).
Proof. intros Hv Hp. unfold store. apply Forall_insert; assumption. Qed.

Lemma try_candidates_digits call row col k startV w r w' :
  (forall w1 v r1 w2, 0 <= v <= 9 -> Forall is_digit (board w1) ->
                      call w1 v = Ret r1 w2 -> Forall is_digit (board w2)) ->
  0 <= startV <= 9 -> Forall is_digit (board w) ->
  try_candidates call row col k startV w = Ret r w' ->
  Forall is_digit (board w').
Proof.
  intros Hcall. revert startV w. induction k as [|k IH]; intros startV w Hs Hd H.
  - cbn in H. injection H as <- <-. cbn. apply store_digit; [unfold is_digit; lia|exact Hd].
  - cbn [try_candidates] in H.
    destruct (startV =? INT_MAX); [discriminate|].
    pose proof (next_guess_range startV Hs) as Hc.
    destruct (isValid _ _ _ _).
    + destruct (call _ _) as [r1 w2| |] eqn:Ec; try discriminate.
      apply Hcall in Ec; [|lia|cbn; apply store_digit; [unfold is_digit; lia|exact Hd]].
      destruct r1.
      * injection H as <- <-. exact Ec.
      * eapply IH in H; [exact H|lia|exact Ec].
    + eapply IH in H; [exact H|lia|exact Hd].
Qed.

Lemma sudokuHelper_digits g fuel w row col startV nTimes r w' :
  0 <= startV <= 9 -> Forall is_digit (board w) ->
  sudokuHelper g fuel w row col startV nTimes = Ret r w' ->
  Forall is_digit (board w').
Proof.
  revert w row col startV nTimes r w'.
  induction fuel as [|fuel IH]; intros w row col startV nTimes r w' Hs Hd H;
    [discriminate|].
  assert (Hrec : forall rr cc w1 v r1 w2, 0 <= v <= 9 ->
             Forall is_digit (board w1) ->
             recurse g fuel rr cc nTimes w1 v = Ret r1 w2 ->
             Forall is_digit (board w2)).
  { intros rr cc w1 v r1 w2 Hv Hd1. unfold recurse.
    destruct (nTimes =? INT_MAX); [discriminate|]. apply IH; assumption. }
  rewrite sudokuHelper_eq in H. cbv zeta in H.
  destruct (g (probes w)); [injection H as <- <-; exact Hd|].
  destruct (BOARDSIZE =? nTimes); [injection H as <- <-; exact Hd|].
  destruct (negb (in_gridb _ _)); [discriminate|].
  destruct (negb (0 =? _)).
  - eapply Hrec in H; [exact H|exact Hs|exact Hd].
  - eapply try_candidates_digits in H; [exact H|apply Hrec|exact Hs|exact Hd].
Qed.

Lemma try_candidates_lock g call row col k startV w r w' :
  (forall w1 v r1 w2, call w1 v = Ret r1 w2 -> lock_account g w1 r1 w2) ->
  try_candidates call row col k startV w = Ret r w' ->
  lock_account g w r w'.
Proof.
  intros Hcall. revert startV w. induction k as [|k IH]; intros startV w H.
  - cbn in H. injection H as <- <-. split; cbn; [lia|]. left. split; [reflexivity|].
    intros k0 Hk0. lia.
  - cbn [try_candidates] in H.
    destruct (startV =? INT_MAX); [discriminate|].
    destruct (isValid _ _ _ _).
    + destruct (call _ _) as [r1 w2| |] eqn:Ec; try discriminate.
      apply Hcall in Ec. destruct Ec as [Hle Hacc].
      cbn [probes rdlocks write record] in Hle, Hacc.
      destruct r1.
      * injection H as <- <-. split; assumption.
      * destruct Hacc as [[Hl Hz]|(Hr & _)]; [|discriminate].
        apply IH in H. destruct H as [Hle2 Hacc2]. split; [lia|].
        destruct Hacc2 as [[Hl2 Hz2]|(Hr2 & Hl2 & Hlt2 & Hg2)].
        -- left. split; [congruence|]. intros k0 Hk0.
           destruct (decide (k0 < probes w2)%nat); [apply Hz|apply Hz2]; lia.
        -- right. split; [exact Hr2|]. split; [congruence|]. split; [lia|exact Hg2].
    + apply IH in H. exact H.
Qed.

Lemma sudokuHelper_lock g fuel w row col startV nTimes r w' :
  sudokuHelper g fuel w row col startV nTimes = Ret r w' ->
  lock_account g w r w'.
Proof.
  revert w row col startV nTimes r w'.
  induction fuel as [|fuel IH]; intros w row col startV nTimes r w' H;
    [discriminate|].
  assert (Hrec : forall rr cc w1 v r1 w2,
             recurse g fuel rr cc nTimes w1 v = Ret r1 w2 ->
             lock_account g w1 r1 w2).
  { intros rr cc w1 v r1 w2. unfold recurse.
    destruct (nTimes =? INT_MAX); [discriminate|]. apply IH. }
  rewrite sudokuHelper_eq in H. cbv zeta in H.
  destruct (g (probes w)) eqn:Eg.
  { injection H as <- <-. split; cbn; [lia|]. right.
    split; [reflexivity|]. split; [reflexivity|]. split; [lia|exact Eg]. }
  assert (Hafter : forall w3, probes w3 = S (probes w) -> rdlocks w3 = rdlocks w ->
            lock_account g w3 r w' -> lock_account g w r w').
  { intros w3 Hp3 Hl3 [Hle Hacc]. split; [lia|].
    destruct Hacc as [[Hl Hz]|(Hr & Hl & Hlt & Hg)].
    - left. split; [congruence|]. intros k0 Hk0.
      destruct (decide (k0 = probes w)) as [->|Hne]; [exact Eg|apply Hz; lia].
    - right. split; [exact Hr|]. split; [congruence|]. split; [lia|exact Hg]. }
  destruct (BOARDSIZE =? nTimes).
  { injection H as <- <-. split; cbn; [lia|]. left. split; [reflexivity|].
    intros k0 Hk0. assert (k0 = probes w) as -> by lia. exact Eg. }
  destruct (negb (in_gridb _ _)); [discriminate|].
  destruct (negb (0 =? _)).
  - apply Hrec in H. eapply Hafter; [| |exact H]; reflexivity.
  - apply try_candidates_lock with (g := g) in H; [|apply Hrec].
    eapply Hafter; [| |exact H]; reflexivity.
Qed.

(** ** Boards as lists *)

Lemma boards_equal a b :
  length a = 81%nat -> length b = 81%nat ->
  (forall row col, in_grid row col -> cell a row col = cell b row col) ->
  a = b.
Proof.
  intros Ha Hb Hcell. apply list_eq. intros i.
  destruct (decide (i < 81)%nat) as [Hlt|Hge].
  - assert (Hg : in_grid (Z.of_nat i / 9) (Z.of_nat i mod 9)).
    { unfold in_grid, GRIDSIZE. split.
      - split; [apply Z.div_pos; lia|apply Z.div_lt_upper_bound; lia].
      - apply Z.mod_pos_bound. lia. }
    assert (Ho : offset (Z.of_nat i / 9) (Z.of_nat i mod 9) = i).
    { unfold offset, GRIDSIZE.
      pose proof (Z.div_mod (Z.of_nat i) 9 ltac:(lia)). lia. }
    specialize (Hcell _ _ Hg). unfold cell in Hcell. rewrite Ho in Hcell.
    destruct (lookup_lt_is_Some_2 a i ltac:(lia)) as [x Hx].
    destruct (lookup_lt_is_Some_2 b i ltac:(lia)) as [y Hy].
    rewrite Hx, Hy in Hcell |- *. cbn in Hcell. congruence.
  - rewrite !(proj2 (lookup_ge_None _ _)) by lia. reflexivity.
Qed.

Lemma keeps_givens_lookup a b :
  (forall i, default 0 (a !! i) <> 0 -> default 0 (b !! i) = default 0 (a !! i)) ->
  keeps_givens a b.
Proof. intros H row col. apply H. Qed.

(** ** The board with two blanks *)

Lemma two_blanks_completion : completion two_blanks solved_grid.
Proof.
  split; [exact solved_grid_filled|]. split.
  - apply keeps_givens_lookup. intros i.
    do 81 (destruct i as [|i]; [vm_compute; congruence|]).
    intros H. exfalso. apply H. reflexivity.
  - intros row col [Hr Hc] Hz _. unfold GRIDSIZE in *.
    each_digit Hr; each_digit Hc; vm_compute in Hz; try discriminate;
      (split; [vm_compute; split; discriminate|]);
      intros row' col' [Hr' Hc'] Hp Hne; unfold GRIDSIZE in *;
      each_digit Hr'; each_digit Hc';
      first [vm_compute; discriminate
            |exfalso; apply Hne; reflexivity
            |exfalso; vm_compute in Hp; lia].
Qed.

Lemma two_blanks_unique sol :
  completion two_blanks sol -> length sol = 81%nat -> sol = solved_grid.
Proof.
  intros (Hall & Hkeep & Hfills) Hlen.
  assert (Hg02 : in_grid 0 2) by (apply in_grid_intro; lia).
  assert (Hg44 : in_grid 4 4) by (apply in_grid_intro; lia).
  destruct (Hfills 0 2 Hg02 eq_refl (Hall 0 2 Hg02)) as [Hd02 Hp02].
  destruct (Hfills 4 4 Hg44 eq_refl (Hall 4 4 Hg44)) as [Hd44 Hp44].
  assert (Hrow0 : forall j v, 0 <= j < 9 -> j <> 2 ->
            cell two_blanks 0 j = v -> v <> 0 -> v <> cell sol 0 2).
  { intros j v Hj Hne <- Hv. rewrite <- (Hkeep 0 j Hv).
    apply Hp02; [apply in_grid_intro; lia|left; reflexivity|congruence]. }
  assert (Hrow4 : forall j v, 0 <= j < 9 -> j <> 4 ->
            cell two_blanks 4 j = v -> v <> 0 -> v <> cell sol 4 4).
  { intros j v Hj Hne <- Hv. rewrite <- (Hkeep 4 j Hv).
    apply Hp44; [apply in_grid_intro; lia|left; reflexivity|congruence]. }
  assert (E02 : cell sol 0 2 = 4).
  { pose proof (Hrow0 0 5 ltac:(lia) ltac:(lia) eq_refl ltac:(lia)).
    pose proof (Hrow0 1 3 ltac:(lia) ltac:(lia) eq_refl ltac:(lia)).
    pose proof (Hrow0 3 6 ltac:(lia) ltac:(lia) eq_refl ltac:(lia)).
    pose proof (Hrow0 4 7 ltac:(lia) ltac:(lia) eq_refl ltac:(lia)).
    pose proof (Hrow0 5 8 ltac:(lia) ltac:(lia) eq_refl ltac:(lia)).
    pose proof (Hrow0 6 9 ltac:(lia) ltac:(lia) eq_refl ltac:(lia)).
    pose proof (Hrow0 7 1 ltac:(lia) ltac:(lia) eq_refl ltac:(lia)).
    pose proof (Hrow0 8 2 ltac:(lia) ltac:(lia) eq_refl ltac:(lia)).
    lia. }
  assert (E44 : cell sol 4 4 = 5).
  { pose proof (Hrow4 0 4 ltac:(lia) ltac:(lia) eq_refl ltac:(lia)).
    pose proof (Hrow4 1 2 ltac:(lia) ltac:(lia) eq_refl ltac:(lia)).
    pose proof (Hrow4 2 6 ltac:(lia) ltac:(lia) eq_refl ltac:(lia)).
    pose proof (Hrow4 3 8 ltac:(lia) ltac:(lia) eq_refl ltac:(lia)).
    pose proof (Hrow4 5 3 ltac:(lia) ltac:(lia) eq_refl ltac:(lia)).
    pose proof (Hrow4 6 7 ltac:(lia) ltac:(lia) eq_refl ltac:(lia)).
    pose proof (Hrow4 7 9 ltac:(lia) ltac:(lia) eq_refl ltac:(lia)).
    pose proof (Hrow4 8 1 ltac:(lia) ltac:(lia) eq_refl ltac:(lia)).
    lia. }
  apply boards_equal; [exact Hlen|reflexivity|].
  intros row col [Hr Hc]. unfold GRIDSIZE in *.
  each_digit Hr; each_digit Hc;
    first [exact E02|exact E44
          |rewrite Hkeep; [reflexivity|vm_compute; discriminate]].
Qed.

(** ** The scan and the rotation *)

Lemma walk_distinct row col j k :
  in_grid row col -> (j < k)%nat -> (k - j < 81)%nat ->
  walk j row col <> walk k row col.
Proof.
  intros Hg Hjk Hd E.
  destruct (walk_position j row col Hg) as [_ Hj].
  destruct (walk_position k row col Hg) as [_ Hk].
  rewrite E in Hj. rewrite Hj in Hk. clear E Hj.
  assert (H81 : (Z.of_nat k - Z.of_nat j) mod 81 = 0).
  { replace (Z.of_nat k - Z.of_nat j)
      with ((9 * row + col + Z.of_nat k) - (9 * row + col + Z.of_nat j)) by lia.
    rewrite Zminus_mod, <- Hk, Z.sub_diag. reflexivity. }
  rewrite Z.mod_small in H81 by lia. lia.
Qed.

Lemma walk_returns row col : in_grid row col -> walk 81 row col = (row, col).
Proof.
  intros Hg. destruct (walk_position 81 row col Hg) as [Hgw Hp].
  replace (9 * row + col + Z.of_nat 81) with (9 * row + col + 1 * 81) in Hp by lia.
  rewrite Z.mod_add in Hp by lia.
  destruct Hg as [Hr Hc]. unfold GRIDSIZE in *.
  rewrite Z.mod_small in Hp by lia.
  destruct (walk 81 row col) as [a b]. cbn [fst snd] in *.
  destruct Hgw as [Ha Hb]. unfold GRIDSIZE in *. f_equal; lia.
Qed.

Lemma rotate_in_range j startV :
  0 <= startV <= 9 -> (1 <= j)%nat -> 1 <= rotate j startV <= 9.
Proof.
  intros Hs Hj. destruct j as [|j]; [lia|]. clear Hj.
  induction j as [|j IH]; cbn [rotate] in *.
  - apply next_guess_range. exact Hs.
  - apply next_guess_range. lia.
Qed.

Lemma rotate_add j k x : rotate (j + k) x = rotate k (rotate j x).
Proof.
  induction k as [|k IH]; [rewrite Nat.add_0_r; reflexivity|].
  rewrite Nat.add_succ_r. cbn [rotate]. rewrite IH. reflexivity.
Qed.

Lemma rotate_distinct j k startV :
  (j < k)%nat -> (k - j <= 8)%nat -> rotate j startV <> rotate k startV.
Proof.
  intros Hjk Hd E. replace k with (j + (k - j))%nat in E by lia.
  rewrite rotate_add in E. symmetry in E. revert E. apply rotate_neq. lia.
Qed.

(** ** isValid and the content of the target cell *)

Lemma cell_after_store puzzle row col v i j number :
  in_grid row col -> in_grid i j ->
  cell puzzle row col <> number -> v <> number -> number <> 0 ->
  cell (store puzzle row col v) i j = number <-> cell puzzle i j = number.
Proof.
  intros Hg Hg' Hheld Hv Hn.
  destruct (decide ((i, j) = (row, col))) as [E|Hne].
  - injection E as -> ->.
    destruct (cell_store_same_or_zero puzzle row col v) as [E|E];
      rewrite E; split; intros H; congruence.
  - rewrite cell_store_other; [reflexivity|].
    apply in_grid_offset_neq; assumption.
Qed.

Lemma isValid_after_store number puzzle row col v :
  in_grid row col -> cell puzzle row col <> number -> v <> number ->
  number <> 0 ->
  isValid number (store puzzle row col v) row col
  = isValid number puzzle row col.
Proof.
  intros Hg Hheld Hv Hn.
  assert (Hiff : isValid number (store puzzle row col v) row col = false <->
                 isValid number puzzle row col = false).
  { rewrite !isValid_false_iff by exact Hg.
    unfold occurs_in_row, occurs_in_column, occurs_in_block.
    destruct Hg as [Hr Hc].
    assert (Hcell : forall i j, 0 <= i < GRIDSIZE -> 0 <= j < GRIDSIZE ->
              (cell (store puzzle row col v) i j = number <->
               cell puzzle i j = number)).
    { intros i j Hi Hj.
      apply cell_after_store; try assumption; split; assumption. }
    split.
    - intros [(j & Hj & H)|[(i & Hi & H)|(i & j & [Hi Hj] & Hq & H)]].
      + left. exists j. split; [exact Hj|]. apply Hcell; assumption.
      + right. left. exists i. split; [exact Hi|]. apply Hcell; assumption.
      + right. right. exists i, j. split; [split; assumption|].
        split; [exact Hq|]. apply Hcell; assumption.
    - intros [(j & Hj & H)|[(i & Hi & H)|(i & j & [Hi Hj] & Hq & H)]].
      + left. exists j. split; [exact Hj|]. apply Hcell; assumption.
      + right. left. exists i. split; [exact Hi|]. apply Hcell; assumption.
      + right. right. exists i, j. split; [split; assumption|].
        split; [exact Hq|]. apply Hcell; assumption. }
  destruct (isValid number (store puzzle row col v) row col),
           (isValid number puzzle row col); try reflexivity.
  - apply Hiff. reflexivity.
  - symmetry. apply Hiff. reflexivity.
Qed.

(** ** buffSudoku on any board and any time *)

Lemma fmt_d_not_NUL v : Forall (fun c => c <> NUL) (fmt_d v).
Proof.
  unfold fmt_d. destruct (v <? 0).
  - constructor; [discriminate|apply decimal_not_NUL].
  - apply decimal_not_NUL.
Qed.

Lemma cells_text_no_NUL cells : Forall (fun c => c <> NUL) (cells_text cells).
Proof.
  unfold cells_text. induction cells as [|v cells IH]; [constructor|].
  cbn [map concat]. rewrite <- app_assoc. apply Forall_app.
  split; [apply fmt_d_not_NUL|]. constructor; [discriminate|exact IH].
Qed.

Lemma serialized_not_NUL puzzle timeo :
  Forall (fun c => c <> NUL) (serialized puzzle timeo).
Proof.
  unfold serialized. apply Forall_app. split; [apply cells_text_no_NUL|].
  apply Forall_app. split; [apply fmt_f_not_NUL|].
  constructor; [discriminate|constructor].
Qed.

(** One call [snprintf(buff2 + cx, 256 - cx, ...)] of [buffSudoku]. *)
Lemma snprintf_written T buf text :
  written T buf -> (length T <= 256)%nat -> text <> [] ->
  exists buf',
    snprintf buf (Z.of_nat (length T)) (256 - Z.of_nat (length T)) text
    = Some (buf', Z.of_nat (length text)) /\
    written (T ++ text) buf'.
Proof.
  intros [Hlen Hbuf] HT Htext. unfold snprintf.
  destruct (Z.ltb_spec (256 - Z.of_nat (length T)) 0) as [H|_]; [lia|].
  destruct (Z.eqb_spec (256 - Z.of_nat (length T)) 0) as [Hfull|Hroom].
  - exists buf. split; [reflexivity|]. split; [exact Hlen|]. right.
    destruct Hbuf as [->|(rest & ->)]; [cbn [length] in Hfull; lia|].
    exists rest. rewrite take_app_le by lia. reflexivity.
  - eexists. split; [reflexivity|].
    set (n := Nat.min (length text) (Z.to_nat (256 - Z.of_nat (length T) - 1))).
    assert (Hn : n = Nat.min (length text) (255 - length T)) by (unfold n; lia).
    assert (Hpre : take (length T) buf = T).
    { destruct Hbuf as [->|(rest & ->)]; [reflexivity|].
      rewrite (take_ge T) by lia. rewrite take_app_length. reflexivity. }
    unfold poke. rewrite Nat2Z.id, Hpre. split.
    + rewrite !length_app, length_take, length_drop. cbn [length]. lia.
    + right. eexists. rewrite take_app, (take_ge T) by lia.
      rewrite <- !app_assoc. f_equal. cbn [app].
      replace (take n text) with (take (255 - length T) text); [reflexivity|].
      rewrite Hn. destruct (Nat.le_ge_cases (length text) (255 - length T)).
      * rewrite Nat.min_l by lia. rewrite !take_ge by lia. reflexivity.
      * rewrite Nat.min_r by lia. reflexivity.
Qed.

Lemma snprintf_outside buf cx text :
  256 < cx -> snprintf buf cx (256 - cx) text = None.
Proof.
  intros H. unfold snprintf.
  destruct (Z.ltb_spec (256 - cx) 0); [reflexivity|lia].
Qed.

Lemma snprintf_returns_length buf cx size text buf' dx :
  snprintf buf cx size text = Some (buf', dx) -> dx = Z.of_nat (length text).
Proof.
  unfold snprintf. destruct (size <? 0); [discriminate|].
  destruct (size =? 0); intros [= _ <-]; reflexivity.
Qed.

Lemma cells_text_snoc cells v :
  cells_text (cells ++ [v]) = cells_text cells ++ fmt_d v ++ [SPACE].
Proof.
  rewrite cells_text_app. unfold cells_text at 2. cbn [map concat].
  rewrite app_nil_r. reflexivity.
Qed.

Lemma cells_text_one v cells :
  cells_text (v :: cells) = (fmt_d v ++ [SPACE]) ++ cells_text cells.
Proof. reflexivity. Qed.

(** The inner loop: the count [cx] is the length of all the text asked
    for, and the loop is defined as long as that count stays within 256
    before each call. *)
Lemma print_row_cx k i j puzzle buf cx buf' cx' :
  print_row k i j puzzle buf cx = Some (buf', cx') ->
  cx' = cx + Z.of_nat (length (cells_text (row_cells k i j puzzle))).
Proof.
  revert j buf cx. induction k as [|k IH]; intros j buf cx.
  - cbn [print_row row_cells]. intros [= _ <-]. cbn. lia.
  - cbn [print_row row_cells].
    destruct (snprintf _ _ _ _) as [[buf1 dx]|] eqn:E; [|discriminate].
    apply snprintf_returns_length in E. intros H. apply IH in H.
    rewrite cells_text_one, length_app. lia.
Qed.

Lemma print_rows_cx k i puzzle buf cx buf' cx' :
  print_rows k i puzzle buf cx = Some (buf', cx') ->
  cx' = cx + Z.of_nat (length (cells_text (grid_cells k i puzzle))).
Proof.
  revert i buf cx. induction k as [|k IH]; intros i buf cx.
  - cbn [print_rows grid_cells]. intros [= _ <-]. cbn. lia.
  - cbn [print_rows grid_cells].
    destruct (print_row _ _ _ _ _ _) as [[buf1 cx1]|] eqn:E; [|discriminate].
    apply print_row_cx in E. intros H. apply IH in H.
    rewrite cells_text_app, length_app. lia.
Qed.

Lemma print_row_written k i j puzzle T buf :
  written T buf ->
  (length (T ++ cells_text (row_cells k i j puzzle)) <= 256)%nat ->
  exists buf',
    print_row k i j puzzle buf (Z.of_nat (length T))
    = Some (buf', Z.of_nat (length (T ++ cells_text (row_cells k i j puzzle))))
    /\ written (T ++ cells_text (row_cells k i j puzzle)) buf'.
Proof.
  revert j T buf. induction k as [|k IH]; intros j T buf Hw Hfit.
  - exists buf. cbn [print_row row_cells]. unfold cells_text. cbn [map concat].
    rewrite app_nil_r. split; [reflexivity|exact Hw].
  - cbn [print_row row_cells] in *. rewrite cells_text_one in *.
    rewrite !length_app in Hfit.
    destruct (snprintf_written T buf (fmt_d (cell puzzle i j) ++ [SPACE]) Hw)
      as (buf1 & -> & Hw1); [lia|intros E; destruct (fmt_d _); discriminate|].
    rewrite <- Nat2Z.inj_add, <- length_app.
    destruct (IH (j + 1) _ buf1 Hw1) as (buf2 & Hrun & Hw2).
    + rewrite !length_app. lia.
    + exists buf2. rewrite <- !app_assoc in *. split; assumption.
Qed.

Lemma print_rows_written k i puzzle T buf :
  written T buf ->
  (length (T ++ cells_text (grid_cells k i puzzle)) <= 256)%nat ->
  exists buf',
    print_rows k i puzzle buf (Z.of_nat (length T))
    = Some (buf', Z.of_nat (length (T ++ cells_text (grid_cells k i puzzle))))
    /\ written (T ++ cells_text (grid_cells k i puzzle)) buf'.
Proof.
  revert i T buf. induction k as [|k IH]; intros i T buf Hw Hfit.
  - exists buf. cbn [print_rows grid_cells]. unfold cells_text. cbn [map concat].
    rewrite app_nil_r. split; [reflexivity|exact Hw].
  - cbn [print_rows grid_cells] in *. rewrite cells_text_app in *.
    rewrite !length_app in Hfit.
    destruct (print_row_written (Z.to_nat GRIDSIZE) i 0 puzzle T buf Hw)
      as (buf1 & -> & Hw1); [rewrite length_app; lia|].
    destruct (IH (i + 1) _ buf1 Hw1) as (buf2 & Hrun & Hw2).
    + rewrite !length_app. lia.
    + exists buf2. rewrite <- !app_assoc in *. split; assumption.
Qed.

(** [buffSudoku] on any board of 81 cells and any time: it stays inside
    the 256 bytes exactly when the text of the cells has at most 256
    characters, and then the buffer holds the first 255 characters of the
    output and a NUL. *)
Lemma buffSudoku_written buff2 puzzle timeo :
  length buff2 = 256%nat -> length puzzle = 81%nat ->
  (length (cells_text puzzle) <= 256)%nat ->
  exists rest,
    buffSudoku buff2 puzzle timeo
    = Some (take 255 (serialized puzzle timeo) ++ NUL :: rest) /\
    length (take 255 (serialized puzzle timeo) ++ NUL :: rest) = 256%nat.
Proof.
  intros Hb Hp Hfit. unfold buffSudoku.
  destruct (print_rows_written (Z.to_nat GRIDSIZE) 0 puzzle [] buff2)
    as (buf1 & Hrun & Hw1).
  - split; [exact Hb|left; reflexivity].
  - rewrite grid_cells_all by exact Hp. exact Hfit.
  - cbn [app length] in Hrun, Hw1. change (Z.of_nat 0) with 0 in Hrun.
    rewrite grid_cells_all in Hrun, Hw1 by exact Hp. rewrite Hrun.
    destruct (snprintf_written _ buf1 (fmt_f timeo ++ [SPACE]) Hw1)
      as (buf2 & -> & Hlen & Hw2);
      [exact Hfit|intros E; destruct (fmt_f _); discriminate|].
    destruct Hw2 as [E|(rest & ->)].
    + exfalso. destruct (cells_text puzzle); [|discriminate].
      destruct (fmt_f timeo); discriminate.
    + exists rest. split; [reflexivity|exact Hlen].
Qed.

Lemma buffSudoku_outside buff2 puzzle timeo :
  length puzzle = 81%nat -> (256 < length (cells_text puzzle))%nat ->
  buffSudoku buff2 puzzle timeo = None.
Proof.
  intros Hp Hout. unfold buffSudoku.
  destruct (print_rows _ _ _ _ _) as [[buf cx]|] eqn:E; [|reflexivity].
  apply print_rows_cx in E. rewrite grid_cells_all in E by exact Hp.
  rewrite snprintf_outside by lia. reflexivity.
Qed.

Lemma c_string_take text rest :
  Forall (fun c => c <> NUL) text ->
  c_string (take 255 text ++ NUL :: rest) = take 255 text.
Proof. intros H. apply c_string_terminated, Forall_take, H. Qed.

Lemma parse_grid_take puzzle timeo :
  Forall is_digit puzzle -> length puzzle = 81%nat ->
  parse_grid (take 255 (serialized puzzle timeo)) = Some puzzle.
Proof.
  intros Hd Hp. unfold serialized. fold (cells_text puzzle).
  rewrite take_app_ge by (rewrite cells_text_length by exact Hd; lia).
  apply parse_grid_cells_text; assumption.
Qed.

(** The text of a number of three digits or more. *)
Lemma digits_from_grows fuel n acc :
  (length acc <= length (digits_from fuel n acc))%nat.
Proof.
  revert n acc. induction fuel as [|fuel IH]; intros n acc; cbn [digits_from].
  - lia.
  - destruct (n <? 10); [cbn [length]; lia|].
    etransitivity; [|apply IH]. cbn [length]. lia.
Qed.

Lemma decimal_wide n : 100 <= n -> (3 <= length (decimal n))%nat.
Proof.
  intros H. unfold decimal.
  assert (Hl : 6 <= Z.log2 n) by (apply Z.log2_le_pow2; lia).
  destruct (Z.to_nat (Z.log2 n)) as [|[|fuel]] eqn:E; [lia|lia|].
  cbn [digits_from].
  destruct (Z.ltb_spec n 10); [lia|].
  destruct (Z.ltb_spec (n / 10) 10) as [Hlt|_].
  { exfalso. assert (10 <= n / 10) by (apply Z.div_le_lower_bound; lia). lia. }
  destruct (_ <? 10); [cbn [length]; lia|].
  etransitivity; [|apply digits_from_grows]. cbn [length]. lia.
Qed.

Lemma fmt_d_wide v : 100 <= v \/ v <= -10 -> (3 <= length (fmt_d v))%nat.
Proof.
  intros [H|H]; unfold fmt_d.
  - destruct (Z.ltb_spec v 0); [lia|]. apply decimal_wide. exact H.
  - destruct (Z.ltb_spec v 0); [|lia]. cbn [length].
    assert (2 <= length (decimal (- v)))%nat; [|lia].
    unfold decimal.
    assert (Hl : 3 <= Z.log2 (- v)) by (apply Z.log2_le_pow2; lia).
    destruct (Z.to_nat (Z.log2 (- v))) as [|fuel] eqn:E; [lia|].
    cbn [digits_from]. destruct (Z.ltb_spec (- v) 10); [lia|].
    destruct (_ <? 10); [cbn [length]; lia|].
    etransitivity; [|apply digits_from_grows]. cbn [length]. lia.
Qed.

Lemma cells_text_wide cells :
  Forall (fun v => 100 <= v \/ v <= -10) cells ->
  (4 * length cells <= length (cells_text cells))%nat.
Proof.
  induction 1 as [|v cells Hv _ IH]; [cbn; lia|].
  rewrite cells_text_one, !length_app. cbn [length].
  pose proof (fmt_d_wide v Hv). lia.
Qed.

Lemma make_tasks_length rand_at guess_start k i thread_num puzzle drawn :
  length (make_tasks rand_at guess_start k i thread_num puzzle drawn) = k.
Proof.
  revert i drawn. induction k as [|k IH]; intros i drawn; [reflexivity|].
  cbn [make_tasks length]. rewrite IH. reflexivity.
Qed.

Lemma rem_9_in_grid a b : 0 <= a -> 0 <= b -> in_grid (Z.rem a 9) (Z.rem b 9).
Proof.
  intros Ha Hb. unfold in_grid, GRIDSIZE.
  pose proof (Z.rem_bound_pos a 9 Ha). pose proof (Z.rem_bound_pos b 9 Hb). lia.
Qed.

(** ** The locks that are never released *)

(** What a step of worker [i] leaves alone. *)
Lemma solveSudoku_step_frame i s s' :
  solveSudoku_step i s = Some s' ->
  main_at s <> MainExited /\
  (forall k, k <> i -> workers s' !! k = workers s !! k) /\
  (forall k, k <> i -> k ∈ readers s' <-> k ∈ readers s) /\
  (forall k, k <> i -> writer s = Some k -> writer s' = Some k) /\
  (g_finished s = true -> g_finished s' = true /\ flips s' = flips s).
Proof.
  intros Hstep. split; [eapply solveSudoku_step_alive; exact Hstep|].
  destruct (solveSudoku_step_cases _ _ _ Hstep) as (p & Hp & Hc). clear Hstep.
  assert (Hun : forall k, k <> i ->
            (k ∈ readers (rwunlock i s) <-> k ∈ readers s) /\
            (writer s = Some k -> writer (rwunlock i s) = Some k)).
  { intros k Hk. unfold rwunlock.
    destruct (decide (writer s = Some i)) as [E|E]; cbn.
    - split; [tauto|]. congruence.
    - split; [|auto]. rewrite elem_of_difference, elem_of_singleton. tauto. }
  assert (Hunw : forall k, workers (rwunlock i s) !! k = workers s !! k).
  { intros k. unfold rwunlock. destruct (decide _); reflexivity. }
  assert (Hunf : g_finished (rwunlock i s) = g_finished s /\
                 flips (rwunlock i s) = flips s).
  { unfold rwunlock. destruct (decide _); auto. }
  destruct p; try contradiction;
    try (unfold rdlock in Hc; destruct (writer s) eqn:Ew; [discriminate|];
         injection Hc as <-);
    try (unfold wrlock in Hc; destruct (writer s) eqn:Ew; [discriminate|];
         destruct (decide _); [|discriminate]; injection Hc as <-);
    try (unfold mutex_lock in Hc; destruct (mutex s) eqn:Em; [discriminate|];
         injection Hc as <-);
    try subst s'; try (unfold cond_signal; destruct (main_at s) eqn:Ema);
    cbn; repeat split; auto; try discriminate; try (apply Hun; assumption);
    try (intros; rewrite list_lookup_insert_ne by congruence;
         rewrite ?Hunw; reflexivity);
    try (rewrite elem_of_union, elem_of_singleton; tauto);
    try (destruct Hunf as [E1 E2]; rewrite ?E1, ?E2; auto; fail);
    try (match goal with H : g_finished s = true |- _ => rewrite H end;
         reflexivity).
Qed.

(** What a step of [main] or a wake-up leaves alone. *)
Lemma main_step_frame s s' :
  main_step s = Some s' \/ spurious_wakeup s = Some s' ->
  workers s' = workers s /\ readers s' = readers s /\ writer s' = writer s /\
  g_finished s' = g_finished s /\ flips s' = flips s /\
  reports s' = reports s.
Proof.
  unfold main_step, spurious_wakeup, mutex_lock. intros [H|H].
  - destruct (main_at s); try discriminate;
      try (destruct (mutex s); [discriminate|]);
      try (destruct (g_finished s) eqn:Eg);
      injection H as <-; cbn; rewrite ?Eg; auto 10.
  - destruct (main_at s); try discriminate. injection H as <-. cbn. auto 10.
Qed.

(** A worker that has returned holding the write lock keeps it. *)
Lemma write_lock_kept i s s' :
  rtc step s s' -> writer s = Some i -> workers s !! i = Some Returned ->
  writer s' = Some i /\ workers s' !! i = Some Returned.
Proof.
  induction 1 as [s|s s1 s' Hstep _ IH]; intros Hw Hi; [auto|].
  apply IH; clear IH.
  - inversion Hstep as [k ? ? Hs|? ? Hs|? ? Hs]; subst.
    + destruct (decide (k = i)) as [->|Hne].
      * destruct (solveSudoku_step_cases _ _ _ Hs) as (p & Hp & Hc).
        rewrite Hi in Hp. injection Hp as <-. contradiction.
      * apply (solveSudoku_step_frame _ _ _ Hs); auto.
    + destruct (main_step_frame s s1 (or_introl Hs)) as (_ & _ & -> & _).
      exact Hw.
    + destruct (main_step_frame s s1 (or_intror Hs)) as (_ & _ & -> & _).
      exact Hw.
  - inversion Hstep as [k ? ? Hs|? ? Hs|? ? Hs]; subst.
    + destruct (decide (k = i)) as [->|Hne].
      * destruct (solveSudoku_step_cases _ _ _ Hs) as (p & Hp & Hc).
        rewrite Hi in Hp. injection Hp as <-. contradiction.
      * destruct (solveSudoku_step_frame _ _ _ Hs) as (_ & Hk & _).
        rewrite Hk by congruence. exact Hi.
    + destruct (main_step_frame s s1 (or_introl Hs)) as (-> & _). exact Hi.
    + destruct (main_step_frame s s1 (or_intror Hs)) as (-> & _). exact Hi.
Qed.

(** A worker that waits for the write lock holding a read lock keeps
    waiting. *)
Lemma read_lock_kept i s s' :
  rtc step s s' -> i ∈ readers s -> workers s !! i = Some AtWrlock ->
  i ∈ readers s' /\ workers s' !! i = Some AtWrlock.
Proof.
  induction 1 as [s|s s1 s' Hstep _ IH]; intros Hr Hi; [auto|].
  assert (Hself : forall s2, solveSudoku_step i s = Some s2 -> False).
  { intros s2 Hs. destruct (solveSudoku_step_cases _ _ _ Hs) as (p & Hp & Hc).
    rewrite Hi in Hp. injection Hp as <-. unfold wrlock in Hc.
    destruct (writer s); [discriminate|].
    destruct (decide (readers s = ∅)) as [E|_]; [|discriminate].
    rewrite E in Hr. set_solver. }
  apply IH; clear IH.
  - inversion Hstep as [k ? ? Hs|? ? Hs|? ? Hs]; subst.
    + destruct (decide (k = i)) as [->|Hne]; [destruct (Hself _ Hs)|].
      apply (solveSudoku_step_frame _ _ _ Hs); auto.
    + destruct (main_step_frame s s1 (or_introl Hs)) as (_ & -> & _). exact Hr.
    + destruct (main_step_frame s s1 (or_intror Hs)) as (_ & -> & _). exact Hr.
  - inversion Hstep as [k ? ? Hs|? ? Hs|? ? Hs]; subst.
    + destruct (decide (k = i)) as [->|Hne]; [destruct (Hself _ Hs)|].
      destruct (solveSudoku_step_frame _ _ _ Hs) as (_ & Hk & _).
      rewrite Hk by congruence. exact Hi.
    + destruct (main_step_frame s s1 (or_introl Hs)) as (-> & _). exact Hi.
    + destruct (main_step_frame s s1 (or_intror Hs)) as (-> & _). exact Hi.
Qed.

Lemma blocked_by_writer i k s p :
  writer s = Some i -> workers s !! k = Some p ->
  p = AtWrlock \/ (exists more, p = AtRdlock more) ->
  solveSudoku_step k s = None.
Proof.
  intros Hw Hk Hp. unfold solveSudoku_step, rdlock, wrlock. rewrite Hk, Hw.
  destruct Hp as [->|(more & ->)]; destruct (main_at s); reflexivity.
Qed.

Lemma blocked_by_reader i k s :
  i ∈ readers s -> workers s !! k = Some AtWrlock ->
  solveSudoku_step k s = None.
Proof.
  intros Hr Hk. unfold solveSudoku_step, wrlock. rewrite Hk.
  destruct (writer s); [destruct (main_at s); reflexivity|].
  destruct (decide (readers s = ∅)) as [E|_];
    [rewrite E in Hr; set_solver|].
  destruct (main_at s); reflexivity.
Qed.

(** Once set, the latch stays set and the worker that set it stays the
    same. *)
Lemma latch_kept s s' :
  rtc step s s' -> g_finished s = true ->
  g_finished s' = true /\ flips s' = flips s.
Proof.
  induction 1 as [s|s s1 s' Hstep _ IH]; intros Hf; [auto|].
  assert (H1 : g_finished s1 = true /\ flips s1 = flips s).
  { inversion Hstep as [k ? ? Hs|? ? Hs|? ? Hs]; subst.
    - apply (solveSudoku_step_frame _ _ _ Hs). exact Hf.
    - destruct (main_step_frame s s1 (or_introl Hs)) as (_ & _ & _ & -> & -> & _).
      auto.
    - destruct (main_step_frame s s1 (or_intror Hs)) as (_ & _ & _ & -> & -> & _).
      auto. }
  destruct H1 as [Hf1 E1]. destruct (IH Hf1) as [Hf' E']. split; congruence.
Qed.

(** ** A run that ends before the report *)

Lemma no_step_after_exit s s' : main_at s = MainExited -> ~ step s s'.
Proof.
  intros E H. inversion H as [i ? ? Hs|? ? Hs|? ? Hs]; subst.
  - apply solveSudoku_step_alive in Hs. contradiction.
  - unfold main_step in Hs. rewrite E in Hs. discriminate.
  - unfold spurious_wakeup in Hs. rewrite E in Hs. discriminate.
Qed.

(** The probes of worker 0 when it runs alone. *)
Lemma worker_0_searches ws more :
  rtc step
    (System false ∅ None None [] [] MainAtLock (AtRdlock more :: ws))
    (System false ∅ None None [] [] MainAtLock (AtWrlock :: ws)).
Proof.
  induction more as [|more IH].
  - eapply rtc_l; [apply (step_worker 0); reflexivity|].
    eapply rtc_l; [apply (step_worker 0); reflexivity|].
    eapply rtc_l; [apply (step_worker 0); reflexivity|].
    apply rtc_refl.
  - eapply rtc_l; [apply (step_worker 0); reflexivity|].
    eapply rtc_l; [apply (step_worker 0); reflexivity|].
    eapply rtc_l; [apply (step_worker 0); reflexivity|].
    exact IH.
Qed.

Lemma run_to_exit_before_report ws :
  rtc step
    (System false ∅ None None [] [] MainAtLock (AtWrlock :: ws))
    (exited_before_report ws).
Proof.
  do 5 (eapply rtc_l; [apply (step_worker 0); reflexivity|]).
  do 3 (eapply rtc_l; [apply step_main; reflexivity|]).
  apply rtc_refl.
Qed.

(** ** The signal is not lost *)

Lemma wakeup_pending_solveSudoku_step i s s' :
  invariant s -> wakeup_pending s -> solveSudoku_step i s = Some s' ->
  wakeup_pending s'.
Proof.
  intros Hinv HQ Hstep.
  destruct (solveSudoku_step_cases _ _ _ Hstep) as (p & Hi & Hc). clear Hstep.
  pose proof (inv_places _ Hinv _ _ Hi) as Hok.
  assert (Hlt : (i < length (workers s))%nat) by (eapply lookup_lt_Some; eauto).
  (* the worker found by [wakeup_pending s], when [i] is not at a pending
     place or is another worker *)
  assert (Hother : forall s0 p',
            main_at s0 = main_at s -> g_finished s0 = g_finished s ->
            flips s0 = flips s -> workers s0 = workers s ->
            (reports s0 = reports s \/ p = AtReport) ->
            (forall w, pending s w p -> pending (move i p' s0) w p') ->
            wakeup_pending (move i p' s0)).
  { intros s0 p' Em Eg Ef Ew Er Hp' Hm Hg. cbn in Hm, Hg.
    rewrite Em in Hm. rewrite Eg in Hg.
    destruct (HQ Hm Hg) as (w & q & Hf & Hw & Hq).
    exists w. destruct (decide (w = i)) as [->|Hne].
    - exists p'. rewrite Hi in Hw. injection Hw as <-.
      split; [cbn; congruence|]. split; [|apply Hp'; exact Hq].
      cbn. rewrite Ew. apply list_lookup_insert_eq. exact Hlt.
    - exists q. split; [cbn; congruence|]. split.
      + cbn. rewrite Ew. rewrite list_lookup_insert_ne by congruence. exact Hw.
      + destruct Er as [Er| ->].
        * destruct q; cbn in Hq |- *; try exact Hq. congruence.
        * cbn in Hok. destruct Hok as (_ & _ & Hfi & _). congruence. }
  destruct p; try contradiction.
  - unfold rdlock in Hc. destruct (writer s) eqn:Ew; [discriminate|].
    injection Hc as <-. apply Hother; auto; intros w [].
  - subst s'. apply Hother; auto; intros w [].
  - subst s'. unfold rwunlock.
    destruct (decide _); apply Hother; auto; intros w [].
  - unfold wrlock in Hc. destruct (writer s) eqn:Ew; [discriminate|].
    destruct (decide _); [|discriminate].
    injection Hc as <-. apply Hother; auto; intros w [].
  - subst s'. apply Hother; auto; intros w [].
  - unfold mutex_lock in Hc. destruct (mutex s) eqn:Em; [discriminate|].
    injection Hc as <-. apply Hother; auto; intros w [].
  - (* g_finished = 1 *)
    subst s'. cbn in Hok. destruct Hok as (_ & Hf & _).
    destruct (inv_unset _ Hinv Hf) as [Efl _].
    intros _ _. exists i, AtMutexUnlock. cbn. rewrite Hf, Efl.
    split; [reflexivity|]. split; [|exact I].
    apply list_lookup_insert_eq. exact Hlt.
  - subst s'. apply Hother; auto; intros w _; exact I.
  - subst s'. apply Hother; auto; intros w _; exact I.
  - (* pthread_rwlock_unlock: the report has been made *)
    subst s'. cbn in Hok. destruct Hok as (_ & Hf & Hfl & Hrep).
    intros Hm _. exists i, AtSignal.
    unfold rwunlock. destruct (decide _); cbn;
      (split; [exact Hfl|]; split; [|exact Hrep]);
      apply list_lookup_insert_eq; exact Hlt.
  - (* pthread_cond_signal *)
    subst s'. intros Hm. exfalso. unfold cond_signal in Hm. cbn in Hm.
    destruct (main_at s) eqn:Ema; cbn in Hm; congruence.
Qed.

Lemma wakeup_pending_step s s' :
  invariant s -> wakeup_pending s -> step s s' -> wakeup_pending s'.
Proof.
  intros Hinv HQ Hstep. inversion Hstep as [i ? ? Hs|? ? Hs|? ? Hs]; subst.
  - eapply wakeup_pending_solveSudoku_step; eassumption.
  - intros Hm Hg. exfalso. unfold main_step, mutex_lock in Hs.
    destruct (main_at s); try discriminate;
      try (destruct (mutex s); [discriminate|]; injection Hs as <-;
           cbn in Hm; discriminate).
    + destruct (g_finished s) eqn:Eg; injection Hs as <-; cbn in *; congruence.
    + injection Hs as <-. cbn in Hm. discriminate.
  - intros Hm. exfalso. unfold spurious_wakeup in Hs.
    destruct (main_at s); try discriminate. injection Hs as <-.
    cbn in Hm. discriminate.
Qed.

Lemma wakeup_pending_reachable searches s :
  rtc step (started searches) s -> wakeup_pending s.
Proof.
  revert s. apply rtc_ind_r.
  - intros H. discriminate.
  - intros y z Hreach Hstep IH. eapply wakeup_pending_step; [|exact IH|exact Hstep].
    eapply invariant_reachable. exact Hreach.
Qed.

(** The steps of the worker that has set the latch, from each of its
    places to the signal, and the return of [main] once woken. *)
Lemma main_returns_after_signal s w :
  main_at s = MainWaiting -> g_finished s = true -> mutex s = None ->
  workers s !! w = Some AtSignal -> reports s = [w] ->
  exists s', rtc step s s' /\ main_at s' = MainExited /\ reports s' = [w].
Proof.
  intros Hm Hg Hx Hw Hr.
  eexists. split; [|split].
  - eapply rtc_l.
    { apply (step_worker w). rewrite (solveSudoku_step_at w s AtSignal);
        [reflexivity|congruence|exact Hw]. }
    unfold cond_signal. rewrite Hm.
    eapply rtc_l.
    { apply step_main. unfold main_step, mutex_lock. cbn. rewrite Hx.
      reflexivity. }
    eapply rtc_l.
    { apply step_main. unfold main_step. cbn. rewrite Hg. reflexivity. }
    eapply rtc_l.
    { apply step_main. unfold main_step. cbn. reflexivity. }
    apply rtc_refl.
  - reflexivity.
  - cbn. exact Hr.
Qed.

Lemma main_returns_after_wrunlock s w :
  main_at s = MainWaiting -> g_finished s = true -> mutex s = None ->
  workers s !! w = Some AtWrUnlock -> reports s = [w] ->
  exists s', rtc step s s' /\ main_at s' = MainExited /\ reports s' = [w].
Proof.
  intros Hm Hg Hx Hw Hr.
  assert (Hlt : (w < length (workers s))%nat) by (eapply lookup_lt_Some; eauto).
  destruct (main_returns_after_signal (move w AtSignal (rwunlock w s)) w)
    as (s' & Hrun & He & Hr').
  - unfold rwunlock. destruct (decide _); cbn; exact Hm.
  - unfold rwunlock. destruct (decide _); cbn; exact Hg.
  - unfold rwunlock. destruct (decide _); cbn; exact Hx.
  - cbn. rewrite list_lookup_insert_eq; [reflexivity|].
    unfold rwunlock. destruct (decide _); exact Hlt.
  - unfold rwunlock. destruct (decide _); cbn; exact Hr.
  - exists s'. split; [|split; assumption].
    eapply rtc_l; [|exact Hrun].
    apply (step_worker w). rewrite (solveSudoku_step_at w s AtWrUnlock);
      [reflexivity|congruence|exact Hw].
Qed.

Lemma main_returns_after_report s w :
  main_at s = MainWaiting -> g_finished s = true -> mutex s = None ->
  workers s !! w = Some AtReport -> reports s = [] ->
  exists s', rtc step s s' /\ main_at s' = MainExited /\ reports s' = [w].
Proof.
  intros Hm Hg Hx Hw Hr.
  assert (Hlt : (w < length (workers s))%nat) by (eapply lookup_lt_Some; eauto).
  destruct (main_returns_after_wrunlock (move w AtWrUnlock (report w s)) w)
    as (s' & Hrun & He & Hr'); try assumption.
  - cbn. apply list_lookup_insert_eq. exact Hlt.
  - cbn. rewrite Hr. reflexivity.
  - exists s'. split; [|split; assumption].
    eapply rtc_l; [|exact Hrun].
    apply (step_worker w). rewrite (solveSudoku_step_at w s AtReport);
      [reflexivity|congruence|exact Hw].
Qed.

Lemma main_returns_after_mutex_unlock s w :
  main_at s = MainWaiting -> g_finished s = true ->
  workers s !! w = Some AtMutexUnlock -> reports s = [] ->
  exists s', rtc step s s' /\ main_at s' = MainExited /\ reports s' = [w].
Proof.
  intros Hm Hg Hw Hr.
  assert (Hlt : (w < length (workers s))%nat) by (eapply lookup_lt_Some; eauto).
  destruct (main_returns_after_report (move w AtReport (mutex_unlock s)) w)
    as (s' & Hrun & He & Hr'); try assumption; try reflexivity.
  - cbn. apply list_lookup_insert_eq. exact Hlt.
  - exists s'. split; [|split; assumption].
    eapply rtc_l; [|exact Hrun].
    apply (step_worker w). rewrite (solveSudoku_step_at w s AtMutexUnlock);
      [reflexivity|congruence|exact Hw].
Qed.

(** When [main] waits and the latch is set, the mutex is free or held by
    the worker that set the latch. *)
Lemma mutex_of_the_winner s w p :
  invariant s -> main_at s = MainWaiting -> flips s = [w] ->
  workers s !! w = Some p -> g_finished s = true ->
  p <> AtMutexUnlock -> mutex s = None.
Proof.
  intros Hinv Hm Hf Hw Hg Hp.
  destruct (mutex s) as [[|k]|] eqn:Ex; [| |reflexivity]; exfalso.
  - apply (inv_mutex_main _ Hinv) in Ex. rewrite Hm in Ex. exact Ex.
  - destruct (inv_mutex _ Hinv _ Ex) as (q & Hq & Hh).
    pose proof (inv_places _ Hinv _ _ Hq) as Hok.
    destruct q; cbn in Hh, Hok; try contradiction.
    + destruct Hok as (_ & Hok & _). congruence.
    + destruct Hok as (_ & _ & _ & Hfk & _).
      assert (k = w) by congruence. subst k. congruence.
Qed.

Lemma main_returns_when_woken s w p :
  invariant s -> main_at s = MainWaiting -> g_finished s = true ->
  flips s = [w] -> workers s !! w = Some p -> pending s w p ->
  exists s', rtc step s s' /\ main_at s' = MainExited /\ reports s' = [w].
Proof.
  intros Hinv Hm Hg Hf Hw Hp.
  pose proof (inv_places _ Hinv _ _ Hw) as Hok.
  pose proof (mutex_of_the_winner s w p Hinv Hm Hf Hw Hg) as Hx.
  destruct p; cbn in Hp, Hok; try contradiction.
  - destruct Hok as (_ & _ & _ & _ & Hr).
    apply main_returns_after_mutex_unlock; assumption.
  - destruct Hok as (_ & _ & _ & Hr).
    apply main_returns_after_report; try assumption. apply Hx. discriminate.
  - destruct Hok as (_ & _ & _ & Hr).
    apply main_returns_after_wrunlock; try assumption. apply Hx. discriminate.
  - apply main_returns_after_signal; try assumption. apply Hx. discriminate.
Qed.

(** ** No thread is needed that cannot run *)

Lemma mutex_holder_runs s t :
  invariant s -> g_finished s = false -> mutex s = Some t ->
  exists s', (exists i, solveSudoku_step i s = Some s') \/ main_step s = Some s'.
Proof.
  intros Hinv Hf Hm.
  assert (Ha : main_at s <> MainExited).
  { intros E. pose proof (inv_main _ Hinv (or_intror E)). congruence. }
  destruct t as [|k].
  - apply (inv_mutex_main _ Hinv) in Hm.
    destruct (main_at s) eqn:Ema; cbn in Hm; try contradiction.
    + eexists. right. unfold main_step. rewrite Ema, Hf. reflexivity.
    + pose proof (inv_main _ Hinv (or_introl Ema)). congruence.
  - destruct (inv_mutex _ Hinv _ Hm) as (q & Hq & Hh).
    destruct q; cbn in Hh; try contradiction;
      eexists; left; exists k; rewrite (solveSudoku_step_at _ _ _ Ha Hq);
      reflexivity.
Qed.

Lemma writer_runs s j :
  invariant s -> g_finished s = false -> writer s = Some j ->
  exists s', (exists i, solveSudoku_step i s = Some s') \/ main_step s = Some s'.
Proof.
  intros Hinv Hf Hw.
  assert (Ha : main_at s <> MainExited).
  { intros E. pose proof (inv_main _ Hinv (or_intror E)). congruence. }
  destruct (inv_writer _ Hinv _ Hw) as (q & Hq & Hh).
  pose proof (inv_places _ Hinv _ _ Hq) as Hok.
  destruct q; cbn in Hh, Hok; try contradiction;
    try (eexists; left; exists j; rewrite (solveSudoku_step_at _ _ _ Ha Hq);
         reflexivity);
    try (destruct Hok as (_ & Hok & _); congruence);
    try congruence.
  destruct (mutex s) as [t|] eqn:Em.
  - eapply mutex_holder_runs; eassumption.
  - eexists. left. exists j. rewrite (solveSudoku_step_at _ _ _ Ha Hq).
    unfold mutex_lock. rewrite Em. reflexivity.
Qed.

Lemma reader_runs s j :
  invariant s -> g_finished s = false -> j ∈ readers s ->
  exists s', (exists i, solveSudoku_step i s = Some s') \/ main_step s = Some s'.
Proof.
  intros Hinv Hf Hr.
  assert (Ha : main_at s <> MainExited).
  { intros E. pose proof (inv_main _ Hinv (or_intror E)). congruence. }
  destruct (inv_readers _ Hinv _ Hr) as (q & Hq & Hh).
  pose proof (inv_places _ Hinv _ _ Hq) as Hok.
  destruct q; cbn in Hh, Hok; try contradiction;
    try (eexists; left; exists j; rewrite (solveSudoku_step_at _ _ _ Ha Hq);
         reflexivity).
  specialize (Hok Hr). congruence.
Qed.

Lemma some_thread_runs_before_flip s :
  invariant s -> g_finished s = false -> workers s <> [] ->
  exists s', (exists i, solveSudoku_step i s = Some s') \/ main_step s = Some s'.
Proof.
  intros Hinv Hf Hne.
  assert (Ha : main_at s <> MainExited).
  { intros E. pose proof (inv_main _ Hinv (or_intror E)). congruence. }
  destruct (workers s) as [|q ws] eqn:Ews; [contradiction|].
  assert (Hq : workers s !! 0%nat = Some q) by (rewrite Ews; reflexivity).
  pose proof (inv_places _ Hinv _ _ Hq) as Hok.
  destruct q; cbn in Hok;
    try (eexists; left; exists 0%nat;
         rewrite (solveSudoku_step_at _ _ _ Ha Hq); reflexivity);
    try (destruct Hok as (_ & Hok & _); congruence);
    try congruence.
  - destruct (writer s) as [j|] eqn:Ew; [eapply writer_runs; eassumption|].
    eexists. left. exists 0%nat. rewrite (solveSudoku_step_at _ _ _ Ha Hq).
    unfold rdlock. rewrite Ew. reflexivity.
  - destruct (writer s) as [j|] eqn:Ew; [eapply writer_runs; eassumption|].
    destruct (set_choose_or_empty (readers s)) as [[j Hj]|He].
    + eapply reader_runs; eassumption.
    + apply leibniz_equiv in He. eexists. left. exists 0%nat.
      rewrite (solveSudoku_step_at _ _ _ Ha Hq). unfold wrlock. rewrite Ew.
      destruct (decide (readers s = ∅)); [reflexivity|contradiction].
  - destruct Hok as [Hw _]. eapply writer_runs; eassumption.
Qed.

Lemma some_thread_runs_after_flip s :
  invariant s -> wakeup_pending s -> g_finished s = true ->
  main_at s <> MainExited ->
  exists s', (exists i, solveSudoku_step i s = Some s') \/ main_step s = Some s'.
Proof.
  intros Hinv HQ Hg Ha.
  assert (Hlock : main_at s = MainAtLock \/ main_at s = MainWoken ->
            exists s', (exists i, solveSudoku_step i s = Some s') \/
                       main_step s = Some s').
  { intros Hm. destruct (mutex s) as [[|k]|] eqn:Ex.
    - apply (inv_mutex_main _ Hinv) in Ex.
      destruct Hm as [Hm|Hm]; rewrite Hm in Ex; contradiction.
    - destruct (inv_mutex _ Hinv _ Ex) as (q & Hq & Hh).
      destruct q; cbn in Hh; try contradiction;
        eexists; left; exists k; rewrite (solveSudoku_step_at _ _ _ Ha Hq);
        reflexivity.
    - eexists. right. unfold main_step, mutex_lock.
      destruct Hm as [Hm|Hm]; rewrite Hm, Ex; reflexivity. }
  destruct (main_at s) eqn:Ema; try contradiction; auto.
  - eexists. right. unfold main_step. rewrite Ema, Hg. reflexivity.
  - destruct (HQ Ema Hg) as (w & p & _ & Hw & Hp).
    destruct p; cbn in Hp; try contradiction;
      eexists; left; exists w;
      rewrite (solveSudoku_step_at w s _ ltac:(congruence) Hw); reflexivity.
  - eexists. right. unfold main_step. rewrite Ema. reflexivity.
Qed.

(** ** The arguments of main *)

Lemma mapM_option_app {A B} (f : A -> option B) l1 l2 :
  mapM f (l1 ++ l2)
  = match mapM f l1, mapM f l2 with
    | Some v1, Some v2 => Some (v1 ++ v2)
    | _, _ => None
    end.
Proof.
  induction l1 as [|x l1 IH]; cbn.
  - destruct (mapM f l2); reflexivity.
  - destruct (f x); cbn; [|reflexivity]. rewrite IH.
    destruct (mapM f l1), (mapM f l2); reflexivity.
Qed.

Lemma read_row_values k c c2 argv c3 vals rest :
  0 <= c -> 0 <= c2 -> length vals = offset c c2 -> (k <= length rest)%nat ->
  read_row k c c2 argv c3 (vals ++ rest)
  = match mapM (argument argv) (seq c3 k) with
    | Some vs => Some (vals ++ vs ++ drop k rest, (c3 + k)%nat)
    | None => None
    end.
Proof.
  revert c2 c3 vals rest.
  induction k as [|k IH]; intros c2 c3 vals rest Hc Hc2 Hlen Hk.
  - cbn. rewrite Nat.add_0_r. reflexivity.
  - cbn [read_row seq mapM]. destruct (argument argv c3) as [v|]; [|reflexivity].
    cbn. destruct rest as [|r0 rest]; [cbn in Hk; lia|].
    unfold store. rewrite <- Hlen.
    rewrite insert_app_r_alt by lia. rewrite Nat.sub_diag. cbn [list_insert].
    change (<[0%nat:=v]> (r0 :: rest)) with (v :: rest).
    rewrite (cons_middle v vals rest), app_assoc. rewrite IH.
    + destruct (mapM (argument argv) (seq (S c3) k)); [|reflexivity].
      cbn. rewrite <- !app_assoc. do 2 f_equal. lia.
    + exact Hc.
    + lia.
    + rewrite length_app. cbn [length]. rewrite Hlen.
      unfold offset, GRIDSIZE. lia.
    + cbn in Hk. lia.
Qed.

Lemma read_rows_values k c argv c3 vals rest :
  0 <= c -> length vals = offset c 0 -> (9 * k <= length rest)%nat ->
  read_rows k c argv c3 (vals ++ rest)
  = match mapM (argument argv) (seq c3 (9 * k)) with
    | Some vs => Some (vals ++ vs ++ drop (9 * k) rest, (c3 + 9 * k)%nat)
    | None => None
    end.
Proof.
  revert c c3 vals rest.
  induction k as [|k IH]; intros c c3 vals rest Hc Hlen Hk.
  - cbn. rewrite Nat.add_0_r. reflexivity.
  - cbn [read_rows]. change (Z.to_nat GRIDSIZE) with 9%nat.
    rewrite read_row_values by (try assumption; lia).
    replace (9 * S k)%nat with (9 + 9 * k)%nat by lia.
    rewrite seq_app, mapM_option_app.
    destruct (mapM (argument argv) (seq c3 9)) as [v1|] eqn:E1; [|reflexivity].
    assert (Hl1 : length v1 = 9%nat).
    { apply length_mapM in E1. rewrite length_seq in E1. lia. }
    rewrite app_assoc, IH.
    + destruct (mapM (argument argv) (seq (c3 + 9) (9 * k))); [|reflexivity].
      rewrite <- !app_assoc, drop_drop. do 2 f_equal. lia.
    + lia.
    + rewrite length_app, Hl1, Hlen. unfold offset, GRIDSIZE. lia.
    + rewrite length_drop. lia.
Qed.

(** [main] reads the arguments 1 to 81 into the board and the argument 82
    as the number of threads. *)
Lemma main_arguments_values argv :
  main_arguments argv
  = match mapM (argument argv) (seq 1 81), argument argv 82 with
    | Some puzzle, Some thread_num => Some (puzzle, thread_num)
    | _, _ => None
    end.
Proof.
  unfold main_arguments.
  change (Z.to_nat GRIDSIZE) with 9%nat. change (Z.to_nat BOARDSIZE) with 81%nat.
  pose proof (read_rows_values 9 0 argv 1 [] (replicate 81 0)) as H.
  cbn [app] in H. rewrite H;
    [|lia|reflexivity|rewrite length_replicate; lia]. clear H.
  change (9 * 9)%nat with 81%nat.
  destruct (mapM (argument argv) (seq 1 81)) as [vs|] eqn:E; [|reflexivity].
  assert (Hl : length vs = 81%nat).
  { apply length_mapM in E. rewrite length_seq in E. lia. }
  cbn [app]. rewrite drop_ge by (rewrite length_replicate; lia).
  rewrite app_nil_r. reflexivity.
Qed.

(** The digits that ["%d"] writes are read back by [atoi]. *)
Lemma digit_char_value d :
  0 <= d <= 9 ->
  Z.of_nat (nat_of_ascii (digit_char d)) - 48 = d /\
  isspace (digit_char d) = false /\
  Ascii.eqb (digit_char d) "-"%char = false /\
  Ascii.eqb (digit_char d) "+"%char = false.
Proof. intros H. each_digit10 H; repeat split; reflexivity. Qed.

Lemma strtol_digits_from fuel n acc a :
  0 <= n < 2 ^ Z.of_nat fuel ->
  exists p, strtol_digits (digits_from fuel n acc) a
            = strtol_digits acc (a * p + n).
Proof.
  revert n acc a. induction fuel as [|fuel IH]; intros n acc a Hn.
  - exists 1. cbn [digits_from]. f_equal. change (2 ^ Z.of_nat 0) with 1 in Hn.
    lia.
  - cbn [digits_from].
    assert (Hd : 0 <= n mod 10 <= 9)
      by (pose proof (Z.mod_pos_bound n 10); lia).
    destruct (digit_char_value _ Hd) as (Hv & _).
    destruct (Z.ltb_spec n 10) as [Hlt|Hge].
    + exists 10. cbn [strtol_digits]. rewrite Hv.
      destruct (Z.leb_spec 0 (n mod 10)); [|lia].
      destruct (Z.leb_spec (n mod 10) 9); [|lia]. cbn [andb].
      f_equal. rewrite Z.mod_small by lia. lia.
    + destruct (IH (n / 10) (digit_char (n mod 10) :: acc) a) as (p & Hp).
      { split; [apply Z.div_pos; lia|].
        apply Z.div_lt_upper_bound; [lia|].
        rewrite Nat2Z.inj_succ, Z.pow_succ_r in Hn by lia. lia. }
      exists (10 * p). rewrite Hp. cbn [strtol_digits]. rewrite Hv.
      destruct (Z.leb_spec 0 (n mod 10)); [|lia].
      destruct (Z.leb_spec (n mod 10) 9); [|lia]. cbn [andb].
      f_equal. pose proof (Z.div_mod n 10). lia.
Qed.

Lemma strtol_decimal n : 0 <= n -> strtol_digits (decimal n) 0 = n.
Proof.
  intros Hn. unfold decimal.
  destruct (strtol_digits_from (S (Z.to_nat (Z.log2 n))) n [] 0) as (p & ->).
  - split; [exact Hn|]. rewrite Nat2Z.inj_succ, Z2Nat.id by apply Z.log2_nonneg.
    destruct (Z.eq_dec n 0) as [->|Hne]; [reflexivity|].
    apply Z.log2_spec. lia.
  - cbn. reflexivity.
Qed.

Lemma decimal_head n :
  0 <= n ->
  exists d rest, 0 <= d <= 9 /\ decimal n = digit_char d :: rest.
Proof.
  intros Hn. unfold decimal. cbn [digits_from].
  assert (Hh : forall fuel m acc d0,
            0 <= d0 <= 9 -> 0 <= m ->
            exists d rest, 0 <= d <= 9 /\
              digits_from fuel m (digit_char d0 :: acc) = digit_char d :: rest).
  { induction fuel as [|fuel IH]; intros m acc d0 Hd0 Hm; cbn [digits_from].
    - eauto.
    - destruct (m <? 10).
      + eexists _, _. split; [|reflexivity].
        pose proof (Z.mod_pos_bound m 10). lia.
      + apply IH; [pose proof (Z.mod_pos_bound m 10); lia|].
        apply Z.div_pos; lia. }
  destruct (n <? 10).
  - eexists _, _. split; [|reflexivity]. pose proof (Z.mod_pos_bound n 10). lia.
  - apply Hh; [pose proof (Z.mod_pos_bound n 10); lia|apply Z.div_pos; lia].
Qed.

Lemma atoi_fmt_d v : is_int v -> atoi (fmt_d v) = Some v.
Proof.
  unfold is_int. intros Hv. unfold atoi, fmt_d.
  destruct (Z.ltb_spec v 0) as [Hneg|Hpos].
  - cbn [skip_space]. change (isspace "-"%char) with false. cbn iota.
    change (Ascii.eqb "-"%char "-"%char) with true. cbn iota.
    rewrite strtol_decimal by lia. rewrite Z.opp_involutive.
    destruct (Z.leb_spec INT_MIN v); [|lia].
    destruct (Z.leb_spec v INT_MAX); [|lia]. reflexivity.
  - destruct (decimal_head v Hpos) as (d & rest & Hd & E).
    destruct (digit_char_value d Hd) as (_ & Hs & Hm & Hp).
    pose proof (strtol_decimal v Hpos) as Hval. rewrite E in Hval |- *.
    cbn [skip_space]. rewrite Hs, Hm, Hp, Hval.
    destruct (Z.leb_spec INT_MIN v); [|lia].
    destruct (Z.leb_spec v INT_MAX); [|lia]. reflexivity.
Qed.

Lemma mapM_argument_fmt_d prog cells rest :
  Forall is_int cells ->
  mapM (argument (prog :: map fmt_d cells ++ rest)) (seq 1 (length cells))
  = Some cells.
Proof.
  intros Hc. apply mapM_Some. apply Forall2_same_length_lookup_2.
  - rewrite length_seq. reflexivity.
  - intros i x y Hx Hy. apply lookup_seq in Hx as [-> Hi].
    unfold argument.
    replace ((prog :: map fmt_d cells ++ rest) !! (1 + i)%nat)
      with ((map fmt_d cells ++ rest) !! i) by reflexivity.
    rewrite lookup_app_l by (rewrite length_map; exact Hi).
    rewrite list_lookup_fmap, Hy. cbn.
    apply atoi_fmt_d. eapply Forall_lookup_1; eassumption.
Qed.

Lemma digits_are_ints cells : Forall is_digit cells -> Forall is_int cells.
Proof.
  intros H. eapply Forall_impl; [exact H|]. intros v Hv.
  unfold is_digit in Hv. unfold is_int, INT_MIN, INT_MAX. lia.
Qed.

(** ** The candidate loop keeps the failed candidate *)

Lemma at_cell_true row col r c :
  at_cell row col r c = true <-> (r, c) = (row, col).
Proof.
  unfold at_cell. rewrite andb_true_iff, !Z.eqb_eq. split.
  - intros [-> ->]. reflexivity.
  - intros [= -> ->]. auto.
Qed.

Lemma at_cell_same row col : at_cell row col row col = true.
Proof. apply at_cell_true. reflexivity. Qed.

Lemma at_cell_other row col r c :
  (r, c) <> (row, col) -> at_cell row col r c = false.
Proof.
  intros H. destruct (at_cell row col r c) eqn:E; [|reflexivity].
  apply at_cell_true in E. contradiction.
Qed.

Lemma latest_app_l row col new old e :
  latest row col new = Some e -> latest row col (new ++ old) = Some e.
Proof.
  induction new as [|x new IH]; [discriminate|].
  destruct x; cbn [app latest]; try destruct (at_cell _ _ _ _); auto.
Qed.

Lemma latest_skip row col new old :
  (forall e, In e new -> cell_of e <> (row, col)) ->
  latest row col (new ++ old) = latest row col old.
Proof.
  induction new as [|x new IH]; intros H; [reflexivity|].
  assert (Hx : cell_of x <> (row, col)) by (apply H; left; reflexivity).
  assert (Hn : latest row col (new ++ old) = latest row col old).
  { apply IH. intros e He. apply H. right. exact He. }
  destruct x; cbn [app latest cell_of] in *;
    rewrite ?(at_cell_other _ _ _ _ Hx); exact Hn.
Qed.

Lemma tests_since_app_l row col new old n :
  tests_since row col new = Some n ->
  tests_since row col (new ++ old) = Some n.
Proof.
  revert n. induction new as [|x new IH]; intros n; [discriminate|].
  destruct x; cbn [app tests_since]; try destruct (at_cell _ _ _ _); auto.
  destruct (tests_since row col new) as [m|]; [|discriminate].
  intros H. rewrite (IH m eq_refl). exact H.
Qed.

Lemma tests_since_skip row col new old :
  (forall e, In e new -> cell_of e <> (row, col)) ->
  tests_since row col (new ++ old) = tests_since row col old.
Proof.
  induction new as [|x new IH]; intros H; [reflexivity|].
  assert (Hx : cell_of x <> (row, col)) by (apply H; left; reflexivity).
  assert (Hn : tests_since row col (new ++ old) = tests_since row col old).
  { apply IH. intros e He. apply H. right. exact He. }
  destruct x; cbn [app tests_since cell_of] in *;
    rewrite ?(at_cell_other _ _ _ _ Hx); exact Hn.
Qed.

Lemma loop_ok_app new old : loop_ok new -> loop_ok old -> loop_ok (new ++ old).
Proof.
  intros Hn Ho. induction new as [|x new IH]; [exact Ho|].
  destruct x; cbn [app loop_ok] in *.
  - apply IH. exact Hn.
  - destruct Hn as [Hh Hn]. split; [|apply IH; exact Hn].
    destruct Hh as [[Hl Hh]|(v & Hl & Hv)].
    + left. split; [apply latest_app_l; exact Hl|exact Hh].
    + right. exists v. split; [apply latest_app_l; exact Hl|exact Hv].
  - destruct Hn as [Hr Hn]. split; [|apply IH; exact Hn].
    intros E. apply tests_since_app_l, Hr, E.
Qed.

Lemma loop_ok_spec t :
  loop_ok t -> tests_on_last_candidate t /\ resets_after_ninth_test t.
Proof.
  intros H. split.
  - intros later. revert t H.
    induction later as [|e later IH];
      intros t H earlier row col number held E; subst t.
    + destruct H as [H _]. exact H.
    + eapply IH; [|reflexivity].
      destruct e; [exact H|destruct H as [_ H]; exact H
                  |destruct H as [_ H]; exact H].
  - intros later. revert t H.
    induction later as [|e later IH]; intros t H earlier row col E; subst t.
    + destruct H as [H _]. apply H. reflexivity.
    + eapply IH; [|reflexivity].
      destruct e; [exact H|destruct H as [_ H]; exact H
                  |destruct H as [_ H]; exact H].
Qed.

Lemma try_candidates_loop (A : event -> Prop) call row col k startV w r w'
    new0 base :
  in_grid row col ->
  (forall e, cell_of e = (row, col) -> A e) ->
  (forall w1 v r1 w2,
     length (board w1) = 81%nat -> 1 <= v <= 9 -> call w1 v = Ret r1 w2 ->
     (r1 = false -> board w2 = board w1) /\ length (board w2) = 81%nat /\
     exists new, trace w2 = new ++ trace w1 /\ loop_ok new /\
                 forall e, In e new -> A e /\ cell_of e <> (row, col)) ->
  (k <= 9)%nat -> 0 <= startV <= 9 -> length (board w) = 81%nat ->
  trace w = new0 ++ base -> loop_ok new0 -> (forall e, In e new0 -> A e) ->
  tests_since row col new0 = Some (9 - k)%nat ->
  ((latest row col new0 = Some (Examined row col 0) /\
    cell (board w) row col = 0) \/
   (exists v d, latest row col new0 = Some (Wrote row col v) /\ v <> 0 /\
                cell (board w) row col = v /\ (d + k <= 8)%nat /\
                startV = rotate d v)) ->
  try_candidates call row col k startV w = Ret r w' ->
  length (board w') = 81%nat /\
  exists new, trace w' = new ++ base /\ loop_ok new /\
              (forall e, In e new -> A e) /\
              (r = false -> exists rest, new = Wrote row col 0 :: rest).
Proof.
  intros Hg HA Hcall. revert startV w new0.
  induction k as [|k IH];
    intros startV w new0 Hk Hs Hlen Ht Hok HA0 Hcount Hinv H.
  - simpl in H. injection H as <- <-. cbn [board write].
    split; [rewrite store_length; exact Hlen|].
    exists (Wrote row col 0 :: new0). cbn [trace write]. rewrite Ht.
    split; [reflexivity|]. split; [|split].
    + cbn [loop_ok]. split; [intros _; exact Hcount|exact Hok].
    + intros e [<-|He]; [apply HA; reflexivity|apply HA0; exact He].
    + intros _. eexists. reflexivity.
  - cbn [try_candidates] in H.
    destruct (Z.eqb_spec startV INT_MAX) as [E|_]; [unfold INT_MAX in E; lia|].
    pose proof (next_guess_range startV Hs) as Hc.
    set (cand := next_guess startV) in *.
    set (held := cell (board w) row col) in *.
    assert (Htest :
      (latest row col new0 = Some (Examined row col 0) /\ held = 0) \/
      (exists v, latest row col new0 = Some (Wrote row col v) /\
                 v <> 0 /\ v <> cand /\ held = v)).
    { destruct Hinv as [[Hl Hz]|(v & d & Hl & Hv & Hh & Hd & Es)].
      - left. split; assumption.
      - right. exists v. split; [exact Hl|]. split; [exact Hv|].
        split; [|exact Hh]. unfold cand. rewrite Es, <- rotate_S.
        intros E. symmetry in E. revert E. apply rotate_neq. lia. }
    assert (Hok1 : loop_ok (Tested row col cand held :: new0)).
    { cbn [loop_ok]. split; [exact Htest|exact Hok]. }
    assert (HA1 : forall e, In e (Tested row col cand held :: new0) -> A e).
    { intros e [<-|He]; [apply HA; reflexivity|apply HA0; exact He]. }
    assert (Hcount1 : tests_since row col (Tested row col cand held :: new0)
                      = Some (9 - k)%nat).
    { cbn [tests_since]. rewrite at_cell_same, Hcount. cbn. f_equal. lia. }
    destruct (isValid _ _ _ _).
    + destruct (call _ _) as [r1 w2| |] eqn:Ec; try discriminate.
      apply Hcall in Ec;
        [|cbn [board write record]; rewrite store_length; exact Hlen|exact Hc].
      destruct Ec as (Hb & Hlen2 & new & En & Hnew & Hcells).
      cbn [board trace write record] in Hb, En.
      set (new1 := new ++ Wrote row col cand :: Tested row col cand held :: new0).
      assert (Ht2 : trace w2 = new1 ++ base).
      { unfold new1. rewrite En, Ht, <- app_assoc. reflexivity. }
      assert (Hok2 : loop_ok new1).
      { apply loop_ok_app; [exact Hnew|]. cbn [loop_ok].
        split; [|exact Hok1]. intros E. lia. }
      assert (HA2 : forall e, In e new1 -> A e).
      { intros e He. apply in_app_or in He. destruct He as [He|[<-|He]].
        - apply (Hcells e He).
        - apply HA. reflexivity.
        - apply HA1. exact He. }
      destruct r1.
      * injection H as <- <-. split; [exact Hlen2|].
        exists new1. split; [exact Ht2|]. split; [exact Hok2|].
        split; [exact HA2|]. discriminate.
      * apply (IH cand w2 new1); try assumption; try lia.
        -- unfold new1. rewrite tests_since_skip by (intros e He; apply Hcells, He).
           cbn [tests_since]. exact Hcount1.
        -- right. exists cand, 0%nat. split.
           ++ unfold new1.
              rewrite latest_skip by (intros e He; apply Hcells, He).
              cbn [latest]. rewrite at_cell_same. reflexivity.
           ++ split; [lia|]. split; [|split; [lia|reflexivity]].
              rewrite (Hb eq_refl). apply cell_store_same.
              rewrite Hlen. apply offset_lt. exact Hg.
    + apply (IH cand (record (Tested row col cand held) w)
                (Tested row col cand held :: new0)); try assumption; try lia.
      * cbn [trace record]. rewrite Ht. reflexivity.
      * cbn [board record latest]. fold held.
        destruct Hinv as [[Hl Hz]|(v & d & Hl & Hv & Hh & Hd & Es)].
        -- left. split; assumption.
        -- right. exists v, (S d). split; [exact Hl|]. split; [exact Hv|].
           split; [exact Hh|]. split; [lia|].
           unfold cand. rewrite Es. reflexivity.
Qed.

Lemma sudokuHelper_loop g fuel w row col startV nTimes r w' :
  length (board w) = 81%nat -> in_grid row col -> 0 <= startV <= 9 ->
  0 <= nTimes <= BOARDSIZE ->
  sudokuHelper g fuel w row col startV nTimes = Ret r w' ->
  length (board w') = 81%nat /\
  exists new,
    trace w' = new ++ trace w /\ loop_ok new /\
    (forall e, In e new ->
       exists j, (1 <= j)%nat /\ Z.of_nat j <= BOARDSIZE - nTimes /\
                 cell_of e = walk j row col) /\
    (r = false -> exists row' col' rest, new = Wrote row' col' 0 :: rest).
Proof.
  unfold BOARDSIZE. revert w row col startV nTimes r w'.
  induction fuel as [|fuel IH];
    intros w row col startV nTimes r w' Hlen Hg Hs Hn H; [discriminate|].
  rewrite sudokuHelper_eq in H. cbv zeta in H.
  destruct (g (probes w)).
  { injection H as <- <-. split; [exact Hlen|]. exists [].
    split; [reflexivity|]. split; [exact I|]. split; [intros e []|discriminate]. }
  destruct (Z.eqb_spec BOARDSIZE nTimes) as [E|E].
  { injection H as <- <-. split; [exact Hlen|]. exists [].
    split; [reflexivity|]. split; [exact I|]. split; [intros e []|discriminate]. }
  unfold BOARDSIZE in E.
  destruct (negb (in_gridb _ _)); [discriminate|].
  pose proof (advance_in_grid row col Hg) as Hg'.
  set (rr := (advance row col).1) in *. set (cc := (advance row col).2) in *.
  set (A := fun e : event =>
              exists j, (1 <= j)%nat /\ Z.of_nat j <= 81 - nTimes /\
                        cell_of e = walk j row col).
  assert (Hhere : forall e, cell_of e = (rr, cc) -> A e).
  { intros e He. exists 1%nat. split; [lia|]. split; [lia|].
    rewrite He. reflexivity. }
  assert (Hrec : forall w1 v r1 w2,
            length (board w1) = 81%nat -> 1 <= v <= 9 ->
            recurse g fuel rr cc nTimes w1 v = Ret r1 w2 ->
            (r1 = false -> board w2 = board w1) /\
            length (board w2) = 81%nat /\
            exists new, trace w2 = new ++ trace w1 /\ loop_ok new /\
              (forall e, In e new -> A e /\ cell_of e <> (rr, cc)) /\
              (r1 = false ->
               exists row' col' rest, new = Wrote row' col' 0 :: rest)).
  { intros w1 v r1 w2 Hl1 Hv Hr. unfold recurse in Hr.
    destruct (nTimes =? INT_MAX); [discriminate|]. split.
    - intros ->. apply sudokuHelper_restores in Hr. apply Hr.
    - apply IH in Hr; [|exact Hl1|exact Hg'|lia|lia].
      destruct Hr as (Hl2 & new & En & Hok & Hcells & Hhead).
      split; [exact Hl2|]. exists new. split; [exact En|]. split; [exact Hok|].
      split; [|exact Hhead].
      intros e He. destruct (Hcells e He) as (j & Hj1 & Hj2 & Ej). split.
      + exists (S j). split; [lia|]. split; [lia|]. rewrite Ej. reflexivity.
      + rewrite Ej. intros Eq.
        apply (walk_distinct rr cc 0 j Hg'); [lia|lia|].
        rewrite Eq. reflexivity. }
  set (w3 := record (Examined rr cc (cell (board w) rr cc))
                    (rwlock_unlock (probed (rwlock_rdlock w)))) in *.
  destruct (Z.eqb_spec 0 (cell (board w) rr cc)) as [E0|E0]; cbn [negb] in H.
  - eapply (try_candidates_loop A _ rr cc _ _ _ _ _
              [Examined rr cc (cell (board w) rr cc)] (trace w)) in H.
    + destruct H as (Hl' & new & En & Hok & HA & Hhead).
      split; [exact Hl'|]. exists new. split; [exact En|]. split; [exact Hok|].
      split; [exact HA|]. intros Hr. destruct (Hhead Hr) as (rest & ->).
      eexists _, _, _. reflexivity.
    + exact Hg'.
    + exact Hhere.
    + intros w1 v r1 w2 Hl1 Hv Hr.
      destruct (Hrec w1 v r1 w2 Hl1 Hv Hr) as (Hb & Hl2 & new & En & Hok & Hc & _).
      split; [exact Hb|]. split; [exact Hl2|]. exists new. auto.
    + unfold GRIDSIZE. lia.
    + exact Hs.
    + exact Hlen.
    + reflexivity.
    + exact I.
    + intros e [<-|[]]. apply Hhere. reflexivity.
    + cbn [tests_since]. rewrite at_cell_same. reflexivity.
    + left. cbn [latest]. rewrite at_cell_same, <- E0. auto.
  - destruct (Z.eq_dec startV 0) as [Hz|Hnz].
    + (* the guess passed on is the one received *)
      subst startV. unfold recurse in H.
      destruct (nTimes =? INT_MAX); [discriminate|].
      apply IH in H; [|exact Hlen|exact Hg'|lia|lia].
      destruct H as (Hl2 & new & En & Hok & Hcells & Hhead).
      split; [exact Hl2|].
      exists (new ++ [Examined rr cc (cell (board w) rr cc)]).
      split; [rewrite En; cbn [trace record w3]; rewrite <- app_assoc; reflexivity|].
      split; [apply loop_ok_app; [exact Hok|exact I]|]. split.
      * intros e He. apply in_app_or in He. destruct He as [He|[<-|[]]].
        -- destruct (Hcells e He) as (j & Hj1 & Hj2 & Ej).
           exists (S j). split; [lia|]. split; [lia|]. rewrite Ej. reflexivity.
        -- apply Hhere. reflexivity.
      * intros Hr. destruct (Hhead Hr) as (r0 & c0 & rest & ->).
        eexists _, _, _. reflexivity.
    + apply Hrec in H; [|exact Hlen|lia].
      destruct H as (_ & Hl2 & new & En & Hok & Hcells & Hhead).
      split; [exact Hl2|].
      exists (new ++ [Examined rr cc (cell (board w) rr cc)]).
      split; [rewrite En; cbn [trace record w3]; rewrite <- app_assoc; reflexivity|].
      split; [apply loop_ok_app; [exact Hok|exact I]|]. split.
      * intros e He. apply in_app_or in He. destruct He as [He|[<-|[]]].
        -- apply (Hcells e He).
        -- apply Hhere. reflexivity.
      * intros Hr. destruct (Hhead Hr) as (r0 & c0 & rest & ->).
        eexists _, _, _. reflexivity.
Qed.

(** ** The size of the elapsed time *)

Lemma digits2_pos_size p : digits2_pos p = Pos.size p.
Proof. induction p as [p IH|p IH|]; cbn; rewrite ?IH; reflexivity. Qed.

Lemma Zdigits2_log2 m : 0 < m -> Zdigits2 m = Z.log2 m + 1.
Proof.
  destruct m as [|p|p]; [lia| |lia]. intros _. cbn [Zdigits2].
  rewrite digits2_pos_size. destruct p as [p|p|]; cbn; lia.
Qed.

Lemma Zdigits2_nonneg m : 0 <= Zdigits2 m.
Proof. destruct m; cbn; lia. Qed.

Lemma Zdigits2_abs m : Zdigits2 (Z.abs m) = Zdigits2 m.
Proof. destruct m; reflexivity. Qed.

(** [m] has at most [k] binary digits when it is below [2^k]. *)
Lemma Zdigits2_small m k : 0 <= m -> 0 <= k -> m < 2 ^ k -> Zdigits2 m <= k.
Proof.
  intros Hm Hk H. destruct (Z.eq_dec m 0) as [->|Hne]; [cbn; lia|].
  rewrite Zdigits2_log2 by lia.
  assert (Z.log2 m < k) by (apply Z.log2_lt_pow2; lia). lia.
Qed.

Lemma Zdigits2_spec m : 0 <= m -> m < 2 ^ Zdigits2 m.
Proof.
  intros Hm. destruct (Z.eq_dec m 0) as [->|Hne]; [cbn; lia|].
  rewrite Zdigits2_log2 by lia.
  destruct (Z.log2_spec m) as [_ H]; [lia|]. exact H.
Qed.

Lemma Zdigits2_mono a b : 0 <= a <= b -> Zdigits2 a <= Zdigits2 b.
Proof.
  intros H. apply Zdigits2_small; [lia|apply Zdigits2_nonneg|].
  pose proof (Zdigits2_spec b). lia.
Qed.

Lemma Zdigits2_succ m : 0 <= m -> Zdigits2 (m + 1) <= Zdigits2 m + 1.
Proof.
  intros Hm. pose proof (Zdigits2_nonneg m). pose proof (Zdigits2_spec m Hm).
  apply Zdigits2_small; [lia|lia|].
  rewrite Z.pow_add_r by lia. change (2 ^ 1) with 2. lia.
Qed.

Lemma Zdigits2_shift m s :
  0 <= m -> 0 <= s -> Zdigits2 (m * 2 ^ s) <= Zdigits2 m + s.
Proof.
  intros Hm Hs. pose proof (Zdigits2_nonneg m). pose proof (Zdigits2_spec m Hm).
  assert (0 < 2 ^ s) by (apply Z.pow_pos_nonneg; lia).
  apply Zdigits2_small; [nia|lia|].
  rewrite Z.pow_add_r by lia. nia.
Qed.

Lemma Zdigits2_div m n :
  0 <= m -> 0 <= n -> 0 < m / 2 ^ n ->
  Zdigits2 (m / 2 ^ n) <= Zdigits2 m - n.
Proof.
  intros Hm Hn Hq. pose proof (Zdigits2_nonneg m).
  pose proof (Zdigits2_spec m Hm).
  assert (Hp : 0 < 2 ^ n) by (apply Z.pow_pos_nonneg; lia).
  destruct (Z.lt_ge_cases (Zdigits2 m) n) as [Hlt|Hge].
  - exfalso.
    assert (2 ^ Zdigits2 m <= 2 ^ n) by (apply Z.pow_le_mono_r; lia).
    rewrite Z.div_small in Hq by lia. lia.
  - apply Zdigits2_small; [lia|lia|].
    apply Z.div_lt_upper_bound; [exact Hp|].
    rewrite <- Z.pow_add_r by lia.
    replace (n + (Zdigits2 m - n)) with (Zdigits2 m) by lia. lia.
Qed.

Lemma Zdigits2_add x y :
  Zdigits2 (x + y) <= Z.max (Zdigits2 x) (Zdigits2 y) + 1.
Proof.
  rewrite <- (Zdigits2_abs (x + y)), <- (Zdigits2_abs x), <- (Zdigits2_abs y).
  pose proof (Zdigits2_nonneg (Z.abs x)). pose proof (Zdigits2_nonneg (Z.abs y)).
  pose proof (Zdigits2_spec (Z.abs x) (Z.abs_nonneg x)) as Hx.
  pose proof (Zdigits2_spec (Z.abs y) (Z.abs_nonneg y)) as Hy.
  set (k := Z.max (Zdigits2 (Z.abs x)) (Zdigits2 (Z.abs y))) in *.
  assert (Hkx : 2 ^ Zdigits2 (Z.abs x) <= 2 ^ k)
    by (apply Z.pow_le_mono_r; lia).
  assert (Hky : 2 ^ Zdigits2 (Z.abs y) <= 2 ^ k)
    by (apply Z.pow_le_mono_r; lia).
  apply Zdigits2_small; [lia|lia|].
  rewrite Z.pow_add_r by lia. change (2 ^ 1) with 2. lia.
Qed.

(** The shift to the right. *)
Lemma shr_m_of_loc m l : shr_m (shr_record_of_loc m l) = m.
Proof. destruct l as [|[]]; reflexivity. Qed.

Lemma shr_m_shr_1 mrs : 0 <= shr_m mrs -> shr_m (shr_1 mrs) = shr_m mrs / 2.
Proof.
  destruct mrs as [m r s]. cbn [shr_m]. intros Hm.
  destruct m as [|[p|p|]|p]; cbn [shr_1 shr_m]; try lia.
  - reflexivity.
  - apply (Z.div_unique (Z.pos p~1) 2 (Z.pos p) 1); lia.
  - apply (Z.div_unique (Z.pos p~0) 2 (Z.pos p) 0); lia.
  - reflexivity.
Qed.

Lemma shr_m_iter p mrs :
  0 <= shr_m mrs ->
  shr_m (SpecFloat.iter_pos shr_1 p mrs) = shr_m mrs / 2 ^ Z.pos p.
Proof.
  revert mrs. induction p as [p IH|p IH|]; intros mrs Hm;
    cbn [SpecFloat.iter_pos].
  - assert (Hp : 0 < 2 ^ Z.pos p) by (apply Z.pow_pos_nonneg; lia).
    assert (Hpow : 2 ^ Z.pos p~1 = 2 * (2 ^ Z.pos p * 2 ^ Z.pos p)).
    { replace (Z.pos p~1) with (1 + (Z.pos p + Z.pos p)) by lia.
      rewrite !Z.pow_add_r by lia. reflexivity. }
    assert (H1 : 0 <= shr_m (shr_1 mrs)).
    { rewrite shr_m_shr_1 by exact Hm. apply Z.div_pos; lia. }
    assert (H2 : 0 <= shr_m (SpecFloat.iter_pos shr_1 p (shr_1 mrs))).
    { rewrite IH by exact H1. apply Z.div_pos; [exact H1|exact Hp]. }
    rewrite IH by exact H2. rewrite IH by exact H1.
    rewrite shr_m_shr_1 by exact Hm.
    rewrite Hpow, !Z.div_div by lia. reflexivity.
  - assert (Hp : 0 < 2 ^ Z.pos p) by (apply Z.pow_pos_nonneg; lia).
    assert (Hpow : 2 ^ Z.pos p~0 = 2 ^ Z.pos p * 2 ^ Z.pos p).
    { replace (Z.pos p~0) with (Z.pos p + Z.pos p) by lia.
      apply Z.pow_add_r; lia. }
    assert (H1 : 0 <= shr_m (SpecFloat.iter_pos shr_1 p mrs)).
    { rewrite IH by exact Hm. apply Z.div_pos; [exact Hm|exact Hp]. }
    rewrite IH by exact H1. rewrite IH by exact Hm.
    rewrite Hpow, Z.div_div by lia. reflexivity.
  - rewrite shr_m_shr_1 by exact Hm. reflexivity.
Qed.

Lemma fexp_double x : fexp 53 1024 x = Z.max (x - 53) (-1074).
Proof. reflexivity. Qed.

(** After [shr_fexp] the mantissa and the exponent stand for a number
    that is not larger in magnitude, or for one at the smallest
    exponent. *)
Lemma shr_fexp_bound m e l mrs' e' :
  0 <= m -> shr_fexp 53 1024 m e l = (mrs', e') ->
  0 <= shr_m mrs' /\
  Zdigits2 (shr_m mrs') + e' <= Z.max (Zdigits2 m + e) (-1074).
Proof.
  intros Hm. unfold shr_fexp, shr. rewrite fexp_double.
  destruct (Z.max (Zdigits2 m + e - 53) (-1074) - e) as [|p|p] eqn:En.
  - intros [= <- <-]. rewrite shr_m_of_loc. lia.
  - intros [= <- <-].
    rewrite shr_m_iter by (rewrite shr_m_of_loc; exact Hm).
    rewrite shr_m_of_loc.
    assert (Hp : 0 < 2 ^ Z.pos p) by (apply Z.pow_pos_nonneg; lia).
    assert (Hq : 0 <= m / 2 ^ Z.pos p) by (apply Z.div_pos; lia).
    split; [exact Hq|].
    destruct (Z.eq_dec (m / 2 ^ Z.pos p) 0) as [E0|Hne].
    + rewrite E0. cbn [Zdigits2]. lia.
    + pose proof (Zdigits2_div m (Z.pos p) Hm ltac:(lia) ltac:(lia)). lia.
  - intros [= <- <-]. rewrite shr_m_of_loc. lia.
Qed.

Lemma round_nearest_even_bound m l :
  m <= round_nearest_even m l <= m + 1.
Proof.
  destruct l as [|[]]; cbn [round_nearest_even]; try destruct (Z.even m); lia.
Qed.

(** Rounding gives a zero or a finite number at most one binary digit
    larger. *)
Lemma binary_round_aux_below sx mx ex lx K :
  0 <= mx -> Zdigits2 mx + ex <= K -> -1074 <= K <= 970 ->
  below (K + 1) (binary_round_aux 53 1024 sx mx ex lx).
Proof.
  intros Hm HD HK. unfold binary_round_aux.
  destruct (shr_fexp 53 1024 mx ex lx) as [mrs1 e1] eqn:E1.
  apply shr_fexp_bound in E1; [|exact Hm]. destruct E1 as [H1 D1].
  pose proof (round_nearest_even_bound (shr_m mrs1) (loc_of_shr_record mrs1))
    as Hr.
  set (m1 := round_nearest_even (shr_m mrs1) (loc_of_shr_record mrs1)) in *.
  assert (Hd1 : Zdigits2 m1 <= Zdigits2 (shr_m mrs1) + 1).
  { etransitivity; [apply (Zdigits2_mono m1 (shr_m mrs1 + 1)); lia|].
    apply Zdigits2_succ. exact H1. }
  destruct (shr_fexp 53 1024 m1 e1 loc_Exact) as [mrs2 e2] eqn:E2.
  apply shr_fexp_bound in E2; [|lia]. destruct E2 as [H2 D2].
  destruct (shr_m mrs2) as [|m|m] eqn:Em; [exact I| |lia].
  cbn [Zdigits2] in D2.
  destruct (Z.leb_spec e2 (1024 - 53)) as [_|Hbig]; [cbn [below]; lia|lia].
Qed.

Lemma digits2_pos_iter mx d :
  Z.pos (digits2_pos (Pos.iter xO mx d)) = Z.pos (digits2_pos mx) + Z.pos d.
Proof.
  induction d as [|d IH] using Pos.peano_ind.
  - cbn. lia.
  - rewrite Pos.iter_succ. cbn [digits2_pos]. lia.
Qed.

(** [shl_align] keeps the number. *)
Lemma shl_align_digits mx ex ex' :
  Z.pos (digits2_pos (shl_align mx ex ex').1) + (shl_align mx ex ex').2
  = Z.pos (digits2_pos mx) + ex.
Proof.
  unfold shl_align. destruct (ex' - ex) as [|d|d] eqn:E; cbn [fst snd];
    try reflexivity.
  rewrite digits2_pos_iter. lia.
Qed.

Lemma shl_align_exponent mx ex ex' :
  ex' <= ex -> (shl_align mx ex ex').2 = ex'.
Proof.
  intros H. unfold shl_align. destruct (ex' - ex) as [|d|d] eqn:E; cbn [snd];
    lia.
Qed.

Lemma binary_round_below sx mx ex K :
  Z.pos (digits2_pos mx) + ex <= K -> -1074 <= K <= 970 ->
  below (K + 1) (binary_round 53 1024 sx mx ex).
Proof.
  intros HD HK. unfold binary_round.
  pose proof (shl_align_digits mx ex
                (fexp 53 1024 (Z.pos (digits2_pos mx) + ex))) as Hs.
  destruct (shl_align mx ex _) as [mz ez]. cbn [fst snd] in Hs.
  apply binary_round_aux_below; [lia|cbn [Zdigits2]; lia|exact HK].
Qed.

Lemma binary_normalize_below m e szero K :
  Zdigits2 m + e <= K -> -1074 <= K <= 970 ->
  below (K + 1) (binary_normalize 53 1024 m e szero).
Proof.
  intros HD HK. destruct m as [|p|p]; cbn [binary_normalize Zdigits2] in *.
  - exact I.
  - apply binary_round_below; assumption.
  - apply binary_round_below; assumption.
Qed.

Lemma below_mono K K' x : below K x -> K <= K' -> below K' x.
Proof. destruct x; cbn [below]; auto. lia. Qed.

Lemma double_of_long_below z :
  LONG_MIN <= z <= LONG_MAX -> below 65 (double_of_long z).
Proof.
  intros Hz. apply (binary_normalize_below z 0 false 64); [|lia].
  rewrite <- Zdigits2_abs.
  assert (Z.abs z < 2 ^ 64).
  { change (2 ^ 64) with 18446744073709551616.
    unfold LONG_MIN, LONG_MAX in Hz. lia. }
  pose proof (Zdigits2_small (Z.abs z) 64 (Z.abs_nonneg z)). lia.
Qed.

(** The sum of two numbers is at most two binary digits larger than the
    larger one. *)
Lemma SFadd_below x y Kx Ky :
  below Kx x -> below Ky y -> -1074 <= Z.max Kx Ky <= 968 ->
  below (Z.max Kx Ky + 2) (SFadd 53 1024 x y).
Proof.
  intros Hx Hy HK.
  destruct x as [sx|sx| |sx mx ex]; try contradiction;
    destruct y as [sy|sy| |sy my ey]; try contradiction.
  - destruct sx, sy; exact I.
  - eapply below_mono; [exact Hy|lia].
  - eapply below_mono; [exact Hx|lia].
  - cbn [below] in Hx, Hy. cbn [SFadd].
    set (ez := Z.min ex ey).
    pose proof (shl_align_digits mx ex ez) as Dx.
    pose proof (shl_align_exponent mx ex ez ltac:(lia)) as Ex.
    pose proof (shl_align_digits my ey ez) as Dy.
    pose proof (shl_align_exponent my ey ez ltac:(lia)) as Ey.
    set (a := (shl_align mx ex ez).1) in *.
    set (b := (shl_align my ey ez).1) in *.
    replace (Z.max Kx Ky + 2) with (Z.max Kx Ky + 1 + 1) by lia.
    apply binary_normalize_below; [|lia].
    pose proof (Zdigits2_add (cond_Zopp sx (Z.pos a)) (cond_Zopp sy (Z.pos b)))
      as Hsum.
    assert (Ha : Zdigits2 (cond_Zopp sx (Z.pos a)) = Z.pos (digits2_pos a))
      by (destruct sx; reflexivity).
    assert (Hb : Zdigits2 (cond_Zopp sy (Z.pos b)) = Z.pos (digits2_pos b))
      by (destruct sy; reflexivity).
    rewrite Ha, Hb in Hsum. lia.
Qed.

(** The quotient by a finite number of exponent [ey]. *)
Lemma SFdiv_below x K sy my ey :
  below K x -> -1074 <= K - ey <= 970 ->
  below (K - ey + 1) (SFdiv 53 1024 x (S754_finite sy my ey)).
Proof.
  intros Hx HK. destruct x as [sx|sx| |sx mx ex]; try contradiction.
  - exact I.
  - cbn [below] in Hx. cbn [SFdiv]. unfold SFdiv_core_binary.
    set (e' := Z.min _ (ex - ey)).
    set (s := ex - ey - e').
    assert (Hs : 0 <= s) by (unfold s, e'; lia).
    set (m' := match s with
               | 0 => Z.pos mx
               | Z.pos _ => Z.shiftl (Z.pos mx) s
               | Z.neg _ => 0
               end).
    assert (Hm' : m' = Z.pos mx * 2 ^ s).
    { unfold m'. destruct s as [|p|p] eqn:Es; [lia| |lia].
      apply Z.shiftl_mul_pow2. lia. }
    destruct (Z.div_eucl m' (Z.pos my)) as [q r] eqn:Ed.
    assert (Hq : q = m' / Z.pos my) by (unfold Z.div; rewrite Ed; reflexivity).
    assert (Hp : 0 < 2 ^ s) by (apply Z.pow_pos_nonneg; lia).
    assert (Hq0 : 0 <= q) by (rewrite Hq; apply Z.div_pos; nia).
    assert (Hqm : q <= m').
    { rewrite Hq. apply Z.div_le_upper_bound; nia. }
    apply binary_round_aux_below; [exact Hq0| |exact HK].
    pose proof (Zdigits2_mono q m' ltac:(lia)) as H1.
    pose proof (Zdigits2_shift (Z.pos mx) s ltac:(lia) Hs) as H2.
    rewrite <- Hm' in H2. cbn [Zdigits2] in H2. unfold s in *. lia.
Qed.

Lemma long_sub_range a b d :
  long_sub a b = Some d -> LONG_MIN <= d <= LONG_MAX.
Proof.
  unfold long_sub.
  destruct (Z.leb_spec LONG_MIN (a - b)); [|discriminate].
  destruct (Z.leb_spec (a - b) LONG_MAX); [|discriminate].
  intros [= <-]. lia.
Qed.

Lemma g_elapsed_below g_start g_finish timeo :
  g_elapsed g_start g_finish = Some timeo -> below 91 timeo.
Proof.
  unfold g_elapsed.
  destruct (long_sub (tv_sec g_finish) (tv_sec g_start)) as [sec|] eqn:Es;
    [|discriminate].
  destruct (long_sub (tv_nsec g_finish) (tv_nsec g_start)) as [nsec|] eqn:En;
    [|discriminate].
  intros [= <-].
  apply long_sub_range in Es. apply long_sub_range in En.
  change (double_of_long 1000000000)
    with (S754_finite false 8388608000000000 (-23)).
  apply (SFadd_below _ _ 65 89); [|
    apply (SFdiv_below _ 65 false 8388608000000000 (-23));
      [|lia]|lia];
    apply double_of_long_below; assumption.
Qed.

(** The text of a finite time below [2^91] seconds. *)
Lemma pos_lt_pow_digits m : Z.pos m < 2 ^ Z.pos (digits2_pos m).
Proof. apply (Zdigits2_spec (Z.pos m)). lia. Qed.

Lemma millionths_nonneg m e : 0 <= millionths m e.
Proof.
  unfold millionths. destruct (Z.leb_spec 0 e).
  - assert (Hp : 0 <= 2 ^ e) by (apply Z.pow_nonneg; lia).
    assert (Hq : 0 <= Z.pos m * 2 ^ e) by (apply Z.mul_nonneg_nonneg; lia).
    lia.
  - assert (Hq : 0 <= Z.pos m * 1000000 / 2 ^ (- e))
      by (apply Z.div_pos; [lia|apply Z.pow_pos_nonneg; lia]).
    repeat match goal with |- context [if ?b then _ else _] => destruct b end;
      lia.
Qed.

Lemma millionths_below m e :
  Z.pos (digits2_pos m) + e <= 91 -> millionths m e < 10 ^ 34.
Proof.
  intros HD. pose proof (pos_lt_pow_digits m) as Hm.
  assert (Hc : 2 ^ 91 * 1000000 + 1 < 10 ^ 34) by reflexivity.
  unfold millionths. destruct (Z.leb_spec 0 e) as [He|He].
  - assert (Hp : 0 < 2 ^ e) by (apply Z.pow_pos_nonneg; lia).
    assert (Hle : 2 ^ (Z.pos (digits2_pos m) + e) <= 2 ^ 91)
      by (apply Z.pow_le_mono_r; lia).
    rewrite Z.pow_add_r in Hle by lia. nia.
  - set (den := 2 ^ (- e)).
    assert (Hden : 0 < den) by (apply Z.pow_pos_nonneg; lia).
    assert (Hle : 2 ^ Z.pos (digits2_pos m) <= 2 ^ (91 + - e))
      by (apply Z.pow_le_mono_r; lia).
    rewrite Z.pow_add_r in Hle by lia. fold den in Hle.
    assert (Hq : Z.pos m * 1000000 / den < 2 ^ 91 * 1000000).
    { apply Z.div_lt_upper_bound; [exact Hden|]. nia. }
    repeat match goal with |- context [if ?b then _ else _] => destruct b end;
      lia.
Qed.

Lemma below_time_fits timeo : below 91 timeo -> time_fits timeo.
Proof.
  unfold time_fits. destruct timeo as [s|s| |s m e]; cbn [below];
    try contradiction.
  - intros _. destruct s; vm_compute; lia.
  - intros HD. pose proof (millionths_below m e HD) as Hn.
    pose proof (millionths_nonneg m e) as H0.
    cbn [fmt_f]. rewrite !length_app. cbn [length].
    assert (Hs : (length (sign_text s) <= 1)%nat) by (destruct s; cbn; lia).
    assert (H1 : (length (decimal (millionths m e / 1000000)) <= 28)%nat).
    { apply (decimal_length _ 27). split; [apply Z.div_pos; lia|].
      apply Z.div_lt_upper_bound; [lia|].
      change (1000000 * 10 ^ Z.of_nat 28) with (10 ^ 34). exact Hn. }
    assert (H2 : (length (decimal (1000000 + millionths m e mod 1000000)) <= 7)%nat).
    { apply (decimal_length _ 6). change (10 ^ Z.of_nat 7) with 10000000.
      pose proof (Z.mod_pos_bound (millionths m e) 1000000). lia. }
    destruct (decimal (1000000 + millionths m e mod 1000000));
      cbn [tail length] in *; lia.
Qed.

Lemma g_elapsed_fits g_start g_finish timeo :
  g_elapsed g_start g_finish = Some timeo -> time_fits timeo.
Proof. intros H. apply below_time_fits. eapply g_elapsed_below. exact H. Qed.

(** ** Every run ends *)










(** * The claims of the specification *)

(** C1.  For every board, candidate digit and target cell, [isValid]
    returns false if and only if the digit already occurs in the row of
    the target, in its column, or in the 3x3 block that contains it (the
    block with the same floor quotients by 3). *)
Theorem isValid_rejects_iff_digit_occurs number puzzle row column :
  in_grid row column ->
  isValid number puzzle row column = false <->
  occurs_in_row number puzzle row \/
  occurs_in_column number puzzle column \/
  occurs_in_block number puzzle row column.
Proof. apply isValid_false_iff. Qed.

Lemma isValid_rejects_iff_digit_occurs_witness :
  in_grid 4 7 /\
  (isValid 5 solved_grid 4 7 = false <->
   occurs_in_row 5 solved_grid 4 \/
   occurs_in_column 5 solved_grid 7 \/
   occurs_in_block 5 solved_grid 4 7).
Proof.
  split.
  - unfold in_grid, GRIDSIZE. lia.
  - apply (isValid_rejects_iff_digit_occurs 5 solved_grid 4 7).
    unfold in_grid, GRIDSIZE. lia.
Defined.

(** C2.  On a board whose 81 cells are all non-zero, with the latch never
    set, [sudokuHelper] called with depth counter 0 returns success, and
    the board at return is the board at entry; no cell is ever assigned. *)
Theorem solved_board_untouched puzzle row col startV fuel :
  all_filled puzzle -> in_grid row col -> (82 <= fuel)%nat ->
  exists w',
    sudokuHelper never_finished fuel (fresh_worker puzzle) row col startV 0
    = Ret true w' /\
    board w' = puzzle /\
    forall r c v, ~ In (Wrote r c v) (trace w').
Proof.
  intros Hf Hg Hfuel.
  destruct (sudokuHelper_all_filled fuel (fresh_worker puzzle) row col startV 0)
    as (w' & Hrun & Hb & _ & Hw);
    [exact Hf|exact Hg|unfold BOARDSIZE; lia|unfold BOARDSIZE; lia|].
  exists w'. split; [exact Hrun|]. split; [exact Hb|].
  intros r c v H. exact (Hw r c v H).
Qed.

Lemma solved_board_untouched_witness :
  all_filled solved_grid /\ in_grid 4 5 /\ (82 <= 82)%nat /\
  exists w',
    sudokuHelper never_finished 82 (fresh_worker solved_grid) 4 5 3 0
    = Ret true w' /\
    board w' = solved_grid /\
    forall r c v, ~ In (Wrote r c v) (trace w').
Proof.
  split; [exact solved_grid_filled|].
  split; [unfold in_grid, GRIDSIZE; lia|].
  split; [lia|].
  apply (solved_board_untouched solved_grid 4 5 3 82).
  - exact solved_grid_filled.
  - unfold in_grid, GRIDSIZE. lia.
  - lia.
Defined.

(** C3 (as stated).  The specification has the cell reset to 0 before the
    next candidate is tested.  On [stuck_board] the candidate 1 is written
    to the cell (0, 0), the recursive call fails, and the candidate 2 is
    tested while the cell still holds 1. *)
Lemma stale_candidate_at_legality_test :
  sudokuHelper never_finished 3 (fresh_worker stuck_board) 8 8 0 0
  = Ret false (Worker stuck_board 0 3 (rev stuck_trace)) /\
  In (Tested 0 0 2 1) (rev stuck_trace) /\
  ~ tests_on_zero (rev stuck_trace).
Proof.
  split; [exact stuck_board_run|].
  assert (Hin : In (Tested 0 0 2 1) (rev stuck_trace)).
  { apply in_rev. rewrite rev_involutive. unfold stuck_trace.
    do 14 right. left. reflexivity. }
  split; [exact Hin|].
  intros H. specialize (H 0 0 2 1 Hin). discriminate.
Qed.

(** C3 (amended).  On a board of 81 cells, from a cursor in the grid, a
    guess 0..9 and a depth 0..81: a failed recursive call is not followed
    by a reset.  At every legality test the current cell holds what the
    last access left there: 0 when the cell has only been examined, and
    otherwise the candidate written last, which is not 0 and is not the
    candidate under test.  The cell is reset to 0 only when nine
    candidates have been tested on it, and when [sudokuHelper] returns
    failure that reset is the last thing it did. *)
Theorem failed_candidate_kept_until_overwritten g fuel w row col startV
    nTimes r w' :
  length (board w) = 81%nat -> in_grid row col -> 0 <= startV <= 9 ->
  0 <= nTimes <= BOARDSIZE ->
  sudokuHelper g fuel w row col startV nTimes = Ret r w' ->
  exists new,
    trace w' = new ++ trace w /\
    tests_on_last_candidate new /\
    resets_after_ninth_test new /\
    (r = false -> exists row' col' rest, new = Wrote row' col' 0 :: rest).
Proof.
  intros Hlen Hg Hs Hn H.
  destruct (sudokuHelper_loop _ _ _ _ _ _ _ _ _ Hlen Hg Hs Hn H)
    as (_ & new & E & Hok & _ & Hhead).
  exists new. split; [exact E|].
  destruct (loop_ok_spec new Hok) as [Ht Hr]. auto.
Qed.

Lemma failed_candidate_kept_until_overwritten_witness :
  length (board (fresh_worker stuck_board)) = 81%nat /\ in_grid 8 8 /\
  0 <= 0 <= 9 /\ 0 <= 0 <= BOARDSIZE /\
  sudokuHelper never_finished 3 (fresh_worker stuck_board) 8 8 0 0
  = Ret false (Worker stuck_board 0 3 (rev stuck_trace)) /\
  exists new,
    trace (Worker stuck_board 0 3 (rev stuck_trace))
    = new ++ trace (fresh_worker stuck_board) /\
    tests_on_last_candidate new /\
    resets_after_ninth_test new /\
    (false = false -> exists row' col' rest, new = Wrote row' col' 0 :: rest).
Proof.
  split; [reflexivity|]. split; [apply in_grid_intro; lia|].
  split; [lia|]. split; [unfold BOARDSIZE; lia|].
  split; [vm_compute; reflexivity|].
  apply (failed_candidate_kept_until_overwritten never_finished 3
           (fresh_worker stuck_board) 8 8 0 0 false).
  - reflexivity.
  - apply in_grid_intro; lia.
  - lia.
  - unfold BOARDSIZE. lia.
  - vm_compute. reflexivity.
Defined.

(** C4.  When [g_finished] is already 1, [sudokuHelper] returns 1 and the
    worker holds one more read lock than at entry: the early return does
    not release the lock. *)
Theorem early_return_keeps_read_lock fuel w row col startV nTimes :
  sudokuHelper already_finished (S fuel) w row col startV nTimes
  = Ret true (Worker (board w) (S (rdlocks w)) (S (probes w)) (trace w)).
Proof. rewrite sudokuHelper_eq. reflexivity. Qed.

(** C5 (as stated).  The specification has the search hang on a board
    that cannot be completed.  On [stuck_board], which no assignment
    completes, the search returns failure after three calls. *)
Lemma stuck_board_signals_failure :
  unsolvable stuck_board /\
  sudokuHelper never_finished 3 (fresh_worker stuck_board) 8 8 0 0
  = Ret false (Worker stuck_board 0 3 (rev stuck_trace)).
Proof. split; [exact stuck_board_unsolvable|exact stuck_board_run]. Qed.

(** C5 (amended).  With the latch never set, the search from depth 0
    returns on every board: 82 nested calls suffice.  On a board that no
    assignment completes it returns failure, with the board as it was at
    entry. *)
Theorem search_returns_and_fails_when_unsolvable puzzle row col startV fuel :
  length puzzle = 81%nat -> in_grid row col -> 0 <= startV <= 9 ->
  (82 <= fuel)%nat ->
  exists r w',
    sudokuHelper never_finished fuel (fresh_worker puzzle) row col startV 0
    = Ret r w' /\
    (unsolvable puzzle -> r = false /\ board w' = puzzle).
Proof.
  intros Hlen Hg Hs Hfuel.
  destruct (sudokuHelper_returns never_finished fuel (fresh_worker puzzle)
              row col startV 0) as (r & w' & Hrun);
    [exact Hg|exact Hs|unfold BOARDSIZE; lia|unfold BOARDSIZE; lia|].
  exists r, w'. split; [exact Hrun|]. intros Hu. destruct r.
  - exfalso. apply (Hu (board w')).
    apply (sudokuHelper_completes fuel (fresh_worker puzzle) row col startV w');
      [exact Hg|exact Hlen|exact Hs|exact Hrun].
  - split; [reflexivity|].
    apply sudokuHelper_restores in Hrun. apply Hrun.
Qed.

Lemma search_returns_and_fails_when_unsolvable_witness :
  length stuck_board = 81%nat /\ in_grid 8 8 /\ 0 <= 0 <= 9 /\
  (82 <= 82)%nat /\
  exists r w',
    sudokuHelper never_finished 82 (fresh_worker stuck_board) 8 8 0 0
    = Ret r w' /\
    (unsolvable stuck_board -> r = false /\ board w' = stuck_board).
Proof.
  split; [reflexivity|].
  split; [unfold in_grid, GRIDSIZE; lia|].
  split; [lia|].
  split; [lia|].
  apply (search_returns_and_fails_when_unsolvable stuck_board 8 8 0 82).
  - reflexivity.
  - unfold in_grid, GRIDSIZE. lia.
  - lia.
  - lia.
Defined.

(** C9.  If [sudokuHelper] returns failure, the board at return is the
    board at entry. *)
Theorem failure_restores_board g fuel w row col startV nTimes w' :
  sudokuHelper g fuel w row col startV nTimes = Ret false w' ->
  board w' = board w.
Proof. intros H. apply sudokuHelper_restores in H. apply H. Qed.

Lemma failure_restores_board_witness :
  sudokuHelper never_finished 3 (fresh_worker stuck_board) 8 8 0 0
  = Ret false (Worker stuck_board 0 3 (rev stuck_trace)) /\
  board (Worker stuck_board 0 3 (rev stuck_trace))
  = board (fresh_worker stuck_board).
Proof.
  split.
  - vm_compute. reflexivity.
  - apply (failure_restores_board never_finished 3
             (fresh_worker stuck_board) 8 8 0 0).
    vm_compute. reflexivity.
Defined.

(** C10.  Whatever [sudokuHelper] returns, every cell that was non-zero
    at entry holds the same value at return, and every assignment to a
    cell follows an examination of that cell that found it 0. *)
Theorem givens_never_modified g fuel w row col startV nTimes r w' :
  sudokuHelper g fuel w row col startV nTimes = Ret r w' ->
  keeps_givens (board w) (board w') /\
  exists new, trace w' = new ++ trace w /\ written_after_zero new.
Proof.
  intros H.
  destruct (sudokuHelper_keeps _ _ _ _ _ _ _ _ _ H) as (Hk & new & E & Hok).
  split; [exact Hk|]. exists new. split; [exact E|].
  apply writes_ok_spec. exact Hok.
Qed.

Lemma givens_never_modified_witness :
  sudokuHelper never_finished 3 (fresh_worker stuck_board) 8 8 0 0
  = Ret false (Worker stuck_board 0 3 (rev stuck_trace)) /\
  keeps_givens (board (fresh_worker stuck_board))
               (board (Worker stuck_board 0 3 (rev stuck_trace))) /\
  exists new,
    trace (Worker stuck_board 0 3 (rev stuck_trace))
    = new ++ trace (fresh_worker stuck_board) /\
    written_after_zero new.
Proof.
  split.
  - vm_compute. reflexivity.
  - apply (givens_never_modified never_finished 3
             (fresh_worker stuck_board) 8 8 0 0 false).
    vm_compute. reflexivity.
Defined.

(** C6 (as stated).  The specification has one cursor, drawn once, for
    all the tasks.  With the sample generator of the C standard seeded
    with 1700000000, the two tasks of [main] for two threads start at
    (1, 8) and at (7, 4). *)
Lemma cursors_differ_between_tasks :
  main_tasks (sample_rand 1700000000) (fun n i => 9 * i / n) 2 solved_grid
  = [Task.Boardz false solved_grid 0 1 8; Task.Boardz false solved_grid 4 7 4]
  /\ ~ same_cursor
       (main_tasks (sample_rand 1700000000) (fun n i => 9 * i / n) 2 solved_grid).
Proof.
  assert (E : main_tasks (sample_rand 1700000000) (fun n i => 9 * i / n) 2
                solved_grid
              = [Task.Boardz false solved_grid 0 1 8;
                 Task.Boardz false solved_grid 4 7 4])
    by (vm_compute; reflexivity).
  split; [exact E|]. rewrite E. intros H.
  destruct (H (Task.Boardz false solved_grid 0 1 8)
              (Task.Boardz false solved_grid 4 7 4)) as [Hrow _].
  - left. reflexivity.
  - right. left. reflexivity.
  - discriminate.
Qed.

(** C6 (amended).  For every worker count, the task of index [i] carries
    the cursor [(rand() % 9, rand() % 9)] of the calls [2i] and [2i+1] of
    [rand()]: the cursor is drawn afresh for each task, row first. *)
Theorem cursor_drawn_per_task rand_at guess_start thread_num puzzle i :
  (i < Z.to_nat thread_num)%nat ->
  exists t,
    main_tasks rand_at guess_start thread_num puzzle !! i = Some t /\
    Task.board t = puzzle /\
    Task.row t = Z.rem (rand_at (2 * i)%nat) 9 /\
    Task.col t = Z.rem (rand_at (2 * i + 1)%nat) 9.
Proof.
  intros Hi. unfold main_tasks. rewrite make_tasks_lookup by exact Hi.
  eexists. split; [reflexivity|]. cbn. auto.
Qed.

Lemma cursor_drawn_per_task_witness :
  (1 < Z.to_nat 2)%nat /\
  exists t,
    main_tasks (sample_rand 1700000000) (fun n i => 9 * i / n) 2 solved_grid
      !! 1%nat = Some t /\
    Task.board t = solved_grid /\
    Task.row t = Z.rem (sample_rand 1700000000 (2 * 1)%nat) 9 /\
    Task.col t = Z.rem (sample_rand 1700000000 (2 * 1 + 1)%nat) 9.
Proof.
  split; [simpl; lia|].
  apply (cursor_drawn_per_task (sample_rand 1700000000)
           (fun n i => 9 * i / n) 2 solved_grid 1).
  simpl. lia.
Defined.

(** C7.  For every board of digits 0..9 and every elapsed time that
    [solveSudoku] computes from two readings of the clock, [buffSudoku]
    writes the 81 integers in row-major order, each followed by a space,
    then the time and a space; the text and its NUL fit the 256 bytes
    without truncation, and parsing the text gives back the 81 values. *)
Theorem serialization_round_trip buff2 puzzle g_start g_finish timeo :
  length buff2 = 256%nat -> length puzzle = 81%nat ->
  Forall is_digit puzzle -> g_elapsed g_start g_finish = Some timeo ->
  exists buf,
    buffSudoku buff2 puzzle timeo = Some buf /\
    length buf = 256%nat /\
    c_string buf = serialized puzzle timeo /\
    (length (c_string buf) < 256)%nat /\
    parse_grid (c_string buf) = Some puzzle.
Proof.
  intros Hb Hp Hd He. pose proof (g_elapsed_fits _ _ _ He) as Ht.
  destruct (buffSudoku_fits buff2 puzzle timeo Hb Hp Hd Ht) as (rest & Hrun & Hlen).
  eexists. split; [exact Hrun|]. split; [exact Hlen|].
  assert (Hs : c_string (serialized puzzle timeo ++ NUL :: rest)
               = serialized puzzle timeo).
  { apply c_string_terminated. unfold serialized.
    apply Forall_app. split; [apply cells_text_not_NUL; exact Hd|].
    apply Forall_app. split; [apply fmt_f_not_NUL|].
    constructor; [discriminate|constructor]. }
  split; [exact Hs|]. rewrite Hs. split.
  - rewrite length_app in Hlen. cbn [length] in Hlen. lia.
  - unfold serialized. apply parse_grid_cells_text; assumption.
Qed.

Lemma serialization_round_trip_witness :
  length blank_buffer = 256%nat /\ length solved_grid = 81%nat /\
  Forall is_digit solved_grid /\
  g_elapsed (Timespec 100 999999000) (Timespec 103 500)
  = Some (S754_finite false 4503603005070216 (-51)) /\
  exists buf,
    buffSudoku blank_buffer solved_grid
               (S754_finite false 4503603005070216 (-51)) = Some buf /\
    length buf = 256%nat /\
    c_string buf
    = serialized solved_grid (S754_finite false 4503603005070216 (-51)) /\
    (length (c_string buf) < 256)%nat /\
    parse_grid (c_string buf) = Some solved_grid.
Proof.
  assert (Hd : Forall is_digit solved_grid)
    by (unfold is_digit, solved_grid; repeat constructor; lia).
  split; [reflexivity|]. split; [reflexivity|].
  split; [exact Hd|]. split; [vm_compute; reflexivity|].
  apply (serialization_round_trip blank_buffer solved_grid
           (Timespec 100 999999000) (Timespec 103 500)).
  - reflexivity.
  - reflexivity.
  - exact Hd.
  - vm_compute. reflexivity.
Defined.



(** * Further properties of the code *)

(** X1.  A search from depth 0 that returns success with the latch never
    set has completed the board: no cell is empty, the givens are kept,
    and every filled cell holds a digit 1..9 that no other cell of its
    row, column or block holds. *)
Theorem successful_search_completes_board puzzle row col startV fuel w' :
  length puzzle = 81%nat -> in_grid row col -> 0 <= startV <= 9 ->
  sudokuHelper never_finished fuel (fresh_worker puzzle) row col startV 0
  = Ret true w' ->
  completion puzzle (board w') /\ length (board w') = 81%nat.
Proof.
  intros Hlen Hg Hs Hrun. split.
  - apply (sudokuHelper_completes fuel (fresh_worker puzzle) row col startV w');
      assumption.
  - rewrite (sudokuHelper_length _ _ _ _ _ _ _ _ _ Hrun). exact Hlen.
Qed.

Lemma successful_search_completes_board_witness :
  length two_blanks = 81%nat /\ in_grid 8 8 /\ 0 <= 0 <= 9 /\
  exists w',
    sudokuHelper never_finished 82 (fresh_worker two_blanks) 8 8 0 0
    = Ret true w' /\
    completion two_blanks (board w') /\ length (board w') = 81%nat.
Proof.
  split; [reflexivity|]. split; [apply in_grid_intro; lia|]. split; [lia|].
  eexists. split; [vm_compute; reflexivity|].
  apply (successful_search_completes_board two_blanks 8 8 0 82).
  - reflexivity.
  - apply in_grid_intro; lia.
  - lia.
  - vm_compute. reflexivity.
Defined.

(** X2.  On a board that some assignment completes, the search from depth
    0 with the latch never set returns success, whatever the cursor and
    the guess offset 0..9: the nine candidates of a cell are all the
    digits, so no completion is missed. *)
Theorem solvable_board_is_solved puzzle sol row col startV fuel :
  length puzzle = 81%nat -> in_grid row col -> 0 <= startV <= 9 ->
  (82 <= fuel)%nat -> completion puzzle sol ->
  exists w',
    sudokuHelper never_finished fuel (fresh_worker puzzle) row col startV 0
    = Ret true w' /\
    completion puzzle (board w').
Proof.
  intros Hlen Hg Hs Hfuel Hsol.
  destruct (sudokuHelper_complete fuel (fresh_worker puzzle) row col startV 0 sol)
    as (w' & Hrun); try assumption; try (unfold BOARDSIZE; lia).
  exists w'. split; [exact Hrun|].
  apply (sudokuHelper_completes fuel (fresh_worker puzzle) row col startV w');
    assumption.
Qed.

Lemma solvable_board_is_solved_witness :
  length two_blanks = 81%nat /\ in_grid 3 5 /\ 0 <= 6 <= 9 /\
  (82 <= 82)%nat /\ completion two_blanks solved_grid /\
  exists w',
    sudokuHelper never_finished 82 (fresh_worker two_blanks) 3 5 6 0
    = Ret true w' /\
    completion two_blanks (board w').
Proof.
  split; [reflexivity|]. split; [apply in_grid_intro; lia|]. split; [lia|].
  split; [lia|]. split; [exact two_blanks_completion|].
  apply (solvable_board_is_solved two_blanks solved_grid 3 5 6 82).
  - reflexivity.
  - apply in_grid_intro; lia.
  - lia.
  - lia.
  - exact two_blanks_completion.
Defined.

(** X3.  On a board with exactly one completion, the search from depth 0
    with the latch never set ends on that completion from every cursor and
    every guess offset 0..9: all the workers of a run that search to the
    end find the same grid. *)
Theorem unique_solution_is_found puzzle sol row col startV fuel :
  length puzzle = 81%nat -> in_grid row col -> 0 <= startV <= 9 ->
  (82 <= fuel)%nat -> completion puzzle sol ->
  (forall other, completion puzzle other -> length other = 81%nat ->
                 other = sol) ->
  exists w',
    sudokuHelper never_finished fuel (fresh_worker puzzle) row col startV 0
    = Ret true w' /\
    board w' = sol.
Proof.
  intros Hlen Hg Hs Hfuel Hsol Huniq.
  destruct (sudokuHelper_complete fuel (fresh_worker puzzle) row col startV 0 sol)
    as (w' & Hrun); try assumption; try (unfold BOARDSIZE; lia).
  exists w'. split; [exact Hrun|]. apply Huniq.
  - apply (sudokuHelper_completes fuel (fresh_worker puzzle) row col startV w');
      assumption.
  - rewrite (sudokuHelper_length _ _ _ _ _ _ _ _ _ Hrun). exact Hlen.
Qed.

Lemma unique_solution_is_found_witness :
  length two_blanks = 81%nat /\ in_grid 3 5 /\ 0 <= 6 <= 9 /\
  (82 <= 82)%nat /\ completion two_blanks solved_grid /\
  (forall other, completion two_blanks other -> length other = 81%nat ->
                 other = solved_grid) /\
  exists w',
    sudokuHelper never_finished 82 (fresh_worker two_blanks) 3 5 6 0
    = Ret true w' /\
    board w' = solved_grid.
Proof.
  split; [reflexivity|]. split; [apply in_grid_intro; lia|]. split; [lia|].
  split; [lia|]. split; [exact two_blanks_completion|].
  split; [exact two_blanks_unique|].
  apply (unique_solution_is_found two_blanks solved_grid 3 5 6 82).
  - reflexivity.
  - apply in_grid_intro; lia.
  - lia.
  - lia.
  - exact two_blanks_completion.
  - exact two_blanks_unique.
Defined.

(** X4.  The verdict of [isValid] on a digit other than 0 does not depend
    on what the target cell holds, as long as it is not that digit:
    overwriting the target cell with another value leaves the verdict
    unchanged. *)
Theorem isValid_ignores_other_values_of_target number puzzle row col v :
  in_grid row col -> cell puzzle row col <> number -> v <> number ->
  number <> 0 ->
  isValid number (store puzzle row col v) row col
  = isValid number puzzle row col.
Proof. apply isValid_after_store. Qed.

Lemma isValid_ignores_other_values_of_target_witness :
  in_grid 0 2 /\ cell two_blanks 0 2 <> 4 /\ 7 <> 4 /\ 4 <> 0 /\
  isValid 4 (store two_blanks 0 2 7) 0 2 = isValid 4 two_blanks 0 2.
Proof.
  split; [apply in_grid_intro; lia|]. split; [vm_compute; discriminate|].
  split; [lia|]. split; [lia|].
  apply (isValid_ignores_other_values_of_target 4 two_blanks 0 2 7).
  - apply in_grid_intro; lia.
  - vm_compute. discriminate.
  - lia.
  - lia.
Defined.

(** X5.  [isValid] reads the target cell too: the value that the target
    cell holds is always rejected, so the test cannot be used on a digit
    that is already placed. *)
Theorem isValid_rejects_value_of_target puzzle row col :
  in_grid row col ->
  isValid (cell puzzle row col) puzzle row col = false.
Proof.
  intros Hg. apply isValid_false_iff; [exact Hg|].
  left. exists col. split; [apply Hg|reflexivity].
Qed.

Lemma isValid_rejects_value_of_target_witness :
  in_grid 4 7 /\ isValid (cell solved_grid 4 7) solved_grid 4 7 = false.
Proof.
  split; [apply in_grid_intro; lia|].
  apply (isValid_rejects_value_of_target solved_grid 4 7).
  apply in_grid_intro; lia.
Defined.

(** X6.  The cursor of [sudokuHelper] scans the grid in a cycle of length
    81: from a cell of the grid it stays in the grid, reaches every cell
    within 81 steps, visits 81 different cells in 81 steps, and is back
    where it started after the 81st. *)
Theorem scan_visits_every_cell_once row col :
  in_grid row col ->
  (forall j, in_grid (walk j row col).1 (walk j row col).2) /\
  (forall row' col', in_grid row' col' ->
     exists j, (1 <= j <= 81)%nat /\ walk j row col = (row', col')) /\
  (forall j k, (1 <= j < k)%nat -> (k <= 81)%nat ->
     walk j row col <> walk k row col) /\
  walk 81 row col = (row, col).
Proof.
  intros Hg. split; [|split; [|split]].
  - intros j. apply (walk_position j row col Hg).
  - intros row' col' Hg'.
    destruct (walk_reaches row col row' col' Hg Hg') as (j & Hj & E).
    exists j. split; [lia|exact E].
  - intros j k Hjk Hk. apply walk_distinct; [exact Hg|lia|lia].
  - apply walk_returns. exact Hg.
Qed.

Lemma scan_visits_every_cell_once_witness :
  in_grid 8 8 /\
  (forall j, in_grid (walk j 8 8).1 (walk j 8 8).2) /\
  (forall row' col', in_grid row' col' ->
     exists j, (1 <= j <= 81)%nat /\ walk j 8 8 = (row', col')) /\
  (forall j k, (1 <= j < k)%nat -> (k <= 81)%nat ->
     walk j 8 8 <> walk k 8 8) /\
  walk 81 8 8 = (8, 8).
Proof.
  split; [apply in_grid_intro; lia|].
  apply (scan_visits_every_cell_once 8 8). apply in_grid_intro; lia.
Defined.

(** X7.  From a guess offset 0..9 the nine candidates that the loop of
    [sudokuHelper] tries on a cell are the nine digits 1..9, each once. *)
Theorem candidates_are_the_nine_digits startV :
  0 <= startV <= 9 ->
  (forall j, (1 <= j <= 9)%nat -> 1 <= rotate j startV <= 9) /\
  (forall d, 1 <= d <= 9 ->
     exists j, (1 <= j <= 9)%nat /\ rotate j startV = d) /\
  (forall j k, (1 <= j < k)%nat -> (k <= 9)%nat ->
     rotate j startV <> rotate k startV).
Proof.
  intros Hs. split; [|split].
  - intros j Hj. apply rotate_in_range; [exact Hs|lia].
  - intros d Hd. apply rotate_reaches; assumption.
  - intros j k Hjk Hk. apply rotate_distinct; lia.
Qed.

Lemma candidates_are_the_nine_digits_witness :
  0 <= 6 <= 9 /\
  (forall j, (1 <= j <= 9)%nat -> 1 <= rotate j 6 <= 9) /\
  (forall d, 1 <= d <= 9 ->
     exists j, (1 <= j <= 9)%nat /\ rotate j 6 = d) /\
  (forall j k, (1 <= j < k)%nat -> (k <= 9)%nat ->
     rotate j 6 <> rotate k 6).
Proof.
  split; [lia|]. apply (candidates_are_the_nine_digits 6). lia.
Defined.

(** X8.  Under any latch history, [sudokuHelper] returns with the read
    locks it had at entry when all its probes read 0; otherwise it returns
    1 with one read lock more, and its last probe is the one that read
    1. *)
Theorem read_lock_kept_only_after_reading_one g fuel w row col startV nTimes
    r w' :
  sudokuHelper g fuel w row col startV nTimes = Ret r w' ->
  (rdlocks w' = rdlocks w /\
   forall k, (probes w <= k < probes w')%nat -> g k = false) \/
  (r = true /\ rdlocks w' = S (rdlocks w) /\
   (probes w < probes w')%nat /\ g (Nat.pred (probes w')) = true).
Proof. intros H. apply sudokuHelper_lock in H. apply H. Qed.

Lemma read_lock_kept_only_after_reading_one_witness :
  exists w',
    sudokuHelper (finished_from 2) 3 (fresh_worker stuck_board) 8 8 0 0
    = Ret true w' /\
    ((rdlocks w' = rdlocks (fresh_worker stuck_board) /\
      forall k, (probes (fresh_worker stuck_board) <= k < probes w')%nat ->
                finished_from 2 k = false) \/
     (true = true /\ rdlocks w' = S (rdlocks (fresh_worker stuck_board)) /\
      (probes (fresh_worker stuck_board) < probes w')%nat /\
      finished_from 2 (Nat.pred (probes w')) = true)).
Proof.
  eexists. split; [vm_compute; reflexivity|].
  apply (read_lock_kept_only_after_reading_one (finished_from 2) 3
           (fresh_worker stuck_board) 8 8 0 0 true).
  vm_compute. reflexivity.
Defined.

(** X9.  Cancellation takes effect at the first probe that reads 1: under
    a latch history that reads 0 at every probe of the undisturbed search,
    the search runs as if undisturbed; if it first reads 1 at the probe
    [k] of the undisturbed search, the search returns 1 right after that
    probe, holding the read lock. *)
Theorem cancellation_at_first_set_probe g puzzle row col startV fuel :
  in_grid row col -> 0 <= startV <= 9 -> (82 <= fuel)%nat ->
  exists r w',
    sudokuHelper never_finished fuel (fresh_worker puzzle) row col startV 0
    = Ret r w' /\
    rdlocks w' = 0%nat /\
    ((forall k, (k < probes w')%nat -> g k = false) ->
     sudokuHelper g fuel (fresh_worker puzzle) row col startV 0 = Ret r w') /\
    (forall k, (k < probes w')%nat -> g k = true ->
       (forall j, (j < k)%nat -> g j = false) ->
       exists w'',
         sudokuHelper g fuel (fresh_worker puzzle) row col startV 0
         = Ret true w'' /\
         probes w'' = S k /\ rdlocks w'' = 1%nat).
Proof.
  intros Hg Hs Hfuel.
  destruct (sudokuHelper_returns never_finished fuel (fresh_worker puzzle)
              row col startV 0) as (r & w' & Hrun);
    [exact Hg|exact Hs|unfold BOARDSIZE; lia|unfold BOARDSIZE; lia|].
  exists r, w'. split; [exact Hrun|].
  destruct (sudokuHelper_follows g fuel (fresh_worker puzzle) row col startV 0
              r w' Hrun) as (_ & Hl & Ha & Hb).
  cbn [probes rdlocks fresh_worker] in Hl, Ha, Hb.
  split; [exact Hl|]. split.
  - intros Hz. apply Ha. intros k Hk. apply Hz. lia.
  - intros k Hk Ht Hz.
    apply (Hb k); [lia|exact Ht|intros j Hj; apply Hz; lia].
Qed.

Lemma cancellation_at_first_set_probe_witness :
  in_grid 8 8 /\ 0 <= 0 <= 9 /\ (82 <= 82)%nat /\
  exists r w',
    sudokuHelper never_finished 82 (fresh_worker stuck_board) 8 8 0 0
    = Ret r w' /\
    rdlocks w' = 0%nat /\
    ((forall k, (k < probes w')%nat -> finished_from 2 k = false) ->
     sudokuHelper (finished_from 2) 82 (fresh_worker stuck_board) 8 8 0 0
     = Ret r w') /\
    (forall k, (k < probes w')%nat -> finished_from 2 k = true ->
       (forall j, (j < k)%nat -> finished_from 2 j = false) ->
       exists w'',
         sudokuHelper (finished_from 2) 82 (fresh_worker stuck_board) 8 8 0 0
         = Ret true w'' /\
         probes w'' = S k /\ rdlocks w'' = 1%nat).
Proof.
  split; [apply in_grid_intro; lia|]. split; [lia|]. split; [lia|].
  apply (cancellation_at_first_set_probe (finished_from 2) stuck_board 8 8 0 82).
  - apply in_grid_intro; lia.
  - lia.
  - lia.
Defined.

(** X10.  A search started with a guess offset 0..9 on a board of digits
    0..9 leaves a board of digits 0..9 with as many cells, whatever it
    returns and whatever the latch history. *)
Theorem search_keeps_digits g fuel w row col startV nTimes r w' :
  0 <= startV <= 9 -> Forall is_digit (board w) ->
  sudokuHelper g fuel w row col startV nTimes = Ret r w' ->
  Forall is_digit (board w') /\ length (board w') = length (board w).
Proof.
  intros Hs Hd Hrun. split.
  - eapply sudokuHelper_digits; eassumption.
  - eapply sudokuHelper_length; eassumption.
Qed.

Lemma search_keeps_digits_witness :
  0 <= 0 <= 9 /\ Forall is_digit (board (fresh_worker two_blanks)) /\
  exists w',
    sudokuHelper never_finished 82 (fresh_worker two_blanks) 8 8 0 0
    = Ret true w' /\
    Forall is_digit (board w') /\
    length (board w') = length (board (fresh_worker two_blanks)).
Proof.
  assert (Hd : Forall is_digit (board (fresh_worker two_blanks))).
  { vm_compute. repeat constructor; discriminate. }
  split; [lia|]. split; [exact Hd|].
  eexists. split; [vm_compute; reflexivity|].
  apply (search_keeps_digits never_finished 82 (fresh_worker two_blanks)
           8 8 0 0 true).
  - lia.
  - exact Hd.
  - vm_compute. reflexivity.
Defined.

(** X11.  [buffSudoku] on a board of 81 cells and any elapsed time stays
    inside its 256 bytes exactly when the text of the cells (each number
    and a space) has at most 256 characters.  It then returns 256 bytes
    whose C string is the first 255 characters of the output: what does
    not fit is cut off, and the string is always terminated.  Otherwise a
    call of [snprintf] is made past the end of the buffer. *)
Theorem buffSudoku_stays_inside_iff_cells_fit buff2 puzzle timeo :
  length buff2 = 256%nat -> length puzzle = 81%nat ->
  ((length (cells_text puzzle) <= 256)%nat ->
   exists buf,
     buffSudoku buff2 puzzle timeo = Some buf /\ length buf = 256%nat /\
     c_string buf = take 255 (serialized puzzle timeo)) /\
  ((256 < length (cells_text puzzle))%nat ->
   buffSudoku buff2 puzzle timeo = None).
Proof.
  intros Hb Hp. split.
  - intros Hfit.
    destruct (buffSudoku_written buff2 puzzle timeo Hb Hp Hfit)
      as (rest & Hrun & Hlen).
    eexists. split; [exact Hrun|]. split; [exact Hlen|].
    apply c_string_take, serialized_not_NUL.
  - intros Hout. apply buffSudoku_outside; assumption.
Qed.

Lemma buffSudoku_stays_inside_iff_cells_fit_witness :
  length blank_buffer = 256%nat /\ length solved_grid = 81%nat /\
  ((length (cells_text solved_grid) <= 256)%nat ->
   exists buf,
     buffSudoku blank_buffer solved_grid huge_time = Some buf /\
     length buf = 256%nat /\
     c_string buf = take 255 (serialized solved_grid huge_time)) /\
  ((256 < length (cells_text solved_grid))%nat ->
   buffSudoku blank_buffer solved_grid huge_time = None).
Proof.
  split; [reflexivity|]. split; [reflexivity|].
  apply (buffSudoku_stays_inside_iff_cells_fit blank_buffer solved_grid
           huge_time); reflexivity.
Defined.

(** X12.  No check is made on the numbers of the board: when each of the
    81 cells holds a number of three digits or more (or a negative number
    of two digits or more), [buffSudoku] runs past the end of its
    buffer. *)
Theorem buffSudoku_overruns_on_wide_cells buff2 puzzle timeo :
  length puzzle = 81%nat ->
  Forall (fun v => 100 <= v \/ v <= -10) puzzle ->
  buffSudoku buff2 puzzle timeo = None.
Proof.
  intros Hp Hwide. apply buffSudoku_outside; [exact Hp|].
  pose proof (cells_text_wide puzzle Hwide). lia.
Qed.

Lemma buffSudoku_overruns_on_wide_cells_witness :
  length wide_board = 81%nat /\
  Forall (fun v => 100 <= v \/ v <= -10) wide_board /\
  buffSudoku blank_buffer wide_board (S754_zero false) = None.
Proof.
  assert (Hw : Forall (fun v => 100 <= v \/ v <= -10) wide_board).
  { apply Forall_replicate. lia. }
  split; [reflexivity|]. split; [exact Hw|].
  apply (buffSudoku_overruns_on_wide_cells blank_buffer wide_board
           (S754_zero false)); [reflexivity|exact Hw].
Defined.

(** X13.  The search and the report of one worker: on a board of 81
    digits 0..9, with the latch never set by another thread, the search
    from depth 0 returns, [buffSudoku] on the board it leaves stays inside
    the buffer for any elapsed time, and the grid read back from the text
    is that board: a completion of the puzzle when the search succeeded;
    the puzzle itself, which then has no completion, when it failed. *)
Theorem search_then_report puzzle row col startV fuel buff2 timeo :
  length puzzle = 81%nat -> Forall is_digit puzzle ->
  length buff2 = 256%nat -> in_grid row col -> 0 <= startV <= 9 ->
  (82 <= fuel)%nat ->
  exists r w' buf,
    sudokuHelper never_finished fuel (fresh_worker puzzle) row col startV 0
    = Ret r w' /\
    buffSudoku buff2 (board w') timeo = Some buf /\
    parse_grid (c_string buf) = Some (board w') /\
    (if r then completion puzzle (board w')
     else board w' = puzzle /\ unsolvable puzzle).
Proof.
  intros Hp Hd Hb Hg Hs Hfuel.
  destruct (sudokuHelper_returns never_finished fuel (fresh_worker puzzle)
              row col startV 0) as (r & w' & Hrun);
    [exact Hg|exact Hs|unfold BOARDSIZE; lia|unfold BOARDSIZE; lia|].
  assert (Hp' : length (board w') = 81%nat)
    by (rewrite (sudokuHelper_length _ _ _ _ _ _ _ _ _ Hrun); exact Hp).
  assert (Hd' : Forall is_digit (board w'))
    by (eapply sudokuHelper_digits; [exact Hs| |exact Hrun]; exact Hd).
  destruct (buffSudoku_written buff2 (board w') timeo Hb Hp')
    as (rest & Hbuf & _).
  { rewrite cells_text_length by exact Hd'. lia. }
  exists r, w'. eexists. split; [exact Hrun|]. split; [exact Hbuf|]. split.
  - rewrite c_string_take by apply serialized_not_NUL.
    apply parse_grid_take; assumption.
  - destruct r.
    + apply (sudokuHelper_completes fuel (fresh_worker puzzle) row col startV w');
        assumption.
    + split; [apply (sudokuHelper_restores _ _ _ _ _ _ _ _ Hrun)|].
      intros sol Hsol.
      destruct (sudokuHelper_complete fuel (fresh_worker puzzle) row col
                  startV 0 sol) as (w'' & Hrun');
        try assumption; try (unfold BOARDSIZE; lia).
      congruence.
Qed.

Lemma search_then_report_witness :
  length two_blanks = 81%nat /\ Forall is_digit two_blanks /\
  length blank_buffer = 256%nat /\ in_grid 8 8 /\ 0 <= 0 <= 9 /\
  (82 <= 82)%nat /\
  exists r w' buf,
    sudokuHelper never_finished 82 (fresh_worker two_blanks) 8 8 0 0
    = Ret r w' /\
    buffSudoku blank_buffer (board w') huge_time = Some buf /\
    parse_grid (c_string buf) = Some (board w') /\
    (if r then completion two_blanks (board w')
     else board w' = two_blanks /\ unsolvable two_blanks).
Proof.
  assert (Hd : Forall is_digit two_blanks).
  { vm_compute. repeat constructor; discriminate. }
  split; [reflexivity|]. split; [exact Hd|]. split; [reflexivity|].
  split; [apply in_grid_intro; lia|]. split; [lia|]. split; [lia|].
  apply (search_then_report two_blanks 8 8 0 82 blank_buffer huge_time).
  - reflexivity.
  - exact Hd.
  - reflexivity.
  - apply in_grid_intro; lia.
  - lia.
  - lia.
Defined.

(** X14.  The tasks that [main] builds for one thread or more: one per
    thread, each with its own copy of the puzzle, [completed] 0 and,
    [rand()] being non-negative, a cursor inside the grid; when the guess
    offsets are in 0..9 the search of every task returns if no thread sets
    the latch. *)
Theorem main_tasks_are_well_formed rand_at guess_start thread_num puzzle :
  1 <= thread_num -> (forall n, 0 <= rand_at n) ->
  (forall i, 0 <= i < thread_num -> 0 <= guess_start thread_num i <= 9) ->
  length (main_tasks rand_at guess_start thread_num puzzle)
  = Z.to_nat thread_num /\
  forall j t,
    main_tasks rand_at guess_start thread_num puzzle !! j = Some t ->
    Task.completed t = false /\ Task.board t = puzzle /\
    in_grid (Task.row t) (Task.col t) /\ 0 <= Task.start t <= 9 /\
    exists r w',
      sudokuHelper never_finished 82 (fresh_worker (Task.board t))
                   (Task.row t) (Task.col t) (Task.start t) 0 = Ret r w'.
Proof.
  intros _ Hrand Hstart. unfold main_tasks. split; [apply make_tasks_length|].
  intros j t Hj.
  assert (Hlt : (j < Z.to_nat thread_num)%nat).
  { apply lookup_lt_Some in Hj. rewrite make_tasks_length in Hj. exact Hj. }
  rewrite make_tasks_lookup in Hj by exact Hlt. injection Hj as <-.
  cbn [Task.completed Task.board Task.row Task.col Task.start].
  assert (Hg : in_grid (Z.rem (rand_at (0 + 2 * j)%nat) 9)
                       (Z.rem (rand_at (0 + 2 * j + 1)%nat) 9))
    by (apply rem_9_in_grid; apply Hrand).
  assert (Hs : 0 <= guess_start thread_num (0 + Z.of_nat j) <= 9)
    by (apply Hstart; lia).
  split; [reflexivity|]. split; [reflexivity|]. split; [exact Hg|].
  split; [exact Hs|].
  apply sudokuHelper_returns; [exact Hg|exact Hs|unfold BOARDSIZE; lia|].
  unfold BOARDSIZE. lia.
Qed.

Lemma main_tasks_are_well_formed_witness :
  1 <= 2 /\ (forall n, 0 <= Z.of_nat n) /\
  (forall i, 0 <= i < 2 -> 0 <= 4 * i <= 9) /\
  length (main_tasks Z.of_nat (fun _ i => 4 * i) 2 two_blanks)
  = Z.to_nat 2 /\
  forall j t,
    main_tasks Z.of_nat (fun _ i => 4 * i) 2 two_blanks !! j = Some t ->
    Task.completed t = false /\ Task.board t = two_blanks /\
    in_grid (Task.row t) (Task.col t) /\ 0 <= Task.start t <= 9 /\
    exists r w',
      sudokuHelper never_finished 82 (fresh_worker (Task.board t))
                   (Task.row t) (Task.col t) (Task.start t) 0 = Ret r w'.
Proof.
  split; [lia|]. split; [intros n; lia|]. split; [intros i Hi; lia|].
  apply (main_tasks_are_well_formed Z.of_nat (fun _ i => 4 * i) 2 two_blanks).
  - lia.
  - intros n. lia.
  - intros i Hi. lia.
Defined.

(** X15.  A worker that finds [g_finished] already 1 under the write
    lock returns from [solveSudoku] without releasing the lock: from then
    on it is the writer in every state of the process, and every worker
    that comes to [pthread_rwlock_rdlock] or [pthread_rwlock_wrlock] is
    blocked. *)
Theorem loser_never_releases_write_lock searches s i :
  rtc step (started searches) s ->
  workers s !! i = Some AtCheck -> g_finished s = true ->
  main_at s <> MainExited ->
  exists s1,
    solveSudoku_step i s = Some s1 /\ workers s1 !! i = Some Returned /\
    forall s', rtc step s1 s' ->
      writer s' = Some i /\ workers s' !! i = Some Returned /\
      forall k p, workers s' !! k = Some p ->
        p = AtWrlock \/ (exists more, p = AtRdlock more) ->
        solveSudoku_step k s' = None.
Proof.
  intros Hreach Hi Hg Ha.
  pose proof (invariant_reachable _ _ Hreach) as Hinv.
  pose proof (inv_places _ Hinv _ _ Hi) as Hw. cbn in Hw.
  assert (Hlt : (i < length (workers s))%nat) by (eapply lookup_lt_Some; eauto).
  exists (move i Returned s).
  assert (Hi1 : workers (move i Returned s) !! i = Some Returned)
    by (cbn; apply list_lookup_insert_eq; exact Hlt).
  split; [|split; [exact Hi1|]].
  - rewrite (solveSudoku_step_at i s AtCheck Ha Hi), Hg. reflexivity.
  - intros s' Hrun.
    destruct (write_lock_kept i _ s' Hrun Hw Hi1) as [Hw' Hi'].
    split; [exact Hw'|]. split; [exact Hi'|].
    intros k p Hk Hp. eapply blocked_by_writer; eassumption.
Qed.

Lemma loser_never_releases_write_lock_witness :
  rtc step (started [0; 0]%nat) loser_at_check /\
  workers loser_at_check !! 1%nat = Some AtCheck /\
  g_finished loser_at_check = true /\
  main_at loser_at_check <> MainExited /\
  exists s1,
    solveSudoku_step 1 loser_at_check = Some s1 /\
    workers s1 !! 1%nat = Some Returned /\
    forall s', rtc step s1 s' ->
      writer s' = Some 1%nat /\ workers s' !! 1%nat = Some Returned /\
      forall k p, workers s' !! k = Some p ->
        p = AtWrlock \/ (exists more, p = AtRdlock more) ->
        solveSudoku_step k s' = None.
Proof.
  assert (Hreach : rtc step (started [0; 0]%nat) loser_at_check).
  { apply (run_reaches loser_schedule). vm_compute. reflexivity. }
  split; [exact Hreach|]. split; [reflexivity|]. split; [reflexivity|].
  split; [discriminate|].
  apply (loser_never_releases_write_lock [0; 0]%nat loser_at_check 1).
  - exact Hreach.
  - reflexivity.
  - reflexivity.
  - discriminate.
Defined.

(** X16.  A worker that reads [g_finished] as 1 in [sudokuHelper] goes on
    to [pthread_rwlock_wrlock] with its read lock held: from then on it
    waits there in every state of the process, still a reader, and no
    worker obtains the write lock. *)
Theorem early_returner_blocks_writers searches s i more :
  rtc step (started searches) s ->
  workers s !! i = Some (AtTest more) -> g_finished s = true ->
  main_at s <> MainExited ->
  exists s1,
    solveSudoku_step i s = Some s1 /\ workers s1 !! i = Some AtWrlock /\
    forall s', rtc step s1 s' ->
      i ∈ readers s' /\ workers s' !! i = Some AtWrlock /\
      forall k, workers s' !! k = Some AtWrlock ->
                solveSudoku_step k s' = None.
Proof.
  intros Hreach Hi Hg Ha.
  pose proof (invariant_reachable _ _ Hreach) as Hinv.
  pose proof (inv_places _ Hinv _ _ Hi) as Hr. cbn in Hr.
  assert (Hlt : (i < length (workers s))%nat) by (eapply lookup_lt_Some; eauto).
  exists (move i AtWrlock s).
  assert (Hi1 : workers (move i AtWrlock s) !! i = Some AtWrlock)
    by (cbn; apply list_lookup_insert_eq; exact Hlt).
  split; [|split; [exact Hi1|]].
  - rewrite (solveSudoku_step_at i s (AtTest more) Ha Hi), Hg. reflexivity.
  - intros s' Hrun.
    destruct (read_lock_kept i _ s' Hrun Hr Hi1) as [Hr' Hi'].
    split; [exact Hr'|]. split; [exact Hi'|].
    intros k Hk. eapply blocked_by_reader; eassumption.
Qed.

Lemma early_returner_blocks_writers_witness :
  rtc step (started [0; 0]%nat) early_returner_at_test /\
  workers early_returner_at_test !! 1%nat = Some (AtTest 0) /\
  g_finished early_returner_at_test = true /\
  main_at early_returner_at_test <> MainExited /\
  exists s1,
    solveSudoku_step 1 early_returner_at_test = Some s1 /\
    workers s1 !! 1%nat = Some AtWrlock /\
    forall s', rtc step s1 s' ->
      1%nat ∈ readers s' /\ workers s' !! 1%nat = Some AtWrlock /\
      forall k, workers s' !! k = Some AtWrlock ->
                solveSudoku_step k s' = None.
Proof.
  assert (Hreach : rtc step (started [0; 0]%nat) early_returner_at_test).
  { apply (run_reaches early_returner_schedule). vm_compute. reflexivity. }
  split; [exact Hreach|]. split; [reflexivity|]. split; [reflexivity|].
  split; [discriminate|].
  apply (early_returner_blocks_writers [0; 0]%nat early_returner_at_test 1 0).
  - exact Hreach.
  - reflexivity.
  - reflexivity.
  - discriminate.
Defined.

(** X17.  The report can be lost: whenever there is a worker, the process
    has a run in which [main] finds [g_finished] 1 at its first test and
    returns after the latch was set and before the worker that set it has
    called [buffSudoku] and [send]; the process is then over and no
    report has been made. *)
Theorem main_can_return_before_the_report more rest :
  exists s,
    rtc step (started (more :: rest)) s /\
    main_at s = MainExited /\ g_finished s = true /\ flips s = [0%nat] /\
    workers s !! 0%nat = Some AtReport /\ reports s = [] /\
    forall s', ~ step s s'.
Proof.
  exists (exited_before_report (map AtRdlock rest)).
  split; [|repeat split].
  - etransitivity; [apply worker_0_searches|apply run_to_exit_before_report].
  - intros s'. apply no_step_after_exit. reflexivity.
Qed.

(** X18.  The signal is not lost: in every state of the process where
    [main] is inside [pthread_cond_wait] and [g_finished] is 1, the worker
    that set it has still to call [pthread_cond_signal], and its remaining
    steps make the report and wake [main], which then returns. *)
Theorem signal_is_not_lost searches s :
  rtc step (started searches) s ->
  main_at s = MainWaiting -> g_finished s = true ->
  exists w p s',
    flips s = [w] /\ workers s !! w = Some p /\
    (p = AtMutexUnlock \/ p = AtReport \/ p = AtWrUnlock \/ p = AtSignal) /\
    rtc step s s' /\ main_at s' = MainExited /\ reports s' = [w].
Proof.
  intros Hreach Hm Hg.
  pose proof (invariant_reachable _ _ Hreach) as Hinv.
  destruct (wakeup_pending_reachable _ _ Hreach Hm Hg) as (w & p & Hf & Hw & Hp).
  destruct (main_returns_when_woken s w p Hinv Hm Hg Hf Hw Hp)
    as (s' & Hrun & He & Hr).
  exists w, p, s'. split; [exact Hf|]. split; [exact Hw|].
  split; [|auto]. destruct p; cbn in Hp; try contradiction; auto.
Qed.

Lemma signal_is_not_lost_witness :
  rtc step (started [0; 0]%nat) main_waits_latch_set /\
  main_at main_waits_latch_set = MainWaiting /\
  g_finished main_waits_latch_set = true /\
  exists w p s',
    flips main_waits_latch_set = [w] /\
    workers main_waits_latch_set !! w = Some p /\
    (p = AtMutexUnlock \/ p = AtReport \/ p = AtWrUnlock \/ p = AtSignal) /\
    rtc step main_waits_latch_set s' /\ main_at s' = MainExited /\
    reports s' = [w].
Proof.
  assert (Hreach : rtc step (started [0; 0]%nat) main_waits_latch_set).
  { apply (run_reaches waiting_schedule). vm_compute. reflexivity. }
  split; [exact Hreach|]. split; [reflexivity|]. split; [reflexivity|].
  apply (signal_is_not_lost [0; 0]%nat main_waits_latch_set).
  - exact Hreach.
  - reflexivity.
  - reflexivity.
Defined.

(** X19.  The process does not hang before [main] returns: in every
    state it can reach with at least one worker, as long as [main] has not
    returned, a worker or [main] can take a step of the program (a wake-up
    without signal is not needed). *)
Theorem some_thread_runs_until_exit searches s :
  rtc step (started searches) s -> searches <> [] ->
  main_at s <> MainExited ->
  exists s', (exists i, solveSudoku_step i s = Some s') \/ main_step s = Some s'.
Proof.
  intros Hreach Hne Ha.
  pose proof (invariant_reachable _ _ Hreach) as Hinv.
  destruct (g_finished s) eqn:Hg.
  - apply some_thread_runs_after_flip; try assumption.
    eapply wakeup_pending_reachable. exact Hreach.
  - apply some_thread_runs_before_flip; try assumption.
    intros E. pose proof (reachable_workers_length _ _ Hreach) as Hlen.
    rewrite E in Hlen. destruct searches; [contradiction|discriminate].
Qed.

Lemma some_thread_runs_until_exit_witness :
  rtc step (started [0; 0]%nat) main_waits_latch_set /\
  [0; 0]%nat <> [] /\ main_at main_waits_latch_set <> MainExited /\
  exists s',
    (exists i, solveSudoku_step i main_waits_latch_set = Some s') \/
    main_step main_waits_latch_set = Some s'.
Proof.
  assert (Hreach : rtc step (started [0; 0]%nat) main_waits_latch_set).
  { apply (run_reaches waiting_schedule). vm_compute. reflexivity. }
  split; [exact Hreach|]. split; [discriminate|]. split; [discriminate|].
  apply (some_thread_runs_until_exit [0; 0]%nat main_waits_latch_set).
  - exact Hreach.
  - discriminate.
  - discriminate.
Defined.

(** X20.  No step of the process resets [g_finished] or changes the
    worker that set it: once the latch is 1 it is 1 in every later state,
    set by the same worker. *)
Theorem latch_is_never_reset s s' :
  rtc step s s' -> g_finished s = true ->
  g_finished s' = true /\ flips s' = flips s.
Proof. apply latch_kept. Qed.

Lemma latch_is_never_reset_witness :
  rtc step main_waits_latch_set exited_after_report /\
  g_finished main_waits_latch_set = true /\
  g_finished exited_after_report = true /\
  flips exited_after_report = flips main_waits_latch_set.
Proof.
  assert (Hrun : rtc step main_waits_latch_set exited_after_report).
  { apply (run_reaches (replicate 4 (WorkerThread 0)
                        ++ replicate 3 MainThread)).
    vm_compute. reflexivity. }
  split; [exact Hrun|]. split; [reflexivity|].
  apply (latch_is_never_reset main_waits_latch_set exited_after_report).
  - exact Hrun.
  - reflexivity.
Defined.

(** X21.  [main] makes no check of [argc]: with fewer than 82 arguments
    after the program name it calls [atoi] past the end of [argv].  When
    it does read its arguments, the board has 81 cells, the cell of row
    [row] and column [col] is the value of the argument of index
    [1 + 9 * row + col] (the rows one after the other), and the number of
    threads is the value of the argument 82. *)
Theorem main_reads_arguments_in_row_order argv :
  ((length argv < 83)%nat -> main_arguments argv = None) /\
  (forall puzzle thread_num,
     main_arguments argv = Some (puzzle, thread_num) ->
     length puzzle = 81%nat /\
     (forall row col, in_grid row col ->
        argument argv (S (offset row col)) = Some (cell puzzle row col)) /\
     argument argv 82 = Some thread_num).
Proof.
  rewrite main_arguments_values. split.
  - intros Hshort.
    assert (E : argument argv 82 = None).
    { unfold argument. rewrite (lookup_ge_None_2 argv 82) by lia. reflexivity. }
    rewrite E. destruct (mapM (argument argv) (seq 1 81)); reflexivity.
  - intros puzzle thread_num H.
    destruct (mapM (argument argv) (seq 1 81)) as [vs|] eqn:E; [|discriminate].
    destruct (argument argv 82) as [n|]; [|discriminate].
    injection H as -> ->.
    pose proof (length_mapM _ _ _ E) as Hl. rewrite length_seq in Hl.
    split; [congruence|]. split; [|reflexivity].
    intros row col Hg. pose proof (offset_lt row col Hg) as Hlt.
    apply mapM_Some_1 in E.
    destruct (lookup_lt_is_Some_2 puzzle (offset row col)) as [v Hv]; [lia|].
    assert (Hs : seq 1 81 !! offset row col = Some (S (offset row col))).
    { rewrite lookup_seq_lt by exact Hlt. reflexivity. }
    pose proof (Forall2_lookup_lr _ _ _ _ _ _ E Hs Hv) as Ha.
    unfold cell. rewrite Hv. exact Ha.
Qed.

(** X22.  What the program prints, it reads: when the arguments 1 to 82
    are 81 [int] values and a number of threads written as ["%d"] writes
    them, [main] reads exactly these values, whatever the program name
    and whatever follows. *)
Theorem main_reads_back_printed_numbers prog cells thread_num extra :
  length cells = 81%nat -> Forall is_int cells -> is_int thread_num ->
  main_arguments (prog :: map fmt_d cells ++ fmt_d thread_num :: extra)
  = Some (cells, thread_num).
Proof.
  intros Hl Hc Hn. rewrite main_arguments_values.
  rewrite <- Hl at 1. rewrite mapM_argument_fmt_d by exact Hc.
  unfold argument.
  replace ((prog :: map fmt_d cells ++ fmt_d thread_num :: extra) !! 82%nat)
    with ((map fmt_d cells ++ fmt_d thread_num :: extra) !! 81%nat)
    by reflexivity.
  rewrite lookup_app_r by (rewrite length_map; lia).
  rewrite length_map, Hl. cbn. rewrite atoi_fmt_d by exact Hn. reflexivity.
Qed.

Lemma main_reads_back_printed_numbers_witness :
  length two_blanks = 81%nat /\ Forall is_int two_blanks /\ is_int 4 /\
  main_arguments ([] :: map fmt_d two_blanks ++ fmt_d 4 :: [])
  = Some (two_blanks, 4).
Proof.
  assert (Hc : Forall is_int two_blanks).
  { apply digits_are_ints. vm_compute. repeat constructor; discriminate. }
  assert (Hn : is_int 4) by (vm_compute; split; discriminate).
  split; [reflexivity|]. split; [exact Hc|]. split; [exact Hn|].
  apply (main_reads_back_printed_numbers [] two_blanks 4 []);
    [reflexivity|exact Hc|exact Hn].
Defined.
